(** * LevelDB table writer and two-level iterator

    A shallow embedding of [table/table_builder.cc] and
    [table/two_level_iterator.cc], and the properties of the table format
    that follow from the code.

    Layout: Part I holds the definitions (the data model, the collaborators
    the two files call into, the builder, the iterator, and a few concrete
    environments used to run the model); Part II holds the lemmas. *)

From Stdlib Require Import ZArith List Bool Lia QArith String.
From Stdlib.Strings Require Import Byte.
Import ListNotations.
Local Open Scope Z_scope.

(* ================================================================== *)
(** * Part I: definitions *)
(* ================================================================== *)

(** ** Bytes and slices *)

(** A [Slice] (and a [std::string]) is a sequence of bytes. *)
Definition Slice := list byte.

(** [Slice::size()], a [size_t]. *)
Definition size (s : Slice) : Z := Z.of_nat (List.length s).

Definition byte_to_Z (b : byte) : Z := Z.of_N (Byte.to_N b).

(** The low eight bits of [z], as a [char]. *)
Definition byte_of_Z (z : Z) : byte :=
  match Byte.of_N (Z.to_N (z mod 256)) with
  | Some b => b
  | None => x00
  end.

Definition slice_of_string (s : string) : Slice := list_byte_of_string s.

Definition slice_eqb (a b : Slice) : bool :=
  if list_eq_dec Byte.byte_eq_dec a b then true else false.

(** [BytewiseComparator()->Compare]: unsigned bytes compared left to right, a
    proper prefix first. *)
Fixpoint bytewise_Compare (a b : Slice) : Z :=
  match a, b with
  | [], [] => 0
  | [], _ :: _ => -1
  | _ :: _, [] => 1
  | x :: a', y :: b' =>
      if byte_to_Z x <? byte_to_Z y then -1
      else if byte_to_Z y <? byte_to_Z x then 1
      else bytewise_Compare a' b'
  end.

(** Unsigned machine arithmetic: [uint64_t] and [size_t] (64 bits on the
    platforms LevelDB targets) wrap modulo [2^64], [uint32_t] modulo [2^32]. *)
Definition two64 : Z := 2 ^ 64.
Definition two32 : Z := 2 ^ 32.
Definition wrap64 (z : Z) : Z := z mod two64.
Definition wrap32 (z : Z) : Z := z mod two32.

(** ** Status *)

Inductive Code := kNotFound | kCorruption | kNotSupported | kInvalidArgument | kIOError.

(** [leveldb::Status]: success, or an error code with a message. *)
Inductive Status :=
| OK
| Error (c : Code) (msg : string).

Definition status_ok (s : Status) : bool :=
  match s with OK => true | Error _ _ => false end.

Definition InvalidArgument (msg : string) : Status := Error kInvalidArgument msg.
Definition IOError (msg : string) : Status := Error kIOError msg.

(** ** Outcomes of a call

    A call either returns, or stops the process: an [assert] that fails in a
    build with assertions, or a null pointer that is dereferenced. *)
Inductive Fault := AssertionFailure | NullDereference.

Inductive outcome (A : Type) :=
| Done (a : A)
| Abort (why : Fault).
Arguments Done {A} a.
Arguments Abort {A} why.

(** ** CRC32C and fixed-width coding *)

Module crc32c.

(** Modelled from the spec: [crc32c::Value], [crc32c::Extend] and
    [crc32c::Mask] of util/crc32c.{h,cc}, which are not under src/.  The
    checksum is CRC-32C (Castagnoli, reflected polynomial [0x82F63B78],
    initial value and final xor [0xffffffff]), computed here bit by bit; the
    mask is the spec's rotate-and-add formula. *)
Definition kPoly : Z := 0x82F63B78.
Definition kCRC32Xor : Z := 0xffffffff.
Definition kMaskDelta : Z := 0xa282ead8.

Definition step_bit (l : Z) : Z :=
  if Z.testbit l 0 then Z.lxor (Z.shiftr l 1) kPoly else Z.shiftr l 1.

Definition step_byte (l : Z) (b : byte) : Z :=
  Nat.iter 8 step_bit (Z.lxor l (byte_to_Z b)).

(** [Extend(init_crc, data, n)]: the crc of [A ++ data] when [init_crc] is
    the crc of [A]. *)
Definition Extend (init_crc : Z) (data : Slice) : Z :=
  Z.lxor (fold_left step_byte data (Z.lxor init_crc kCRC32Xor)) kCRC32Xor.

Definition Value (data : Slice) : Z := Extend 0 data.

(** [((crc >> 15) | (crc << 17)) + kMaskDelta] on [uint32_t]. *)
Definition Mask (crc : Z) : Z :=
  wrap32 (Z.lor (Z.shiftr crc 15) (wrap32 (Z.shiftl crc 17)) + kMaskDelta).

End crc32c.

(** Modelled from the spec: [EncodeFixed32] of util/coding.h (not under
    src/): the four bytes of a [uint32_t], least significant first. *)
Definition EncodeFixed32 (v : Z) : Slice :=
  [ byte_of_Z v; byte_of_Z (Z.shiftr v 8);
    byte_of_Z (Z.shiftr v 16); byte_of_Z (Z.shiftr v 24) ].

(** Modelled from the spec: [PutVarint64] of util/coding.cc (not under
    src/): base-128, least significant group first, the high bit of a byte
    set when more bytes follow.  Ten groups cover 64 bits. *)
Fixpoint EncodeVarint64_aux (groups : nat) (v : Z) : Slice :=
  match groups with
  | O => []
  | S g =>
      if v <? 128 then [byte_of_Z v]
      else byte_of_Z (Z.lor (Z.land v 127) 128) :: EncodeVarint64_aux g (Z.shiftr v 7)
  end.

Definition PutVarint64 (v : Z) : Slice := EncodeVarint64_aux 10 v.

(** ** Block handles and compression tags *)

(** [BlockHandle] of table/format.h: two [uint64_t]. *)
Record BlockHandle := { handle_offset : Z; handle_size : Z }.

(** [BlockHandle::BlockHandle()]: both fields start as [~0]. *)
Definition BlockHandle_default : BlockHandle :=
  {| handle_offset := two64 - 1; handle_size := two64 - 1 |}.

(** Modelled from the spec: [BlockHandle::EncodeTo] of table/format.cc (not
    under src/): [varint_u64(offset) || varint_u64(size)]. *)
Definition EncodeTo (h : BlockHandle) : Slice :=
  PutVarint64 (handle_offset h) ++ PutVarint64 (handle_size h).

(** [CompressionType] of leveldb/options.h; the spec gives the tags. *)
Inductive CompressionType := kNoCompression | kSnappyCompression.

Definition compression_tag (t : CompressionType) : byte :=
  match t with kNoCompression => x00 | kSnappyCompression => x01 end.

(** [kBlockTrailerSize] of table/format.h: one tag byte and a 32-bit crc. *)
Definition kBlockTrailerSize : Z := 5.

(* ------------------------------------------------------------------ *)
(** ** The table builder: collaborators *)
(* ------------------------------------------------------------------ *)

Module TableBuilder.

(** Objects reached through a pointer and compared by address
    ([Comparator*], [FilterPolicy*]) are addresses into an immutable heap
    that the environment resolves. *)
Definition ptr := N.

(** The [Comparator] interface, as far as the builder calls it.  The two
    shortening methods update their first argument in place; here they
    return its new value. *)
Record Comparator := {
  Compare : Slice -> Slice -> Z;
  FindShortestSeparator : Slice -> Slice -> Slice;
  FindShortSuccessor : Slice -> Slice
}.

(** Modelled from the spec: [Options] of leveldb/options.h (not under
    src/), with the fields the spec lists as the builder's configuration. *)
Record Options := {
  comparator : ptr;
  block_size : Z;
  block_restart_interval : Z;
  compression : CompressionType;
  filter_policy : option ptr
}.

Definition set_block_restart_interval (v : Z) (o : Options) : Options :=
  {| comparator := comparator o; block_size := block_size o;
     block_restart_interval := v; compression := compression o;
     filter_policy := filter_policy o |}.

Definition Entry := (Slice * Slice)%type.

(** Modelled from the spec: [BlockBuilder] of table/block_builder.{h,cc}
    (not under src/).  The spec treats the block encoder as an external
    collaborator that accepts key/value pairs, estimates its size, emits a
    byte buffer and can be reset; its state is therefore kept as the pairs
    added since the last [Reset], each with the restart interval that the
    options it points to held at that moment.  How the pairs are encoded and
    how big the encoding is estimated to be are left to the environment. *)
Record Added := { added_interval : Z; added_key : Slice; added_value : Slice }.
Record BlockBuilder := { added : list Added }.

Definition BlockBuilder_new : BlockBuilder := {| added := [] |}.

Definition BlockBuilder_Add (o : Options) (key value : Slice) (b : BlockBuilder) : BlockBuilder :=
  {| added := added b ++
       [ {| added_interval := block_restart_interval o;
            added_key := key; added_value := value |} ] |}.

Definition BlockBuilder_Reset (b : BlockBuilder) : BlockBuilder := BlockBuilder_new.

Definition BlockBuilder_empty (b : BlockBuilder) : bool :=
  match added b with [] => true | _ :: _ => false end.

Definition entries (b : BlockBuilder) : list Entry :=
  map (fun a => (added_key a, added_value a)) (added b).

(** Modelled from the spec: [FilterBlockBuilder] of table/filter_block.{h,cc}
    (not under src/).  The builder only ever tells the filter encoder that a
    block starts at an offset, feeds it keys, and asks for the finished
    bytes; what the encoder does with that is opaque, so its state is the
    sequence of calls it has received. *)
Inductive FilterCall :=
| StartBlock (block_offset : Z)
| AddKey (key : Slice)
| FilterFinish.

Record FilterBlockBuilder := { policy : ptr; filter_calls : list FilterCall }.

Definition FilterBlockBuilder_new (p : ptr) : FilterBlockBuilder :=
  {| policy := p; filter_calls := [] |}.

Definition filter_call (c : FilterCall) (fb : FilterBlockBuilder) : FilterBlockBuilder :=
  {| policy := policy fb; filter_calls := filter_calls fb ++ [c] |}.

(** Modelled from the spec: [WritableFile] of leveldb/env.h (not under
    src/).  The file is an append-only sink whose calls may fail; its state
    is the calls made so far with the status each returned, and [respond]
    is the file's behaviour: the status it gives to a call after a given
    history.  The builder assumes the file starts empty. *)
Inductive FileCall :=
| Append (data : Slice)
| FlushFile.

Definition FileLog := list (FileCall * Status).

Record WritableFile := {
  calls : FileLog;
  respond : FileLog -> FileCall -> Status
}.

Definition file_call (c : FileCall) (f : WritableFile) : Status * WritableFile :=
  let s := respond f (calls f) c in
  (s, {| calls := calls f ++ [(c, s)]; respond := respond f |}).

(** The number of bytes the file has accepted: the sizes of the [Append]
    calls that returned OK. *)
Fixpoint bytes_appended (l : FileLog) : Z :=
  match l with
  | [] => 0
  | (Append d, OK) :: l' => size d + bytes_appended l'
  | _ :: l' => bytes_appended l'
  end.

Definition is_flush_call (e : FileCall * Status) : bool :=
  match fst e with FlushFile => true | Append _ => false end.

(** What the two source files take from elsewhere: whether assertions are
    compiled out ([NDEBUG]), the compressor ([port::Snappy_Compress], which
    reports failure by returning [false]), the heap of comparators and filter
    policies, the encoders of blocks, filters and the footer. *)
Record Env := {
  ndebug : bool;
  Snappy_Compress : Slice -> option Slice;
  comparator_at : ptr -> Comparator;
  FilterPolicy_Name : ptr -> Slice;
  FilterBlockBuilder_Finish : ptr -> list FilterCall -> Slice;
  BlockBuilder_Finish : list Added -> Slice;
  BlockBuilder_CurrentSizeEstimate : list Added -> Z;
  Footer_EncodeTo : BlockHandle -> BlockHandle -> Slice
}.

(** *** The builder's state *)

Inductive BlockKind := DataBlock | MetaIndexBlock | IndexBlock.

(** A record of one [WriteBlock] call: which block, the pairs it held, the
    handle it was given and the builder's status once written. *)
Record Written := {
  w_kind : BlockKind;
  w_entries : list Entry;
  w_handle : BlockHandle;
  w_status : Status
}.

(** [TableBuilder::Rep].  [written] is not in the source: it is a ghost
    history of the [WriteBlock] calls, which no operation reads. *)
Record Rep := {
  options : Options;
  index_block_options : Options;
  file : WritableFile;
  offset : Z;
  status : Status;
  data_block : BlockBuilder;
  index_block : BlockBuilder;
  last_key : Slice;
  num_entries : Z;
  closed : bool;
  filter_block : option FilterBlockBuilder;
  pending_index_entry : bool;
  pending_handle : BlockHandle;
  compressed_output : Slice;
  written : list Written
}.

Definition set_options (v : Options) (r : Rep) : Rep :=
  {| options := v; index_block_options := index_block_options r; file := file r;
     offset := offset r; status := status r; data_block := data_block r;
     index_block := index_block r; last_key := last_key r;
     num_entries := num_entries r; closed := closed r;
     filter_block := filter_block r; pending_index_entry := pending_index_entry r;
     pending_handle := pending_handle r; compressed_output := compressed_output r;
     written := written r |}.

Definition set_index_block_options (v : Options) (r : Rep) : Rep :=
  {| options := options r; index_block_options := v; file := file r;
     offset := offset r; status := status r; data_block := data_block r;
     index_block := index_block r; last_key := last_key r;
     num_entries := num_entries r; closed := closed r;
     filter_block := filter_block r; pending_index_entry := pending_index_entry r;
     pending_handle := pending_handle r; compressed_output := compressed_output r;
     written := written r |}.

Definition set_file (v : WritableFile) (r : Rep) : Rep :=
  {| options := options r; index_block_options := index_block_options r; file := v;
     offset := offset r; status := status r; data_block := data_block r;
     index_block := index_block r; last_key := last_key r;
     num_entries := num_entries r; closed := closed r;
     filter_block := filter_block r; pending_index_entry := pending_index_entry r;
     pending_handle := pending_handle r; compressed_output := compressed_output r;
     written := written r |}.

Definition set_offset (v : Z) (r : Rep) : Rep :=
  {| options := options r; index_block_options := index_block_options r; file := file r;
     offset := v; status := status r; data_block := data_block r;
     index_block := index_block r; last_key := last_key r;
     num_entries := num_entries r; closed := closed r;
     filter_block := filter_block r; pending_index_entry := pending_index_entry r;
     pending_handle := pending_handle r; compressed_output := compressed_output r;
     written := written r |}.

Definition set_status (v : Status) (r : Rep) : Rep :=
  {| options := options r; index_block_options := index_block_options r; file := file r;
     offset := offset r; status := v; data_block := data_block r;
     index_block := index_block r; last_key := last_key r;
     num_entries := num_entries r; closed := closed r;
     filter_block := filter_block r; pending_index_entry := pending_index_entry r;
     pending_handle := pending_handle r; compressed_output := compressed_output r;
     written := written r |}.

Definition set_data_block (v : BlockBuilder) (r : Rep) : Rep :=
  {| options := options r; index_block_options := index_block_options r; file := file r;
     offset := offset r; status := status r; data_block := v;
     index_block := index_block r; last_key := last_key r;
     num_entries := num_entries r; closed := closed r;
     filter_block := filter_block r; pending_index_entry := pending_index_entry r;
     pending_handle := pending_handle r; compressed_output := compressed_output r;
     written := written r |}.

Definition set_index_block (v : BlockBuilder) (r : Rep) : Rep :=
  {| options := options r; index_block_options := index_block_options r; file := file r;
     offset := offset r; status := status r; data_block := data_block r;
     index_block := v; last_key := last_key r;
     num_entries := num_entries r; closed := closed r;
     filter_block := filter_block r; pending_index_entry := pending_index_entry r;
     pending_handle := pending_handle r; compressed_output := compressed_output r;
     written := written r |}.

Definition set_last_key (v : Slice) (r : Rep) : Rep :=
  {| options := options r; index_block_options := index_block_options r; file := file r;
     offset := offset r; status := status r; data_block := data_block r;
     index_block := index_block r; last_key := v;
     num_entries := num_entries r; closed := closed r;
     filter_block := filter_block r; pending_index_entry := pending_index_entry r;
     pending_handle := pending_handle r; compressed_output := compressed_output r;
     written := written r |}.

Definition set_num_entries (v : Z) (r : Rep) : Rep :=
  {| options := options r; index_block_options := index_block_options r; file := file r;
     offset := offset r; status := status r; data_block := data_block r;
     index_block := index_block r; last_key := last_key r;
     num_entries := v; closed := closed r;
     filter_block := filter_block r; pending_index_entry := pending_index_entry r;
     pending_handle := pending_handle r; compressed_output := compressed_output r;
     written := written r |}.

Definition set_closed (v : bool) (r : Rep) : Rep :=
  {| options := options r; index_block_options := index_block_options r; file := file r;
     offset := offset r; status := status r; data_block := data_block r;
     index_block := index_block r; last_key := last_key r;
     num_entries := num_entries r; closed := v;
     filter_block := filter_block r; pending_index_entry := pending_index_entry r;
     pending_handle := pending_handle r; compressed_output := compressed_output r;
     written := written r |}.

Definition set_filter_block (v : option FilterBlockBuilder) (r : Rep) : Rep :=
  {| options := options r; index_block_options := index_block_options r; file := file r;
     offset := offset r; status := status r; data_block := data_block r;
     index_block := index_block r; last_key := last_key r;
     num_entries := num_entries r; closed := closed r;
     filter_block := v; pending_index_entry := pending_index_entry r;
     pending_handle := pending_handle r; compressed_output := compressed_output r;
     written := written r |}.

Definition set_pending_index_entry (v : bool) (r : Rep) : Rep :=
  {| options := options r; index_block_options := index_block_options r; file := file r;
     offset := offset r; status := status r; data_block := data_block r;
     index_block := index_block r; last_key := last_key r;
     num_entries := num_entries r; closed := closed r;
     filter_block := filter_block r; pending_index_entry := v;
     pending_handle := pending_handle r; compressed_output := compressed_output r;
     written := written r |}.

Definition set_pending_handle (v : BlockHandle) (r : Rep) : Rep :=
  {| options := options r; index_block_options := index_block_options r; file := file r;
     offset := offset r; status := status r; data_block := data_block r;
     index_block := index_block r; last_key := last_key r;
     num_entries := num_entries r; closed := closed r;
     filter_block := filter_block r; pending_index_entry := pending_index_entry r;
     pending_handle := v; compressed_output := compressed_output r;
     written := written r |}.

Definition set_compressed_output (v : Slice) (r : Rep) : Rep :=
  {| options := options r; index_block_options := index_block_options r; file := file r;
     offset := offset r; status := status r; data_block := data_block r;
     index_block := index_block r; last_key := last_key r;
     num_entries := num_entries r; closed := closed r;
     filter_block := filter_block r; pending_index_entry := pending_index_entry r;
     pending_handle := pending_handle r; compressed_output := v;
     written := written r |}.

Definition set_written (v : list Written) (r : Rep) : Rep :=
  {| options := options r; index_block_options := index_block_options r; file := file r;
     offset := offset r; status := status r; data_block := data_block r;
     index_block := index_block r; last_key := last_key r;
     num_entries := num_entries r; closed := closed r;
     filter_block := filter_block r; pending_index_entry := pending_index_entry r;
     pending_handle := pending_handle r; compressed_output := compressed_output r;
     written := v |}.

(** The 5-byte trailer [WriteRawBlock] builds: the tag, then the masked crc
    of the contents extended over the tag byte, least significant byte
    first. *)
Definition block_trailer (block_contents : Slice) (type : CompressionType) : Slice :=
  let tag := compression_tag type in
  let crc := crc32c.Value block_contents in
  let crc := crc32c.Extend crc [tag] in
  tag :: EncodeFixed32 (crc32c.Mask crc).

(** The [size_t] test of [WriteBlock]:
    [compressed->size() < raw.size() - (raw.size() / 8u)]. *)
Definition compresses_enough (compressed raw : Slice) : bool :=
  size compressed <? wrap64 (size raw - size raw / 8).

(** *** Operations

    The methods run in a small state monad over [Rep] whose computations
    may abort. *)
Definition M (A : Type) : Type := Rep -> outcome (A * Rep).

Definition ret {A} (a : A) : M A := fun r => Done (a, r).

Definition bind {A B} (m : M A) (k : A -> M B) : M B :=
  fun r => match m r with
           | Done (a, r') => k a r'
           | Abort why => Abort why
           end.

Definition get : M Rep := fun r => Done (r, r).
Definition gets {A} (f : Rep -> A) : M A := fun r => Done (f r, r).
Definition modify (f : Rep -> Rep) : M unit := fun r => Done (tt, f r).
Definition abort {A} (why : Fault) : M A := fun _ => Abort why.
Definition when (b : bool) (m : M unit) : M unit := if b then m else ret tt.

Declare Scope builder_scope.
Delimit Scope builder_scope with builder.
Notation "x <- m ;; k" := (bind m (fun x => k))
  (at level 61, m at next level, right associativity) : builder_scope.
Notation "m ;; k" := (bind m (fun _ => k))
  (at level 61, right associativity) : builder_scope.
Local Open Scope builder_scope.

Section Methods.

Variable env : Env.

(** [assert(b)]: nothing under [NDEBUG], otherwise the process stops when
    [b] is false. *)
Definition assert (b : bool) : M unit :=
  fun r => if ndebug env || b then Done (tt, r) else Abort AssertionFailure.

(** [TableBuilder::ok()] is [status().ok()]. *)
Definition ok : M bool := gets (fun r => status_ok (status r)).

(** [r->file->Append(data)] and [r->file->Flush()]. *)
Definition file_Append (data : Slice) : M Status :=
  fun r => let (s, f) := file_call (Append data) (file r) in Done (s, set_file f r).

Definition file_Flush : M Status :=
  fun r => let (s, f) := file_call FlushFile (file r) in Done (s, set_file f r).

(** The comparator the stored options point to. *)
Definition the_comparator (r : Rep) : Comparator :=
  comparator_at env (comparator (options r)).

(** [WriteRawBlock(block_contents, type, handle)].  The out-parameter
    [handle] is the value returned; it is filled before anything is
    appended. *)
Definition WriteRawBlock (block_contents : Slice) (type : CompressionType) : M BlockHandle :=
  r <- get ;;
  let handle := {| handle_offset := offset r; handle_size := size block_contents |} in
  s <- file_Append block_contents ;;
  modify (set_status s) ;;
  when (status_ok s) (
    let trailer := block_trailer block_contents type in
    s' <- file_Append trailer ;;
    modify (set_status s') ;;
    when (status_ok s') (
      modify (fun r => set_offset
                (wrap64 (offset r + wrap64 (size block_contents + kBlockTrailerSize))) r))) ;;
  ret handle.

(** The [switch] of [WriteBlock]: the bytes to store and their tag. *)
Definition choose_block_contents (type : CompressionType) (raw : Slice)
  : Slice * CompressionType :=
  match type with
  | kNoCompression => (raw, kNoCompression)
  | kSnappyCompression =>
      match Snappy_Compress env raw with
      | Some compressed =>
          if compresses_enough compressed raw
          then (compressed, kSnappyCompression)
          else (raw, kNoCompression)
      | None => (raw, kNoCompression)
      end
  end.

(** The [BlockBuilder*] argument of [WriteBlock] points to the builder's
    data block, to its index block, or to the metaindex block that is a
    local of [Finish]. *)
Inductive BlockRef :=
| data_block_ref
| index_block_ref
| meta_index_block_ref (b : BlockBuilder).

Definition deref (ref : BlockRef) (r : Rep) : BlockBuilder :=
  match ref with
  | data_block_ref => data_block r
  | index_block_ref => index_block r
  | meta_index_block_ref b => b
  end.

Definition reset_block (ref : BlockRef) (r : Rep) : Rep :=
  match ref with
  | data_block_ref => set_data_block (BlockBuilder_Reset (data_block r)) r
  | index_block_ref => set_index_block (BlockBuilder_Reset (index_block r)) r
  | meta_index_block_ref _ => r
  end.

Definition kind_of (ref : BlockRef) : BlockKind :=
  match ref with
  | data_block_ref => DataBlock
  | index_block_ref => IndexBlock
  | meta_index_block_ref _ => MetaIndexBlock
  end.

(** [WriteBlock(block, handle)]. *)
Definition WriteBlock (block : BlockRef) : M BlockHandle :=
  ok_ <- ok ;;
  assert ok_ ;;
  r <- get ;;
  let finished := deref block r in
  let raw := BlockBuilder_Finish env (added finished) in
  let (block_contents, type) := choose_block_contents (compression (options r)) raw in
  handle <- WriteRawBlock block_contents type ;;
  modify (set_compressed_output []) ;;
  modify (reset_block block) ;;
  modify (fun r => set_written
            (written r ++ [ {| w_kind := kind_of block; w_entries := entries finished;
                               w_handle := handle; w_status := status r |} ]) r) ;;
  ret handle.

(** [TableBuilder::Flush()]. *)
Definition Flush : M unit :=
  closed_ <- gets closed ;;
  assert (negb closed_) ;;
  ok_ <- ok ;;
  if negb ok_ then ret tt else
  empty_ <- gets (fun r => BlockBuilder_empty (data_block r)) ;;
  if empty_ then ret tt else
  pending <- gets pending_index_entry ;;
  assert (negb pending) ;;
  handle <- WriteBlock data_block_ref ;;
  modify (set_pending_handle handle) ;;
  ok_ <- ok ;;
  when ok_ (
    modify (set_pending_index_entry true) ;;
    s <- file_Flush ;;
    modify (set_status s)) ;;
  r <- get ;;
  match filter_block r with
  | Some fb => modify (set_filter_block (Some (filter_call (StartBlock (offset r)) fb)))
  | None => ret tt
  end.

(** [TableBuilder::Add(key, value)]. *)
Definition Add (key value : Slice) : M unit :=
  closed_ <- gets closed ;;
  assert (negb closed_) ;;
  ok_ <- ok ;;
  if negb ok_ then ret tt else
  r <- get ;;
  when (0 <? num_entries r)
    (assert (0 <? Compare (the_comparator r) key (last_key r))) ;;
  when (pending_index_entry r) (
    assert (BlockBuilder_empty (data_block r)) ;;
    modify (set_last_key (FindShortestSeparator (the_comparator r) (last_key r) key)) ;;
    r <- get ;;
    let handle_encoding := EncodeTo (pending_handle r) in
    modify (set_index_block
              (BlockBuilder_Add (index_block_options r) (last_key r) handle_encoding
                 (index_block r))) ;;
    modify (set_pending_index_entry false)) ;;
  r <- get ;;
  match filter_block r with
  | Some fb => modify (set_filter_block (Some (filter_call (AddKey key) fb)))
  | None => ret tt
  end ;;
  modify (set_last_key key) ;;
  modify (fun r => set_num_entries (num_entries r + 1) r) ;;
  modify (fun r => set_data_block (BlockBuilder_Add (options r) key value (data_block r)) r) ;;
  r <- get ;;
  let estimated_block_size := BlockBuilder_CurrentSizeEstimate env (added (data_block r)) in
  when (block_size (options r) <=? estimated_block_size) Flush.

(** The four sections of [Finish], in the order of its comments.

    [// Write filter block]: the finished filter goes out uncompressed.
    A handle that is not written keeps its initial value. *)
Definition Finish_filter_block : M BlockHandle :=
  r <- get ;;
  match filter_block r with
  | Some fb =>
      if status_ok (status r) then
        modify (set_filter_block (Some (filter_call FilterFinish fb))) ;;
        WriteRawBlock (FilterBlockBuilder_Finish env (policy fb) (filter_calls fb))
          kNoCompression
      else ret BlockHandle_default
  | None => ret BlockHandle_default
  end.

(** [// Write metaindex block]: a fresh block over [r->options] that maps
    ["filter." + policy name] to the filter block's handle. *)
Definition Finish_metaindex_block (filter_block_handle : BlockHandle) : M BlockHandle :=
  ok_ <- ok ;;
  if ok_ then
    r <- get ;;
    meta_index_block <-
      match filter_block r with
      | Some _ =>
          match filter_policy (options r) with
          | Some p =>
              let key := slice_of_string "filter." ++ FilterPolicy_Name env p in
              let handle_encoding := EncodeTo filter_block_handle in
              ret (BlockBuilder_Add (options r) key handle_encoding BlockBuilder_new)
          | None => abort NullDereference
          end
      | None => ret BlockBuilder_new
      end ;;
    WriteBlock (meta_index_block_ref meta_index_block)
  else ret BlockHandle_default.

(** [// Write index block]: the entry still pending, if any, is added under
    a short successor of the last key. *)
Definition Finish_index_block : M BlockHandle :=
  ok_ <- ok ;;
  if ok_ then
    r <- get ;;
    when (pending_index_entry r) (
      modify (set_last_key (FindShortSuccessor (the_comparator r) (last_key r))) ;;
      r <- get ;;
      let handle_encoding := EncodeTo (pending_handle r) in
      modify (set_index_block
                (BlockBuilder_Add (index_block_options r) (last_key r) handle_encoding
                   (index_block r))) ;;
      modify (set_pending_index_entry false)) ;;
    WriteBlock index_block_ref
  else ret BlockHandle_default.

(** [// Write footer]. *)
Definition Finish_footer (metaindex_block_handle index_block_handle : BlockHandle) : M unit :=
  ok_ <- ok ;;
  when ok_ (
    let footer_encoding := Footer_EncodeTo env metaindex_block_handle index_block_handle in
    s <- file_Append footer_encoding ;;
    modify (set_status s) ;;
    when (status_ok s)
      (modify (fun r => set_offset (wrap64 (offset r + size footer_encoding)) r))).

(** [TableBuilder::Finish()]. *)
Definition Finish : M Status :=
  Flush ;;
  closed_ <- gets closed ;;
  assert (negb closed_) ;;
  modify (set_closed true) ;;
  filter_block_handle <- Finish_filter_block ;;
  metaindex_block_handle <- Finish_metaindex_block filter_block_handle ;;
  index_block_handle <- Finish_index_block ;;
  Finish_footer metaindex_block_handle index_block_handle ;;
  gets status.

(** [TableBuilder::Abandon()]. *)
Definition Abandon : M unit :=
  closed_ <- gets closed ;;
  assert (negb closed_) ;;
  modify (set_closed true).

(** [TableBuilder::ChangeOptions(options)]. *)
Definition ChangeOptions (new_options : Options) : M Status :=
  r <- get ;;
  if negb (N.eqb (comparator new_options) (comparator (options r))) then
    ret (InvalidArgument "changing comparator while building table")
  else
    modify (set_options new_options) ;;
    modify (set_index_block_options new_options) ;;
    modify (fun r => set_index_block_options
              (set_block_restart_interval 1 (index_block_options r)) r) ;;
    ret OK.

Definition NumEntries (r : Rep) : Z := wrap64 (num_entries r).
Definition FileSize (r : Rep) : Z := offset r.

(** A caller's use of the builder: a sequence of its public methods. *)
Inductive Op :=
| OpAdd (key value : Slice)
| OpFlush
| OpChangeOptions (new_options : Options)
| OpFinish
| OpAbandon.

Definition step (op : Op) : M unit :=
  match op with
  | OpAdd key value => Add key value
  | OpFlush => Flush
  | OpChangeOptions o => ChangeOptions o ;; ret tt
  | OpFinish => Finish ;; ret tt
  | OpAbandon => Abandon
  end.

Fixpoint run (ops : list Op) : M unit :=
  match ops with
  | [] => ret tt
  | op :: ops' => step op ;; run ops'
  end.

(** The methods a caller uses while the table is being filled. *)
Definition building (op : Op) : bool :=
  match op with
  | OpAdd _ _ | OpFlush | OpChangeOptions _ => true
  | OpFinish | OpAbandon => false
  end.

End Methods.

(** [Rep::Rep(opt, f)]. *)
Definition Rep_new (opt : Options) (f : WritableFile) : Rep :=
  {| options := opt;
     index_block_options := set_block_restart_interval 1 opt;
     file := f;
     offset := 0;
     status := OK;
     data_block := BlockBuilder_new;
     index_block := BlockBuilder_new;
     last_key := [];
     num_entries := 0;
     closed := false;
     filter_block := match filter_policy opt with
                     | None => None
                     | Some p => Some (FilterBlockBuilder_new p)
                     end;
     pending_index_entry := false;
     pending_handle := BlockHandle_default;
     compressed_output := [];
     written := [] |}.

(** [TableBuilder::TableBuilder(options, file)]. *)
Definition NewTableBuilder (opt : Options) (f : WritableFile) : Rep :=
  let rep_ := Rep_new opt f in
  match filter_block rep_ with
  | Some fb => set_filter_block (Some (filter_call (StartBlock 0) fb)) rep_
  | None => rep_
  end.

(** The blocks of one kind among the [WriteBlock] calls made so far. *)
Definition written_of (k : BlockKind) (r : Rep) : list Written :=
  filter (fun w => match w_kind w, k with
                   | DataBlock, DataBlock | MetaIndexBlock, MetaIndexBlock
                   | IndexBlock, IndexBlock => true
                   | _, _ => false
                   end) (written r).

End TableBuilder.

(* ------------------------------------------------------------------ *)
(** ** The two-level iterator *)
(* ------------------------------------------------------------------ *)

Module TwoLevelIterator.

Definition Entry := (Slice * Slice)%type.

(** The abstract [Iterator] interface of leveldb/iterator.h.  The moving
    methods update the iterator in place; here they return its new state. *)
Class Iterator (I : Type) := {
  it_Valid : I -> bool;
  it_key : I -> Slice;
  it_value : I -> Slice;
  it_status : I -> Status;
  it_Seek : Slice -> I -> I;
  it_SeekToFirst : I -> I;
  it_SeekToLast : I -> I;
  it_Next : I -> I;
  it_Prev : I -> I
}.

Section TwoLevel.

Context {II DI : Type} {index_ops : Iterator II} {data_ops : Iterator DI}.

(** The members of [TwoLevelIterator].  [block_function_] stands for the
    function pointer with [arg_] and [options_] already supplied: it builds a
    fresh iterator for the block an index value names, or returns a null
    pointer.

    Modelled from the spec: [IteratorWrapper] of table/iterator_wrapper.h (not
    under src/) caches [Valid()] and [key()] of the iterator it owns and
    otherwise forwards to it; its [Valid()] is false when it owns nothing.
    [index_iter_] wraps the iterator handed to the constructor, which the code
    never tests against null; [data_iter_] may be null, hence the option. *)
Record TwoLevelIterator := {
  block_function_ : Slice -> option DI;
  status_ : Status;
  index_iter_ : II;
  data_iter_ : option DI;
  data_block_handle_ : Slice
}.

Definition set_status_ (v : Status) (t : TwoLevelIterator) : TwoLevelIterator :=
  {| block_function_ := block_function_ t; status_ := v; index_iter_ := index_iter_ t;
     data_iter_ := data_iter_ t; data_block_handle_ := data_block_handle_ t |}.

Definition set_index_iter_ (v : II) (t : TwoLevelIterator) : TwoLevelIterator :=
  {| block_function_ := block_function_ t; status_ := status_ t; index_iter_ := v;
     data_iter_ := data_iter_ t; data_block_handle_ := data_block_handle_ t |}.

Definition set_data_iter_ (v : option DI) (t : TwoLevelIterator) : TwoLevelIterator :=
  {| block_function_ := block_function_ t; status_ := status_ t; index_iter_ := index_iter_ t;
     data_iter_ := v; data_block_handle_ := data_block_handle_ t |}.

Definition set_data_block_handle_ (v : Slice) (t : TwoLevelIterator) : TwoLevelIterator :=
  {| block_function_ := block_function_ t; status_ := status_ t; index_iter_ := index_iter_ t;
     data_iter_ := data_iter_ t; data_block_handle_ := v |}.

(** [TwoLevelIterator::TwoLevelIterator(index_iter, block_function, arg, options)]. *)
Definition NewTwoLevelIterator (index_iter : II) (block_function : Slice -> option DI)
  : TwoLevelIterator :=
  {| block_function_ := block_function; status_ := OK; index_iter_ := index_iter;
     data_iter_ := None; data_block_handle_ := [] |}.

(** [data_iter_.Valid()]. *)
Definition data_Valid (t : TwoLevelIterator) : bool :=
  match data_iter_ t with
  | Some d => it_Valid d
  | None => false
  end.

(** [if (data_iter_.iter() != nullptr) data_iter_.move()]. *)
Definition move_data (move : DI -> DI) (t : TwoLevelIterator) : TwoLevelIterator :=
  match data_iter_ t with
  | Some d => set_data_iter_ (Some (move d)) t
  | None => t
  end.

Definition Valid (t : TwoLevelIterator) : bool := data_Valid t.

(** [key()] and [value()] require [Valid()]; they answer nothing otherwise. *)
Definition key (t : TwoLevelIterator) : option Slice :=
  match data_iter_ t with
  | Some d => if it_Valid d then Some (it_key d) else None
  | None => None
  end.

Definition value (t : TwoLevelIterator) : option Slice :=
  match data_iter_ t with
  | Some d => if it_Valid d then Some (it_value d) else None
  | None => None
  end.

(** [TwoLevelIterator::status()]. *)
Definition status (t : TwoLevelIterator) : Status :=
  if negb (status_ok (it_status (index_iter_ t))) then it_status (index_iter_ t)
  else
    match data_iter_ t with
    | Some d => if negb (status_ok (it_status d)) then it_status d else status_ t
    | None => status_ t
    end.

(** [TwoLevelIterator::SaveError(s)]. *)
Definition SaveError (s : Status) (t : TwoLevelIterator) : TwoLevelIterator :=
  if status_ok (status_ t) && negb (status_ok s) then set_status_ s t else t.

(** [TwoLevelIterator::SetDataIterator(data_iter)]. *)
Definition SetDataIterator (data_iter : option DI) (t : TwoLevelIterator) : TwoLevelIterator :=
  let t := match data_iter_ t with
           | Some d => SaveError (it_status d) t
           | None => t
           end in
  set_data_iter_ data_iter t.

(** [TwoLevelIterator::InitDataBlock()]. *)
Definition InitDataBlock (t : TwoLevelIterator) : TwoLevelIterator :=
  if negb (it_Valid (index_iter_ t)) then SetDataIterator None t
  else
    let handle := it_value (index_iter_ t) in
    match data_iter_ t with
    | Some _ =>
        if slice_eqb handle (data_block_handle_ t) then t
        else SetDataIterator (block_function_ t handle) (set_data_block_handle_ handle t)
    | None => SetDataIterator (block_function_ t handle) (set_data_block_handle_ handle t)
    end.

(** The condition of both skipping loops:
    [data_iter_.iter() == nullptr || !data_iter_.Valid()]. *)
Definition nothing_here (t : TwoLevelIterator) : bool :=
  match data_iter_ t with
  | Some d => negb (it_Valid d)
  | None => true
  end.

(** [TwoLevelIterator::SkipEmptyDataBlocksForward()].  [fuel] bounds the
    number of times the loop condition is evaluated; [None] means the bound was
    reached. *)
Fixpoint SkipEmptyDataBlocksForward (fuel : nat) (t : TwoLevelIterator)
  : option TwoLevelIterator :=
  match fuel with
  | O => None
  | S fuel' =>
      if nothing_here t then
        if negb (it_Valid (index_iter_ t)) then Some (SetDataIterator None t)
        else
          let t := set_index_iter_ (it_Next (index_iter_ t)) t in
          let t := InitDataBlock t in
          let t := move_data it_SeekToFirst t in
          SkipEmptyDataBlocksForward fuel' t
      else Some t
  end.

(** [TwoLevelIterator::SkipEmptyDataBlocksBackward()]. *)
Fixpoint SkipEmptyDataBlocksBackward (fuel : nat) (t : TwoLevelIterator)
  : option TwoLevelIterator :=
  match fuel with
  | O => None
  | S fuel' =>
      if nothing_here t then
        if negb (it_Valid (index_iter_ t)) then Some (SetDataIterator None t)
        else
          let t := set_index_iter_ (it_Prev (index_iter_ t)) t in
          let t := InitDataBlock t in
          let t := move_data it_SeekToLast t in
          SkipEmptyDataBlocksBackward fuel' t
      else Some t
  end.

(** [TwoLevelIterator::Seek(target)]. *)
Definition Seek (fuel : nat) (target : Slice) (t : TwoLevelIterator)
  : option TwoLevelIterator :=
  let t := set_index_iter_ (it_Seek target (index_iter_ t)) t in
  let t := InitDataBlock t in
  let t := move_data (it_Seek target) t in
  SkipEmptyDataBlocksForward fuel t.

(** [TwoLevelIterator::SeekToFirst()]. *)
Definition SeekToFirst (fuel : nat) (t : TwoLevelIterator) : option TwoLevelIterator :=
  let t := set_index_iter_ (it_SeekToFirst (index_iter_ t)) t in
  let t := InitDataBlock t in
  let t := move_data it_SeekToFirst t in
  SkipEmptyDataBlocksForward fuel t.

(** [TwoLevelIterator::SeekToLast()]. *)
Definition SeekToLast (fuel : nat) (t : TwoLevelIterator) : option TwoLevelIterator :=
  let t := set_index_iter_ (it_SeekToLast (index_iter_ t)) t in
  let t := InitDataBlock t in
  let t := move_data it_SeekToLast t in
  SkipEmptyDataBlocksBackward fuel t.

(** [TwoLevelIterator::Next()] and [TwoLevelIterator::Prev()].  Both start
    with [assert(Valid())], which stops a build with assertions; with
    assertions compiled out ([ndebug]) the call goes on to move [data_iter_],
    which dereferences the iterator it wraps.  What a data iterator does when
    it is moved while not valid is that iterator's own matter. *)
Definition Next (ndebug : bool) (fuel : nat) (t : TwoLevelIterator)
  : outcome (option TwoLevelIterator) :=
  if ndebug || Valid t then
    match data_iter_ t with
    | Some d =>
        Done (SkipEmptyDataBlocksForward fuel (set_data_iter_ (Some (it_Next d)) t))
    | None => Abort NullDereference
    end
  else Abort AssertionFailure.

Definition Prev (ndebug : bool) (fuel : nat) (t : TwoLevelIterator)
  : outcome (option TwoLevelIterator) :=
  if ndebug || Valid t then
    match data_iter_ t with
    | Some d =>
        Done (SkipEmptyDataBlocksBackward fuel (set_data_iter_ (Some (it_Prev d)) t))
    | None => Abort NullDereference
    end
  else Abort AssertionFailure.

End TwoLevel.

Arguments TwoLevelIterator II DI : clear implicits.

(** *** Block iterators and tables

    Modelled from the spec: [Block::Iter] of table/block.cc (not under src/),
    the iterator over the pairs of one block.  It starts unpositioned;
    [Seek(target)] moves to the first pair whose key is not below the target,
    and moving off either end leaves it invalid.  An iterator built for an
    unreadable block holds no pairs and reports the error. *)
Record BlockIter := {
  ents : list Entry;
  cur : option nat;
  iter_status : Status
}.

Definition NewBlockIter (es : list Entry) : BlockIter :=
  {| ents := es; cur := None; iter_status := OK |}.

Definition NewErrorIterator (s : Status) : BlockIter :=
  {| ents := []; cur := None; iter_status := s |}.

Definition set_cur (c : option nat) (b : BlockIter) : BlockIter :=
  {| ents := ents b; cur := c; iter_status := iter_status b |}.

Fixpoint find_index {A : Type} (p : A -> bool) (l : list A) : option nat :=
  match l with
  | [] => None
  | x :: l' => if p x then Some O else option_map S (find_index p l')
  end.

Definition no_entry : Entry := ([], []).

Section BlockIterOps.

Variable Compare : Slice -> Slice -> Z.

(** [key >= target] under the comparator. *)
Definition at_or_after (target : Slice) (e : Entry) : bool :=
  0 <=? Compare (fst e) target.

Definition BlockIter_Valid (b : BlockIter) : bool :=
  match cur b with
  | Some i => Nat.ltb i (List.length (ents b))
  | None => false
  end.

Definition BlockIter_key (b : BlockIter) : Slice :=
  match cur b with
  | Some i => fst (nth i (ents b) no_entry)
  | None => []
  end.

Definition BlockIter_value (b : BlockIter) : Slice :=
  match cur b with
  | Some i => snd (nth i (ents b) no_entry)
  | None => []
  end.

Definition BlockIter_Seek (target : Slice) (b : BlockIter) : BlockIter :=
  set_cur (find_index (at_or_after target) (ents b)) b.

Definition BlockIter_SeekToFirst (b : BlockIter) : BlockIter :=
  set_cur (match ents b with [] => None | _ :: _ => Some O end) b.

Definition BlockIter_SeekToLast (b : BlockIter) : BlockIter :=
  set_cur (match ents b with [] => None | _ :: _ => Some (Nat.pred (List.length (ents b))) end) b.

Definition BlockIter_Next (b : BlockIter) : BlockIter :=
  set_cur (match cur b with
           | Some i => if Nat.ltb (S i) (List.length (ents b)) then Some (S i) else None
           | None => None
           end) b.

Definition BlockIter_Prev (b : BlockIter) : BlockIter :=
  set_cur (match cur b with
           | Some (S i) => Some i
           | _ => None
           end) b.

#[local] Instance BlockIter_ops : Iterator BlockIter := {
  it_Valid := BlockIter_Valid;
  it_key := BlockIter_key;
  it_value := BlockIter_value;
  it_status := iter_status;
  it_Seek := BlockIter_Seek;
  it_SeekToFirst := BlockIter_SeekToFirst;
  it_SeekToLast := BlockIter_SeekToLast;
  it_Next := BlockIter_Next;
  it_Prev := BlockIter_Prev
}.

(** A table as the reader sees it: its data blocks in file order, each with
    the separator key and the handle bytes its index entry holds. *)
Record Block := {
  separator : Slice;
  handle : Slice;
  block_entries : list Entry
}.

Definition Table := list Block.

Definition index_entries (t : Table) : list Entry :=
  map (fun b => (separator b, handle b)) t.

Definition all_entries (t : Table) : list Entry :=
  flat_map block_entries t.

(** Modelled from the spec: [Table::BlockReader] of table/table.cc (not under
    src/), the block function the table passes to the two-level iterator: it
    materializes the block a handle locates, or an error iterator. *)
Definition BlockReader (t : Table) (h : Slice) : option BlockIter :=
  match find (fun b => slice_eqb (handle b) h) t with
  | Some b => Some (NewBlockIter (block_entries b))
  | None => Some (NewErrorIterator (Error kCorruption "bad block handle"))
  end.

(** [Table::NewIterator]: a two-level iterator over the index block. *)
Definition NewIterator (t : Table) : TwoLevelIterator BlockIter BlockIter :=
  NewTwoLevelIterator (NewBlockIter (index_entries t)) (BlockReader t).

(** A table is well formed when its handles are distinct, its keys increase
    through the whole file, its separators increase, and each separator is at
    or after every key of its own block and before every key of the later
    blocks. *)
Definition key_lt (a b : Slice) : Prop := Compare a b < 0.
Definition key_le (a b : Slice) : Prop := Compare a b <= 0.

Fixpoint increasing (keys : list Slice) : Prop :=
  match keys with
  | [] => True
  | k :: keys' => Forall (key_lt k) keys' /\ increasing keys'
  end.

Fixpoint separates (t : Table) : Prop :=
  match t with
  | [] => True
  | b :: t' =>
      Forall (fun e => key_le (fst e) (separator b)) (block_entries b) /\
      Forall (fun e => key_lt (separator b) (fst e)) (all_entries t') /\
      separates t'
  end.

Record well_formed (t : Table) : Prop := {
  wf_handles : NoDup (map handle t);
  wf_keys : increasing (map fst (all_entries t));
  wf_index : increasing (map separator t);
  wf_separators : separates t
}.

(** What the comparator contract asks of [Compare]: a total preorder given
    by the sign of the result. *)
Record total_order : Prop := {
  cmp_refl : forall a, Compare a a = 0;
  cmp_flip : forall a b, Compare a b < 0 <-> 0 < Compare b a;
  cmp_trans : forall a b c, Compare a b <= 0 -> Compare b c <= 0 -> Compare a c <= 0
}.

(** The state of an iterator over table [t]: its index iterator walks the
    index entries of [t], its block function reads [t], and the data iterator
    it holds, if any, walks the block its remembered handle names. *)
Definition iterates (t : Table) (it : TwoLevelIterator BlockIter BlockIter) : Prop :=
  ents (index_iter_ it) = index_entries t /\
  block_function_ it = BlockReader t /\
  match data_iter_ it with
  | Some d =>
      exists d0, BlockReader t (data_block_handle_ it) = Some d0 /\ ents d = ents d0 /\
                 iter_status d = iter_status d0
  | None => True
  end.

(** The pair the iterator is positioned at. *)
Definition current (it : TwoLevelIterator BlockIter BlockIter) : option Entry :=
  match key it, value it with
  | Some k, Some v => Some (k, v)
  | _, _ => None
  end.

End BlockIterOps.

End TwoLevelIterator.

(* ------------------------------------------------------------------ *)
(** ** The spec's words, and concrete environments *)
(* ------------------------------------------------------------------ *)

(** The spec's condition for storing the compressed form:
    [compressed.len < raw.len * 7/8], over the rationals. *)
Definition saves_an_eighth (compressed raw : Slice) : Prop :=
  (inject_Z (size compressed) < (7 # 8) * inject_Z (size raw))%Q.

(** *** Environments to run the model in *)

(** The bytewise comparator; the contract lets both shortening methods
    leave the key as it is. *)
Definition bytewise : TableBuilder.Comparator :=
  {| TableBuilder.Compare := bytewise_Compare;
     TableBuilder.FindShortestSeparator := fun start limit => start;
     TableBuilder.FindShortSuccessor := fun key => key |}.

(** A stand-in for the compressor: runs of one byte shrink to that byte. *)
Fixpoint squeeze (l : Slice) : Slice :=
  match l with
  | x :: l' =>
      match l' with
      | y :: _ => if Byte.eqb x y then squeeze l' else x :: squeeze l'
      | [] => l
      end
  | [] => []
  end.

(** A block encoder that writes each key followed by its value. *)
Definition plain_block (l : list TableBuilder.Added) : Slice :=
  flat_map (fun a => TableBuilder.added_key a ++ TableBuilder.added_value a) l.

(** A footer of 48 bytes: the two handles, zero padding up to 40 bytes, and
    eight bytes of magic. *)
Definition plain_footer (metaindex index : BlockHandle) : Slice :=
  let handles := EncodeTo metaindex ++ EncodeTo index in
  handles ++ repeat x00 (40 - List.length handles)
    ++ EncodeFixed32 0x8b80fb57 ++ EncodeFixed32 0xdb477524.

Definition example_env (no_asserts : bool) : TableBuilder.Env :=
  {| TableBuilder.ndebug := no_asserts;
     TableBuilder.Snappy_Compress := fun raw => Some (squeeze raw);
     TableBuilder.comparator_at := fun _ => bytewise;
     TableBuilder.FilterPolicy_Name := fun _ => slice_of_string "example";
     TableBuilder.FilterBlockBuilder_Finish := fun _ _ => [];
     TableBuilder.BlockBuilder_Finish := plain_block;
     TableBuilder.BlockBuilder_CurrentSizeEstimate := fun l => size (plain_block l);
     TableBuilder.Footer_EncodeTo := plain_footer |}.

(** An empty file on which every call succeeds, and one on which the call
    number [n] (counting from 0) fails. *)
Definition reliable_file : TableBuilder.WritableFile :=
  {| TableBuilder.calls := []; TableBuilder.respond := fun _ _ => OK |}.

Definition file_failing_at (n : nat) : TableBuilder.WritableFile :=
  {| TableBuilder.calls := [];
     TableBuilder.respond := fun log _ =>
       if Nat.eqb (List.length log) n then IOError "disk full" else OK |}.


Definition example_options (size_ : Z) (c : CompressionType) (p : option TableBuilder.ptr)
  : TableBuilder.Options :=
  {| TableBuilder.comparator := 1%N; TableBuilder.block_size := size_;
     TableBuilder.block_restart_interval := 16; TableBuilder.compression := c;
     TableBuilder.filter_policy := p |}.

(** The builder a caller holds after a sequence of calls. *)
Definition after (env : TableBuilder.Env) (ops : list TableBuilder.Op) (r : TableBuilder.Rep)
  : TableBuilder.Rep :=
  match TableBuilder.run env ops r with
  | Done (_, r') => r'
  | Abort _ => r
  end.

Definition str (s : string) : Slice := slice_of_string s.

(* ------------------------------------------------------------------ *)
(** ** Predicates on builder states *)
(* ------------------------------------------------------------------ *)

Module BuilderLogic.
Import TableBuilder.

(** [post m r Q]: if [m] returns from state [r], its result and final state
    satisfy [Q]. *)
Definition post {A : Type} (m : M A) (r : Rep) (Q : A -> Rep -> Prop) : Prop :=
  match m r with
  | Done (a, r') => Q a r'
  | Abort _ => True
  end.

(** The precondition [assert(!r->closed)] of [Add], [Flush], [Finish] and
    [Abandon] holds, or assertions are compiled out. *)
Definition may_call (env : Env) (r : Rep) : Prop := ndebug env = true \/ closed r = false.

(** The bytes the builder's file has accepted. *)
Definition accepted (r : Rep) : Z := bytes_appended (calls (file r)).

(** A [uint64_t] that held [o] holds [o'] after [d] was added to it. *)
Definition moved (o o' d : Z) : Prop :=
  (o' = o /\ d = 0) \/ o' = wrap64 (o + d).

(** [advance r r']: from [r] to [r'] the offset advanced by some [d >= 0]
    (modulo 2^64); the file accepted at least [d] more bytes, and exactly [d]
    if the status is still OK, which it can only be if it was OK before. *)
Definition advance (r r' : Rep) : Prop :=
  (status_ok (status r') = true -> status_ok (status r) = true) /\
  exists d, 0 <= d /\
    moved (offset r) (offset r') d /\
    accepted r + d <= accepted r' /\
    (status_ok (status r') = true -> accepted r' = accepted r + d).

(** A computation all of whose runs are advances. *)
Definition advancing {A : Type} (m : M A) : Prop :=
  forall r, post m r (fun _ r' => advance r r').

(** The invariant the source states for [pending_index_entry]: it is true
    only if the data block is empty. *)
Definition pending_only_if_empty (r : Rep) : Prop :=
  pending_index_entry r = true -> BlockBuilder_empty (data_block r) = true.

(** A computation that keeps a property of the state. *)
Definition preserves {A : Type} (P : Rep -> Prop) (m : M A) : Prop :=
  forall r, P r -> post m r (fun _ r' => P r').

(** Everything but the options and the [closed] flag is the same. *)
Definition same_table (r r' : Rep) : Prop :=
  file r' = file r /\ offset r' = offset r /\ status r' = status r /\
  data_block r' = data_block r /\ index_block r' = index_block r /\
  last_key r' = last_key r /\ num_entries r' = num_entries r /\
  filter_block r' = filter_block r /\
  pending_index_entry r' = pending_index_entry r /\
  pending_handle r' = pending_handle r /\
  compressed_output r' = compressed_output r /\ written r' = written r.

(** The parts of the state the index block is built from are the same. *)
Definition index_frame (r r' : Rep) : Prop :=
  index_block r' = index_block r /\ last_key r' = last_key r /\
  pending_index_entry r' = pending_index_entry r /\
  pending_handle r' = pending_handle r /\
  options r' = options r /\ index_block_options r' = index_block_options r.

(** The calls of a log that are [Flush] calls. *)
Definition flush_calls (l : FileLog) : FileLog := filter is_flush_call l.

(** The builder after a write that left the file as [f], the status as [s]
    and the offset as [o]. *)
Definition io (r : Rep) (f : WritableFile) (s : Status) (o : Z) : Rep :=
  set_offset o (set_status s (set_file f r)).

(** [wrote r f s o]: a block write from [r] only appended to the file (no
    [Flush] call), and moved the offset by the bytes of the block if it
    succeeded, not at all if it failed. *)
Definition wrote (r : Rep) (f : WritableFile) (s : Status) (o : Z) : Prop :=
  respond f = respond (file r) /\
  exists new d,
    calls f = calls (file r) ++ new /\
    flush_calls new = [] /\
    0 <= d /\
    moved (offset r) o d /\
    d <= bytes_appended new /\
    (status_ok s = true -> bytes_appended new = d) /\
    (status_ok s = false -> o = offset r).

(** The state [WriteBlock] leaves when the write left [f], [s] and [o]. *)
Definition after_WriteBlock (block : BlockRef) (r : Rep) (h : BlockHandle)
  (f : WritableFile) (s : Status) (o : Z) : Rep :=
  let r2 := reset_block block (set_compressed_output [] (io r f s o)) in
  set_written (written r ++ [ {| w_kind := kind_of block; w_entries := entries (deref block r);
                                 w_handle := h; w_status := s |} ]) r2.

(** [Flush] ends by telling the filter encoder, if there is one, that a
    block starts at the current offset. *)
Definition start_filter_block (r : Rep) : Rep :=
  match filter_block r with
  | Some fb => set_filter_block (Some (filter_call (StartBlock (offset r)) fb)) r
  | None => r
  end.

(** The state [Flush] leaves when it wrote the data block and the write
    left [f], [s] and [o]. *)
Definition after_Flush (r : Rep) (h : BlockHandle)
  (f : WritableFile) (s : Status) (o : Z) : Rep :=
  let r1 := set_pending_handle h (after_WriteBlock data_block_ref r h f s o) in
  start_filter_block
    (if status_ok s then
       set_status (fst (file_call FlushFile f))
         (set_file (snd (file_call FlushFile f)) (set_pending_index_entry true r1))
     else r1).

(** The encoded handles of the blocks in a write history. *)
Definition handles_of (ws : list Written) : list Slice :=
  map (fun w => EncodeTo (w_handle w)) ws.

(** What holds of a builder while a table is being filled through [Add],
    [Flush] and [ChangeOptions], for a builder made with comparator [c0]: it
    is open and still uses [c0]; only data blocks have been written, all of
    them successfully if the status is OK; every
    index entry so far has a separator key; and, while the status is OK, the
    handles in the index block, followed by the pending handle if there is
    one, are the handles of the data blocks written, in order, and a builder
    that has written a block and holds no pairs has an index entry pending. *)
Record filling (env : Env) (c0 : ptr) (r : Rep) : Prop := {
  fill_open : closed r = false;
  fill_comparator : comparator (options r) = c0;
  fill_pending : pending_only_if_empty r;
  fill_data_only : Forall (fun w => w_kind w = DataBlock) (written r);
  fill_written_ok :
    status_ok (status r) = true ->
    Forall (fun w => status_ok (w_status w) = true) (written r);
  fill_separators :
    Forall (fun e => exists a b, fst e = FindShortestSeparator (comparator_at env c0) a b)
      (entries (index_block r));
  fill_handles :
    status_ok (status r) = true ->
    map snd (entries (index_block r)) ++
      (if pending_index_entry r then [EncodeTo (pending_handle r)] else [])
    = handles_of (written r);
  fill_last :
    status_ok (status r) = true -> written r <> [] ->
    BlockBuilder_empty (data_block r) = true -> pending_index_entry r = true
}.

End BuilderLogic.

(** A table of two data blocks, as the builder lays them out. *)
Definition example_table : TwoLevelIterator.Table :=
  [ {| TwoLevelIterator.separator := str "b";
       TwoLevelIterator.handle := EncodeTo {| handle_offset := 0; handle_size := 4 |};
       TwoLevelIterator.block_entries := [(str "a", str "1"); (str "b", str "2")] |};
    {| TwoLevelIterator.separator := str "d";
       TwoLevelIterator.handle := EncodeTo {| handle_offset := 9; handle_size := 2 |};
       TwoLevelIterator.block_entries := [(str "c", str "3")] |} ].

(* ------------------------------------------------------------------ *)
(** ** What a table holds *)
(* ------------------------------------------------------------------ *)

Module TableContents.
Import TableBuilder BuilderLogic.

(** [TableBuilder::~TableBuilder()]: the assertion that catches a caller who
    forgot to call [Finish()] or [Abandon()]; the deletions that follow it
    leave nothing to observe. *)
Definition DeleteTableBuilder (env : Env) : M unit :=
  bind (gets closed) (fun closed_ => assert env closed_).

(** [returning m r Q]: from state [r] the computation [m] returns, and its
    result and final state satisfy [Q]. *)
Definition returning {A : Type} (m : M A) (r : Rep) (Q : A -> Rep -> Prop) : Prop :=
  match m r with
  | Done (a, r') => Q a r'
  | Abort _ => False
  end.

(** A file that accepts every call. *)
Definition reliable (f : WritableFile) : Prop := forall log c, respond f log c = OK.

(** Where the block a handle locates ends: after its payload and trailer. *)
Definition end_of (h : BlockHandle) : Z :=
  wrap64 (handle_offset h + (handle_size h + kBlockTrailerSize)).

(** [carries_on r r']: from [r] to [r'] the [closed] flag and the options
    are the same, a filter encoder is there if it was, and a file that accepts
    every call still does and has kept the status OK if it was. *)
Definition carries_on (r r' : Rep) : Prop :=
  closed r' = closed r /\ options r' = options r /\
  (filter_block r' = None <-> filter_block r = None) /\
  (reliable (file r) ->
   reliable (file r') /\ (status_ok (status r) = true -> status r' = OK)).

(** The state [Add(key, value)] reaches before it looks at the size of the
    data block: the pending index entry is emitted, the filter encoder is fed
    the key, and the pair is in the data block. *)
Definition Add_index_entry (env : Env) (key : Slice) (r : Rep) : Rep :=
  if pending_index_entry r then
    let r1 := set_last_key (FindShortestSeparator (the_comparator env r) (last_key r) key) r in
    set_pending_index_entry false
      (set_index_block
         (BlockBuilder_Add (index_block_options r1) (last_key r1) (EncodeTo (pending_handle r1))
            (index_block r1)) r1)
  else r.

Definition Add_filter_key (key : Slice) (r : Rep) : Rep :=
  match filter_block r with
  | Some fb => set_filter_block (Some (filter_call (AddKey key) fb)) r
  | None => r
  end.

Definition Add_pair (env : Env) (key value : Slice) (r : Rep) : Rep :=
  let r1 := Add_filter_key key (Add_index_entry env key r) in
  let r2 := set_num_entries (num_entries r1 + 1) (set_last_key key r1) in
  set_data_block (BlockBuilder_Add (options r2) key value (data_block r2)) r2.

(** The preconditions [Add(key, value)] asserts. *)
Definition Add_asserts (env : Env) (key : Slice) (r : Rep) : Prop :=
  closed r = false /\
  (0 < num_entries r -> 0 < Compare (the_comparator env r) key (last_key r)) /\
  pending_only_if_empty r.

(** The pairs a sequence of calls hands to [Add], in order. *)
Fixpoint adds_of (ops : list Op) : list Entry :=
  match ops with
  | [] => []
  | OpAdd key value :: ops' => (key, value) :: adds_of ops'
  | _ :: ops' => adds_of ops'
  end.

(** The keys a filter encoder was fed through [AddKey], in order, and the
    offsets it was given through [StartBlock]. *)
Definition keys_fed (fb : FilterBlockBuilder) : list Slice :=
  flat_map (fun c => match c with AddKey key => [key] | _ => [] end) (filter_calls fb).

Definition blocks_started (fb : FilterBlockBuilder) : list Z :=
  flat_map (fun c => match c with StartBlock o => [o] | _ => [] end) (filter_calls fb).

(** Each key is above the one before it. *)
Fixpoint ascending (cmp : Comparator) (keys : list Slice) : Prop :=
  match keys with
  | k1 :: rest =>
      match rest with
      | k2 :: _ => 0 < Compare cmp k2 k1 /\ ascending cmp rest
      | [] => True
      end
  | [] => True
  end.

(** [stores r l]: the pairs [l] are what the builder [r] has taken in: they
    are the pairs of the blocks it wrote followed by those still in its data
    block; [num_entries] counts them; [last_key] is the key of the last; and a
    filter encoder, if there is one, was fed their keys. *)
Definition stores (r : Rep) (l : list Entry) : Prop :=
  flat_map w_entries (written r) ++ entries (data_block r) = l /\
  num_entries r = Z.of_nat (List.length l) /\
  last_key r = last (map fst l) [] /\
  (forall fb, filter_block r = Some fb -> keys_fed fb = map fst l).

(** The blocks of the file tile it: each handle starts where the one before
    it ended, five trailer bytes after its payload. *)
Fixpoint tiles (start : Z) (hs : list BlockHandle) (stop : Z) : Prop :=
  match hs with
  | [] => stop = start
  | h :: hs' =>
      handle_offset h = start /\
      tiles (wrap64 (start + (handle_size h + kBlockTrailerSize))) hs' stop
  end.

(** The data blocks written so far each hold at least one pair. *)
Definition no_empty_data_block (r : Rep) : Prop :=
  Forall (fun w => w_kind w = DataBlock -> w_entries w <> []) (written r).

(** How a table being filled lies in its file.  While the status is OK the
    blocks written tile the file from offset 0 up to the current offset, and a
    filter encoder, if there is one, has been told the offset at which each of
    these blocks starts and the offset at which the next one will.  The
    options of the index block keep a restart interval of 1, and every entry
    of the index block was added under it. *)
Record laid_out (r : Rep) : Prop := {
  lay_tiles :
    status_ok (status r) = true -> tiles 0 (map w_handle (written r)) (offset r);
  lay_started :
    status_ok (status r) = true ->
    forall fb, filter_block r = Some fb ->
      blocks_started fb = map (fun w => handle_offset (w_handle w)) (written r) ++ [offset r];
  lay_interval : block_restart_interval (index_block_options r) = 1;
  lay_index : Forall (fun a => added_interval a = 1) (added (index_block r))
}.

(** The filter encoder the constructor made, if any, and nothing else. *)
Definition filter_fixed (p : option ptr) (r : Rep) : Prop :=
  match p, filter_block r with
  | Some q, Some fb => policy fb = q
  | None, None => True
  | _, _ => False
  end.

(** The data blocks of a write history whose write succeeded. *)
Definition data_blocks_ok (ws : list Written) : list Written :=
  filter (fun w => match w_kind w with
                   | DataBlock => status_ok (w_status w)
                   | _ => false
                   end) ws.

(** The file has been flushed once for each data block written successfully
    and at no other time, beyond the [n0] flushes it had seen before. *)
Definition flushed_per_block (n0 : nat) (r : Rep) : Prop :=
  List.length (flush_calls (calls (file r))) =
  (n0 + List.length (data_blocks_ok (written r)))%nat.

(** What no call changes: the data blocks written are not empty, and the
    filter encoder is the one the constructor made for policy [p], or there is
    none if it made none. *)
Definition durable (p : option ptr) (r : Rep) : Prop :=
  no_empty_data_block r /\ filter_fixed p r.

End TableContents.

(* ------------------------------------------------------------------ *)
(** ** The saved status of an iterator *)
(* ------------------------------------------------------------------ *)

Module IteratorLogic.
Import TwoLevelIterator.

(** From [t] to [t'] the saved status is the same, or it was OK and is now
    an error. *)
Definition error_kept {II DI : Type} (t t' : TwoLevelIterator II DI) : Prop :=
  status_ t' = status_ t \/
  (status_ok (status_ t) = true /\ status_ok (status_ t') = false).

(** The iterator with another block function in place of its own.  The
    source's block function is a function pointer into code that reads the
    table; asked twice for the same handle it need not answer the same, which
    a second function stands for. *)
Definition set_block_function_ {II DI : Type} (v : Slice -> option DI)
  (t : TwoLevelIterator II DI) : TwoLevelIterator II DI :=
  {| block_function_ := v; status_ := status_ t; index_iter_ := index_iter_ t;
     data_iter_ := data_iter_ t; data_block_handle_ := data_block_handle_ t |}.

End IteratorLogic.

(* ------------------------------------------------------------------ *)
(** ** Walking a table *)
(* ------------------------------------------------------------------ *)

Module TableScan.
Import TwoLevelIterator.

Section Scan.

Variable Compare : Slice -> Slice -> Z.

(** The iterator stands at pair [i] of block [b], which has the blocks
    [pre] before it and the blocks [post] after it in table [T]. *)
Definition stands_at (T pre : Table) (b : Block) (post : Table) (i : nat)
  (it : TwoLevelIterator BlockIter BlockIter) : Prop :=
  T = pre ++ b :: post /\
  iterates T it /\
  cur (index_iter_ it) = Some (List.length pre) /\
  exists d, data_iter_ it = Some d /\ ents d = block_entries b /\
            cur d = Some i /\ (i < List.length (block_entries b))%nat.

(** The iterator stands at pair number [n] of the table, counting the pairs
    of all blocks from 0 in file order. *)
Definition located (T : Table) (n : nat) (it : TwoLevelIterator BlockIter BlockIter) : Prop :=
  exists pre b post i,
    stands_at T pre b post i it /\ n = (List.length (all_entries pre) + i)%nat.

(** The iterator has run off the table: it holds no data iterator. *)
Definition off_the_table (T : Table) (it : TwoLevelIterator BlockIter BlockIter) : Prop :=
  iterates T it /\ data_iter_ it = None.

(** The pairs met by [n] steps forward from where the iterator stands: the
    current pair, then [Next()], until the iterator is no longer valid. *)
Fixpoint scan_forward (ndebug : bool) (fuel n : nat)
  (it : TwoLevelIterator BlockIter BlockIter) : list Entry :=
  match n with
  | O => []
  | S n' =>
      match current Compare it with
      | Some e =>
          e :: match Next (index_ops := BlockIter_ops Compare)
                       (data_ops := BlockIter_ops Compare) ndebug fuel it with
               | Done (Some it') => scan_forward ndebug fuel n' it'
               | _ => []
               end
      | None => []
      end
  end.

(** The same backward, with [Prev()]. *)
Fixpoint scan_backward (ndebug : bool) (fuel n : nat)
  (it : TwoLevelIterator BlockIter BlockIter) : list Entry :=
  match n with
  | O => []
  | S n' =>
      match current Compare it with
      | Some e =>
          e :: match Prev (index_ops := BlockIter_ops Compare)
                       (data_ops := BlockIter_ops Compare) ndebug fuel it with
               | Done (Some it') => scan_backward ndebug fuel n' it'
               | _ => []
               end
      | None => []
      end
  end.

End Scan.

End TableScan.

(** A table whose second block is empty, which no builder writes but a
    reader may meet. *)
Definition sparse_table : TwoLevelIterator.Table :=
  [ {| TwoLevelIterator.separator := str "b";
       TwoLevelIterator.handle := EncodeTo {| handle_offset := 0; handle_size := 4 |};
       TwoLevelIterator.block_entries := [(str "a", str "1"); (str "b", str "2")] |};
    {| TwoLevelIterator.separator := str "bb";
       TwoLevelIterator.handle := EncodeTo {| handle_offset := 9; handle_size := 0 |};
       TwoLevelIterator.block_entries := [] |};
    {| TwoLevelIterator.separator := str "d";
       TwoLevelIterator.handle := EncodeTo {| handle_offset := 14; handle_size := 2 |};
       TwoLevelIterator.block_entries := [(str "c", str "3")] |} ].

(* ================================================================== *)
(** * Part II: properties *)
(* ================================================================== *)

(** ** Checksums *)

Lemma lxor_twice (x m : Z) : Z.lxor (Z.lxor x m) m = x.
Proof. now rewrite Z.lxor_assoc, Z.lxor_nilpotent, Z.lxor_0_r. Qed.

(** Extending the crc of [a] over [b] gives the crc of [a ++ b]. *)
Lemma Extend_Value_app (a b : Slice) :
  crc32c.Extend (crc32c.Value a) b = crc32c.Value (a ++ b).
Proof.
  unfold crc32c.Value, crc32c.Extend.
  now rewrite lxor_twice, fold_left_app.
Qed.

Lemma size_nonneg (s : Slice) : 0 <= size s.
Proof. unfold size; lia. Qed.

(** ** The compression threshold *)

Section Threshold.
Import TableBuilder.

(** On naturals, [c < n - n/8] is [8c < 7n]. *)
Lemma eighth_test (c n : Z) :
  0 <= n -> (c < n - n / 8 <-> 8 * c < 7 * n).
Proof.
  intros Hn.
  pose proof (Z.div_mod n 8 ltac:(lia)) as Hdm.
  pose proof (Z.mod_pos_bound n 8 ltac:(lia)) as Hb.
  lia.
Qed.

Lemma saves_an_eighth_cross (compressed raw : Slice) :
  saves_an_eighth compressed raw <-> 8 * size compressed < 7 * size raw.
Proof.
  unfold saves_an_eighth, Qlt, Qmult, inject_Z; cbn [Qnum Qden Pos.mul].
  lia.
Qed.

Lemma compresses_enough_spec (compressed raw : Slice) :
  size raw < two64 ->
  (compresses_enough compressed raw = true <-> saves_an_eighth compressed raw).
Proof.
  intros Hlt. pose proof (size_nonneg raw) as Hr.
  rewrite saves_an_eighth_cross, <- eighth_test by assumption.
  unfold compresses_enough, wrap64.
  rewrite Z.mod_small.
  - apply Z.ltb_lt.
  - pose proof (Z.div_mod (size raw) 8 ltac:(lia)).
    pose proof (Z.mod_pos_bound (size raw) 8 ltac:(lia)).
    unfold two64 in *. lia.
Qed.

End Threshold.

(** ** Writing one block *)

Section BlockWrites.
Import TableBuilder.
Variable env : Env.

Lemma wrap64_add_idemp (a b : Z) : wrap64 (a + wrap64 b) = wrap64 (a + b).
Proof. unfold wrap64. apply Zplus_mod_idemp_r. Qed.

Lemma block_trailer_eq (contents : Slice) (type : CompressionType) :
  block_trailer contents type =
  compression_tag type ::
    EncodeFixed32 (crc32c.Mask (crc32c.Value (contents ++ [compression_tag type]))).
Proof. unfold block_trailer. now rewrite Extend_Value_app. Qed.

Lemma block_trailer_size (contents : Slice) (type : CompressionType) :
  size (block_trailer contents type) = kBlockTrailerSize.
Proof. reflexivity. Qed.

(** What [WriteRawBlock] returns and leaves behind, by the outcome of its
    two appends. *)
Lemma WriteRawBlock_eq (contents : Slice) (type : CompressionType) (r : Rep) :
  WriteRawBlock contents type r =
  let h := {| handle_offset := offset r; handle_size := size contents |} in
  let (s1, f1) := file_call (Append contents) (file r) in
  if status_ok s1 then
    let (s2, f2) := file_call (Append (block_trailer contents type)) f1 in
    if status_ok s2 then
      Done (h, set_offset (wrap64 (offset r + (size contents + kBlockTrailerSize)))
                 (set_status s2 (set_file f2 r)))
    else Done (h, set_status s2 (set_file f2 r))
  else Done (h, set_status s1 (set_file f1 r)).
Proof.
  unfold WriteRawBlock, bind, get, file_Append, modify, when, ret, file_call.
  destruct r; cbn -[wrap64 block_trailer size].
  set (s1 := respond file0 (calls file0) (Append contents)).
  destruct (status_ok s1) eqn:E1; cbn -[wrap64 block_trailer size]; [|reflexivity].
  set (s2 := respond file0 _ (Append (block_trailer contents type))).
  destruct (status_ok s2) eqn:E2; cbn -[wrap64 block_trailer size]; [|reflexivity].
  now rewrite wrap64_add_idemp.
Qed.

(** [WriteBlock] on a builder whose status is OK: the chosen bytes go
    through [WriteRawBlock], then the scratch buffer is cleared and the block
    reset. *)
Lemma WriteBlock_eq (block : BlockRef) (r : Rep) :
  status_ok (status r) = true ->
  WriteBlock env block r =
  let raw := BlockBuilder_Finish env (added (deref block r)) in
  let (contents, type) := choose_block_contents env (compression (options r)) raw in
  match WriteRawBlock contents type r with
  | Done (h, r1) =>
      let r2 := reset_block block (set_compressed_output [] r1) in
      Done (h, set_written
                 (written r2 ++ [ {| w_kind := kind_of block;
                                     w_entries := entries (deref block r);
                                     w_handle := h; w_status := status r2 |} ]) r2)
  | Abort why => Abort why
  end.
Proof.
  intros Hok.
  unfold WriteBlock, bind, ok, gets, assert, get. rewrite Hok, orb_true_r.
  cbv zeta.
  destruct (choose_block_contents _ _ _) as [contents type].
  destruct (WriteRawBlock contents type r) as [[h r1]|]; reflexivity.
Qed.

End BlockWrites.

Section BlockClaims.
Import TableBuilder.

Lemma Mask_formula (c : Z) :
  crc32c.Mask c = (Z.lor (Z.shiftr c 15) (Z.shiftl c 17) + 0xa282ead8) mod 2 ^ 32.
Proof.
  unfold crc32c.Mask, wrap32, two32, crc32c.kMaskDelta.
  rewrite <- Zplus_mod_idemp_l.
  rewrite <- (Zplus_mod_idemp_l (Z.lor _ _)).
  f_equal. f_equal.
  rewrite <- !Z.land_ones by lia.
  rewrite !Z.land_lor_distr_l, <- Z.land_assoc, Z.land_diag.
  reflexivity.
Qed.

(** C1.  Under snappy compression [WriteBlock] appends the compressed bytes,
    with tag 1, exactly when the compressor succeeds and the compressed length
    is below 7/8 of the raw length as rationals; otherwise it appends the raw
    bytes with tag 0.  The [size_t] test [compressed < raw - raw/8] of the code
    decides that rational comparison for all lengths. *)
Theorem WriteBlock_snappy_threshold :
  forall (env : Env) (block : BlockRef) (r : Rep),
    status_ok (status r) = true ->
    compression (options r) = kSnappyCompression ->
    let raw := BlockBuilder_Finish env (added (deref block r)) in
    size raw < two64 ->
    (forall c x : Slice,
        size x < two64 -> (compresses_enough c x = true <-> saves_an_eighth c x)) /\
    exists payload type h r' s1 rest,
      WriteBlock env block r = Done (h, r') /\
      calls (file r') = calls (file r) ++ (Append payload, s1) :: rest /\
      (status_ok s1 = true ->
       exists s2 crc, rest = [(Append (compression_tag type :: EncodeFixed32 crc), s2)]) /\
      ((exists compressed,
           Snappy_Compress env raw = Some compressed /\
           saves_an_eighth compressed raw /\
           payload = compressed /\ type = kSnappyCompression /\ compression_tag type = x01)
       \/
       ((forall compressed,
            Snappy_Compress env raw = Some compressed -> ~ saves_an_eighth compressed raw) /\
        payload = raw /\ type = kNoCompression /\ compression_tag type = x00)).
Proof.
  intros env block r Hok Hsnappy raw Hsize.
  split; [intros c x Hx; now apply compresses_enough_spec|].
  rewrite (WriteBlock_eq env block r Hok). cbv zeta. fold raw. rewrite Hsnappy.
  assert (Hchoice :
    exists payload type, choose_block_contents env kSnappyCompression raw = (payload, type) /\
      ((exists compressed,
           Snappy_Compress env raw = Some compressed /\
           saves_an_eighth compressed raw /\
           payload = compressed /\ type = kSnappyCompression /\ compression_tag type = x01)
       \/
       ((forall compressed,
            Snappy_Compress env raw = Some compressed -> ~ saves_an_eighth compressed raw) /\
        payload = raw /\ type = kNoCompression /\ compression_tag type = x00))).
  { unfold choose_block_contents.
    destruct (Snappy_Compress env raw) as [compressed|] eqn:Ecomp.
    - destruct (compresses_enough compressed raw) eqn:Eenough.
      + exists compressed, kSnappyCompression. split; [reflexivity|]. left.
        exists compressed. repeat split. now apply compresses_enough_spec.
      + exists raw, kNoCompression. split; [reflexivity|]. right.
        repeat split. intros c Hc Hsave. injection Hc as <-.
        apply compresses_enough_spec in Hsave; [congruence|assumption].
    - exists raw, kNoCompression. split; [reflexivity|]. right.
      repeat split. intros c Hc. discriminate. }
  destruct Hchoice as (payload & type & -> & Hcases).
  exists payload, type.
  rewrite WriteRawBlock_eq. unfold file_call. cbv beta iota zeta.
  set (s1 := respond (file r) (calls (file r)) (Append payload)).
  destruct (status_ok s1) eqn:E1; cbn [respond calls].
  - set (s2 := respond (file r) _ (Append (block_trailer payload type))).
    destruct (status_ok s2) eqn:E2;
      eexists _, _, s1, [(Append (block_trailer payload type), s2)];
      (split; [reflexivity|]);
      (split; [destruct block; cbn; now rewrite <- app_assoc|]);
      (split; [intros _; now exists s2, (crc32c.Mask (crc32c.Extend (crc32c.Value payload) [compression_tag type]))|]);
      exact Hcases.
  - eexists _, _, s1, [].
    split; [reflexivity|].
    split; [destruct block; reflexivity|].
    split; [congruence|exact Hcases].
Qed.

(** A block of thirty-two equal bytes is stored compressed, with tag 1. *)
Lemma WriteBlock_snappy_threshold_witness :
  let env := example_env false in
  let r := after env [OpAdd (str "aaaaaaaaaaaaaaaa") (str "aaaaaaaaaaaaaaaa")]
             (NewTableBuilder (example_options 4096 kSnappyCompression None) reliable_file) in
  status_ok (status r) = true /\
  compression (options r) = kSnappyCompression /\
  size (BlockBuilder_Finish env (added (deref data_block_ref r))) < two64 /\
  exists h r', WriteBlock env data_block_ref r = Done (h, r') /\
    calls (file r') =
      [(Append (str "a"), OK);
       (Append (block_trailer (str "a") kSnappyCompression), OK)].
Proof.
  intros env r.
  assert (H1 : status_ok (status r) = true) by reflexivity.
  assert (H2 : compression (options r) = kSnappyCompression) by reflexivity.
  assert (H3 : size (BlockBuilder_Finish env (added (deref data_block_ref r))) < two64)
    by (vm_compute; reflexivity).
  pose proof (WriteBlock_snappy_threshold env data_block_ref r H1 H2 H3) as [_ Hw].
  repeat split; try assumption.
  destruct Hw as (payload & type & h & r' & s1 & rest & Hrun & _).
  exists h, r'. split; [exact Hrun|].
  vm_compute in Hrun. injection Hrun as <- <-. vm_compute. reflexivity.
Defined.

(** C2.  [WriteRawBlock(bytes, tag)] on a builder whose status is OK sets
    the handle to (offset, length of bytes), appends the bytes and, once that
    append succeeded, the 5-byte trailer [tag || mask(crc32c(bytes ++ tag))]
    (little-endian, with the mask formula computed modulo 2^32); when both
    appends succeed the offset grows by the length of the bytes plus 5. *)
Theorem WriteRawBlock_frames_block :
  forall (bytes : Slice) (tag : CompressionType) (r : Rep),
    status_ok (status r) = true ->
    let crc := crc32c.Value (bytes ++ [compression_tag tag]) in
    let mask := (Z.lor (Z.shiftr crc 15) (Z.shiftl crc 17) + 0xa282ead8) mod 2 ^ 32 in
    let trailer := compression_tag tag :: EncodeFixed32 mask in
    exists r' s1,
      WriteRawBlock bytes tag r =
        Done ({| handle_offset := offset r; handle_size := size bytes |}, r') /\
      size trailer = 5 /\
      s1 = respond (file r) (calls (file r)) (Append bytes) /\
      if status_ok s1 then
        exists s2,
          calls (file r') = calls (file r) ++ [(Append bytes, s1); (Append trailer, s2)] /\
          status r' = s2 /\
          if status_ok s2 then
            offset r' = wrap64 (offset r + (size bytes + 5)) /\
            (0 <= offset r -> offset r + size bytes + 5 < two64 ->
             offset r' = offset r + size bytes + 5)
          else offset r' = offset r
      else
        calls (file r') = calls (file r) ++ [(Append bytes, s1)] /\
        status r' = s1 /\ offset r' = offset r.
Proof.
  intros bytes tag r _ crc mask trailer.
  assert (Htrailer : block_trailer bytes tag = trailer).
  { rewrite block_trailer_eq. unfold trailer, mask, crc. now rewrite Mask_formula. }
  rewrite WriteRawBlock_eq. unfold file_call. cbv beta iota zeta. rewrite Htrailer.
  set (s1 := respond (file r) (calls (file r)) (Append bytes)).
  destruct (status_ok s1) eqn:E1; cbn [respond calls].
  - set (s2 := respond (file r) _ (Append trailer)).
    destruct (status_ok s2) eqn:E2.
    + eexists _, s1. split; [reflexivity|]. split; [reflexivity|]. split; [reflexivity|].
      rewrite E1. exists s2. cbn -[wrap64 size trailer]. rewrite <- app_assoc.
      split; [reflexivity|]. split; [reflexivity|]. rewrite E2.
      split; [reflexivity|].
      intros H0 Hlt. unfold wrap64, kBlockTrailerSize, two64. rewrite Z.mod_small; [lia|].
      pose proof (size_nonneg bytes). lia.
    + eexists _, s1. split; [reflexivity|]. split; [reflexivity|]. split; [reflexivity|].
      rewrite E1. exists s2. cbn -[wrap64 size trailer]. rewrite <- app_assoc.
      split; [reflexivity|]. split; [reflexivity|]. now rewrite E2.
  - eexists _, s1. split; [reflexivity|]. split; [reflexivity|]. split; [reflexivity|].
    rewrite E1. cbn. auto.
Qed.

(** Writing the three bytes "abc" uncompressed to a fresh, reliable file
    leaves eight bytes in it and the offset at 8. *)
Lemma WriteRawBlock_frames_block_witness :
  let r := NewTableBuilder (example_options 4096 kNoCompression None) reliable_file in
  status_ok (status r) = true /\
  exists r', WriteRawBlock (str "abc") kNoCompression r =
               Done ({| handle_offset := 0; handle_size := 3 |}, r') /\
             offset r' = 8.
Proof.
  intros r.
  assert (H1 : status_ok (status r) = true) by reflexivity.
  split; [exact H1|].
  destruct (WriteRawBlock_frames_block (str "abc") kNoCompression r H1)
    as (r' & s1 & Hrun & _ & Hs1 & Hrest).
  exists r'. split; [exact Hrun|].
  subst s1. cbn [status_ok reliable_file respond file r NewTableBuilder] in Hrest.
  vm_compute in Hrun. injection Hrun as <-. reflexivity.
Defined.

End BlockClaims.

(** ** Reasoning about the builder's methods *)

Section PostRules.
Import TableBuilder BuilderLogic.
Variable env : Env.

Lemma post_ret {A} (a : A) r (Q : A -> Rep -> Prop) : Q a r -> post (ret a) r Q.
Proof. exact (fun H => H). Qed.

Lemma post_bind {A B} (m : M A) (k : A -> M B) r (Q : B -> Rep -> Prop) :
  post m r (fun a r' => post (k a) r' Q) -> post (bind m k) r Q.
Proof. unfold post, bind. destruct (m r) as [[a r']|]; auto. Qed.

Lemma post_get r (Q : Rep -> Rep -> Prop) : Q r r -> post get r Q.
Proof. exact (fun H => H). Qed.

Lemma post_gets {A} (f : Rep -> A) r (Q : A -> Rep -> Prop) : Q (f r) r -> post (gets f) r Q.
Proof. exact (fun H => H). Qed.

Lemma post_modify (f : Rep -> Rep) r (Q : unit -> Rep -> Prop) :
  Q tt (f r) -> post (modify f) r Q.
Proof. exact (fun H => H). Qed.

Lemma post_abort {A} why r (Q : A -> Rep -> Prop) : post (abort why) r Q.
Proof. exact I. Qed.

Lemma post_assert (b : bool) r (Q : unit -> Rep -> Prop) :
  (ndebug env || b = true -> Q tt r) -> post (assert env b) r Q.
Proof. unfold post, assert. destruct (ndebug env || b); auto. Qed.

Lemma post_ok r (Q : bool -> Rep -> Prop) : Q (status_ok (status r)) r -> post ok r Q.
Proof. exact (fun H => H). Qed.

Lemma post_when (b : bool) (m : M unit) r (Q : unit -> Rep -> Prop) :
  (b = true -> post m r Q) -> (b = false -> Q tt r) -> post (when b m) r Q.
Proof. destruct b; cbn; auto. Qed.

Lemma post_file_Append (data : Slice) r (Q : Status -> Rep -> Prop) :
  Q (fst (file_call (Append data) (file r)))
    (set_file (snd (file_call (Append data) (file r))) r) ->
  post (file_Append data) r Q.
Proof. exact (fun H => H). Qed.

Lemma post_file_Flush r (Q : Status -> Rep -> Prop) :
  Q (fst (file_call FlushFile (file r))) (set_file (snd (file_call FlushFile (file r))) r) ->
  post file_Flush r Q.
Proof. exact (fun H => H). Qed.

Lemma post_weaken {A} (m : M A) r (Q Q' : A -> Rep -> Prop) :
  post m r Q -> (forall a r', Q a r' -> Q' a r') -> post m r Q'.
Proof. unfold post. destruct (m r) as [[a r']|]; auto. Qed.

Lemma post_Done {A} (m : M A) r (Q : A -> Rep -> Prop) a r' :
  post m r Q -> m r = Done (a, r') -> Q a r'.
Proof. unfold post. intros H E. now rewrite E in H. Qed.

End PostRules.

(** Projections of updated states. *)
Ltac rsimpl :=
  cbn [TableBuilder.options TableBuilder.index_block_options TableBuilder.file
       TableBuilder.offset TableBuilder.status TableBuilder.data_block
       TableBuilder.index_block TableBuilder.last_key TableBuilder.num_entries
       TableBuilder.closed TableBuilder.filter_block TableBuilder.pending_index_entry
       TableBuilder.pending_handle TableBuilder.compressed_output TableBuilder.written
       TableBuilder.set_options TableBuilder.set_index_block_options TableBuilder.set_file
       TableBuilder.set_offset TableBuilder.set_status TableBuilder.set_data_block
       TableBuilder.set_index_block TableBuilder.set_last_key TableBuilder.set_num_entries
       TableBuilder.set_closed TableBuilder.set_filter_block
       TableBuilder.set_pending_index_entry TableBuilder.set_pending_handle
       TableBuilder.set_compressed_output TableBuilder.set_written].

(** One step through a method body: [mline] handles straight-line code,
    [mstep] also splits on conditionals. *)
Ltac mline :=
  lazymatch goal with
  | |- BuilderLogic.post (TableBuilder.bind _ _) _ _ => apply post_bind
  | |- BuilderLogic.post (TableBuilder.ret _) _ _ => apply post_ret
  | |- BuilderLogic.post TableBuilder.get _ _ => apply post_get
  | |- BuilderLogic.post (TableBuilder.gets _) _ _ => apply post_gets
  | |- BuilderLogic.post (TableBuilder.modify _) _ _ => apply post_modify
  | |- BuilderLogic.post (TableBuilder.abort _) _ _ => apply post_abort
  | |- BuilderLogic.post (TableBuilder.assert _ _) _ _ =>
      apply post_assert; let H := fresh "Hassert" in intros H
  | |- BuilderLogic.post TableBuilder.ok _ _ => apply post_ok
  | |- BuilderLogic.post (TableBuilder.file_Append _) _ _ => apply post_file_Append
  | |- BuilderLogic.post TableBuilder.file_Flush _ _ => apply post_file_Flush
  end; cbv beta; rsimpl.

Ltac mstep :=
  first
    [ mline
    | lazymatch goal with
      | |- BuilderLogic.post (TableBuilder.when _ _) _ _ =>
          apply post_when; let H := fresh "Hwhen" in intros H
      | |- BuilderLogic.post (if ?b then _ else _) _ _ =>
          let H := fresh "Hif" in destruct b eqn:H
      | |- BuilderLogic.post (match ?x with Some _ => _ | None => _ end) _ _ =>
          let H := fresh "Hopt" in destruct x eqn:H
      end; cbv beta; rsimpl ].

Ltac mlines := repeat mline.
Ltac msteps := repeat mstep.

Section NoOps.
Import TableBuilder BuilderLogic.
Variable env : Env.

Lemma may_call_assert (r : Rep) : may_call env r -> ndebug env || negb (closed r) = true.
Proof. intros [-> | ->]; [reflexivity | apply orb_true_r]. Qed.

Lemma Add_not_ok (key value : Slice) (r : Rep) :
  may_call env r -> status_ok (status r) = false -> Add env key value r = Done (tt, r).
Proof.
  intros Hc Hs. unfold Add, bind, ok, gets, assert. cbv beta.
  rewrite (may_call_assert r Hc). cbv beta iota. now rewrite Hs.
Qed.

Lemma Flush_not_ok (r : Rep) :
  may_call env r -> status_ok (status r) = false -> Flush env r = Done (tt, r).
Proof.
  intros Hc Hs. unfold Flush, bind, ok, gets, assert. cbv beta.
  rewrite (may_call_assert r Hc). cbv beta iota. now rewrite Hs.
Qed.

Lemma Flush_empty (r : Rep) :
  may_call env r -> BlockBuilder_empty (data_block r) = true -> Flush env r = Done (tt, r).
Proof.
  intros Hc He. unfold Flush, bind, ok, gets, assert. cbv beta.
  rewrite (may_call_assert r Hc). cbv beta iota.
  destruct (status_ok (status r)); cbn [negb]; cbv beta iota; [now rewrite He | reflexivity].
Qed.

Lemma Flush_closed (r : Rep) :
  ndebug env = false -> closed r = true -> Flush env r = Abort AssertionFailure.
Proof.
  intros Hn Hc. unfold Flush, bind, gets, assert. cbv beta. now rewrite Hn, Hc.
Qed.

Lemma Finish_not_ok (r : Rep) :
  may_call env r -> status_ok (status r) = false ->
  Finish env r = Done (status r, set_closed true r).
Proof.
  intros Hc Hs. unfold Finish. unfold bind at 1. rewrite (Flush_not_ok r Hc Hs).
  unfold bind at 1. unfold gets at 1. unfold bind at 1. unfold assert at 1.
  rewrite (may_call_assert r Hc).
  destruct r; cbn in Hs. destruct status0 as [|c msg]; [discriminate|].
  destruct filter_block0; reflexivity.
Qed.

End NoOps.

Section Shapes.
Import TableBuilder BuilderLogic.
Variable env : Env.

Lemma bytes_appended_app (l l' : FileLog) :
  bytes_appended (l ++ l') = bytes_appended l + bytes_appended l'.
Proof.
  induction l as [|[[d|] [|c m]] l IH]; cbn [bytes_appended app]; lia.
Qed.

Lemma bytes_appended_nonneg (l : FileLog) : 0 <= bytes_appended l.
Proof.
  induction l as [|[[d|] [|c m]] l IH]; cbn [bytes_appended]; try lia.
  pose proof (size_nonneg d). lia.
Qed.

Lemma flush_calls_app (l l' : FileLog) : flush_calls (l ++ l') = flush_calls l ++ flush_calls l'.
Proof. apply filter_app. Qed.

(** [WriteRawBlock] always returns; [wrote] describes what it did. *)
Lemma WriteRawBlock_shape (contents : Slice) (type : CompressionType) (r : Rep) :
  exists f s o,
    WriteRawBlock contents type r =
      Done ({| handle_offset := offset r; handle_size := size contents |}, io r f s o) /\
    wrote r f s o.
Proof.
  rewrite WriteRawBlock_eq. unfold file_call. cbv beta iota zeta.
  set (s1 := respond (file r) (calls (file r)) (Append contents)).
  pose proof (size_nonneg contents) as Hsz.
  destruct (status_ok s1) eqn:E1; cbn [respond calls].
  - set (s2 := respond (file r) _ (Append (block_trailer contents type))).
    destruct (status_ok s2) eqn:E2.
    + eexists _, s2, _. split; [reflexivity|]. split; [reflexivity|].
      exists [(Append contents, s1); (Append (block_trailer contents type), s2)],
             (size contents + kBlockTrailerSize).
      cbn [calls]. rewrite <- app_assoc.
      destruct s1; [|discriminate]. destruct s2; [|discriminate].
      repeat split; try reflexivity; cbn -[size]; try discriminate;
        rewrite ?block_trailer_size; unfold kBlockTrailerSize; try lia.
      now right.
    + exists {| calls := (calls (file r) ++ [(Append contents, s1)]) ++
                         [(Append (block_trailer contents type), s2)];
                respond := respond (file r) |}, s2, (offset r).
      split; [now destruct r|]. split; [reflexivity|].
      exists [(Append contents, s1); (Append (block_trailer contents type), s2)], 0.
      cbn [calls]. rewrite <- app_assoc.
      destruct s1; [|discriminate].
      repeat split; try reflexivity; try congruence; try lia.
      * now left.
      * cbn -[size]. pose proof (bytes_appended_nonneg [(Append (block_trailer contents type), s2)]).
        cbn -[size] in H. destruct s2; lia.
  - exists {| calls := calls (file r) ++ [(Append contents, s1)];
              respond := respond (file r) |}, s1, (offset r).
    split; [now destruct r|]. split; [reflexivity|].
    exists [(Append contents, s1)], 0. cbn [calls].
    repeat split; try reflexivity; try congruence; try lia.
    + now left.
    + destruct s1; [discriminate|]. cbn. lia.
Qed.

Lemma WriteBlock_shape (block : BlockRef) (r : Rep) :
  status_ok (status r) = true ->
  exists h f s o,
    WriteBlock env block r = Done (h, after_WriteBlock block r h f s o) /\
    handle_offset h = offset r /\
    wrote r f s o.
Proof.
  intros Hok. rewrite (WriteBlock_eq env block r Hok). cbv zeta.
  destruct (choose_block_contents _ _ _) as [contents type].
  destruct (WriteRawBlock_shape contents type r) as (f & s & o & -> & Hw).
  eexists _, f, s, o. split; [destruct block; reflexivity|].
  split; [reflexivity|exact Hw].
Qed.

Lemma post_WriteBlock (block : BlockRef) (r : Rep) (Q : BlockHandle -> Rep -> Prop) :
  status_ok (status r) = true ->
  (forall h f s o, handle_offset h = offset r -> wrote r f s o ->
                   Q h (after_WriteBlock block r h f s o)) ->
  post (WriteBlock env block) r Q.
Proof.
  intros Hok HQ.
  destruct (WriteBlock_shape block r Hok) as (h & f & s & o & E & Hh & Hw).
  unfold post. rewrite E. now apply HQ.
Qed.

Lemma post_WriteRawBlock (contents : Slice) (type : CompressionType) (r : Rep)
  (Q : BlockHandle -> Rep -> Prop) :
  (forall h f s o, wrote r f s o -> Q h (io r f s o)) ->
  post (WriteRawBlock contents type) r Q.
Proof.
  intros HQ.
  destruct (WriteRawBlock_shape contents type r) as (f & s & o & E & Hw).
  unfold post. rewrite E. now apply HQ.
Qed.

End Shapes.

(** ** Sticky status, idempotent flush, options *)

Section Sticky.
Import TableBuilder BuilderLogic.
Variable env : Env.

Lemma same_table_refl (r : Rep) : same_table r r.
Proof. repeat split. Qed.

Lemma same_table_trans (r1 r2 r3 : Rep) :
  same_table r1 r2 -> same_table r2 r3 -> same_table r1 r3.
Proof.
  unfold same_table. intros H1 H2.
  repeat match goal with H : _ /\ _ |- _ => destruct H end.
  repeat split; congruence.
Qed.

Lemma may_call_or_not (r : Rep) :
  may_call env r \/ (ndebug env = false /\ closed r = true).
Proof.
  unfold may_call. destruct (ndebug env), (closed r); auto.
Qed.

Lemma Add_closed (key value : Slice) (r : Rep) :
  ndebug env = false -> closed r = true -> Add env key value r = Abort AssertionFailure.
Proof.
  intros Hn Hc. unfold Add, bind, gets, assert. cbv beta. now rewrite Hn, Hc.
Qed.

Lemma Abandon_closed (r : Rep) :
  ndebug env = false -> closed r = true -> Abandon env r = Abort AssertionFailure.
Proof.
  intros Hn Hc. unfold Abandon, bind, gets, assert. cbv beta. now rewrite Hn, Hc.
Qed.

Lemma Finish_closed {r : Rep} :
  ndebug env = false -> closed r = true -> Finish env r = Abort AssertionFailure.
Proof.
  intros Hn Hc. unfold Finish. unfold bind at 1. now rewrite Flush_closed.
Qed.

Lemma Abandon_eq (r : Rep) :
  may_call env r -> Abandon env r = Done (tt, set_closed true r).
Proof.
  intros Hc. unfold Abandon, bind, gets, assert. cbv beta.
  now rewrite (may_call_assert env r Hc).
Qed.

Lemma ChangeOptions_eq (o : Options) (r : Rep) :
  ChangeOptions o r =
  if N.eqb (comparator o) (comparator (options r)) then
    Done (OK, set_index_block_options (set_block_restart_interval 1 o) (set_options o r))
  else Done (InvalidArgument "changing comparator while building table", r).
Proof.
  unfold ChangeOptions, bind, get. cbv beta iota.
  destruct (N.eqb _ _); [now destruct r | reflexivity].
Qed.

Lemma ChangeOptions_same_table (o : Options) (r : Rep) st r' :
  ChangeOptions o r = Done (st, r') -> same_table r r'.
Proof.
  rewrite ChangeOptions_eq. destruct (N.eqb _ _); intros [= <- <-]; repeat split.
Qed.

(** Once the status is not OK, a call that returns changes nothing but the
    options and the [closed] flag. *)
Lemma step_not_ok (op : Op) (r r' : Rep) :
  status_ok (status r) = false ->
  step env op r = Done (tt, r') -> same_table r r'.
Proof.
  intros Hs.
  destruct op as [key value| |o| |]; cbn [step]; unfold bind.
  - destruct (may_call_or_not r) as [Hc|[Hn Hc]].
    + rewrite Add_not_ok by assumption. intros [= <-]. apply same_table_refl.
    + now rewrite Add_closed.
  - destruct (may_call_or_not r) as [Hc|[Hn Hc]].
    + rewrite Flush_not_ok by assumption. intros [= <-]. apply same_table_refl.
    + now rewrite Flush_closed.
  - destruct (ChangeOptions o r) as [[st r1]|] eqn:E; [|discriminate].
    intros [= <-]. eapply ChangeOptions_same_table; eassumption.
  - destruct (may_call_or_not r) as [Hc|[Hn Hc]].
    + rewrite Finish_not_ok by assumption. intros [= <-]. repeat split.
    + now rewrite Finish_closed.
  - destruct (may_call_or_not r) as [Hc|[Hn Hc]].
    + rewrite Abandon_eq by assumption. intros [= <-]. repeat split.
    + now rewrite Abandon_closed.
Qed.

Lemma run_not_ok (ops : list Op) (r r' : Rep) :
  status_ok (status r) = false ->
  run env ops r = Done (tt, r') -> same_table r r'.
Proof.
  revert r. induction ops as [|op ops IH]; intros r Hs; cbn [run].
  - intros [= <-]. apply same_table_refl.
  - unfold bind. destruct (step env op r) as [[[] r1]|] eqn:E; [|discriminate].
    intros Hrun. pose proof (step_not_ok op r r1 Hs E) as H1.
    apply (same_table_trans r r1 r'); [exact H1|]. apply IH; [|exact Hrun].
    destruct H1 as (_ & _ & -> & _). exact Hs.
Qed.

End Sticky.

Section StickyClaims.
Import TableBuilder BuilderLogic.

(** C4.  Once the status is not OK, [Add] and [Flush] return without
    changing anything in the builder (the file included), [Finish] returns that
    status, and no later sequence of calls changes the status, the file or any
    of the table state: [Finish] after them still returns the same first
    error. *)
Theorem non_ok_status_is_sticky :
  forall (env : Env) (r : Rep),
    status_ok (status r) = false ->
    may_call env r ->
    (forall key value, Add env key value r = Done (tt, r)) /\
    Flush env r = Done (tt, r) /\
    Finish env r = Done (status r, set_closed true r) /\
    (forall ops r1,
        run env ops r = Done (tt, r1) ->
        same_table r r1 /\
        forall st r2, Finish env r1 = Done (st, r2) -> st = status r /\ same_table r r2).
Proof.
  intros env r Hs Hc.
  split; [intros key value; now apply Add_not_ok|].
  split; [now apply Flush_not_ok|].
  split; [now apply Finish_not_ok|].
  intros ops r1 Hrun.
  pose proof (run_not_ok env ops r r1 Hs Hrun) as Hsame.
  split; [exact Hsame|].
  intros st r2 Hfin.
  assert (Hs1 : status_ok (status r1) = false).
  { destruct Hsame as (_ & _ & -> & _). exact Hs. }
  destruct (may_call_or_not env r1) as [Hc1|[Hn Hc1]].
  - rewrite Finish_not_ok in Hfin by assumption. injection Hfin as <- <-.
    split; [now destruct Hsame as (_ & _ & -> & _)|].
    apply (same_table_trans r r1); [exact Hsame|]. repeat split.
  - now rewrite (Finish_closed env Hn Hc1) in Hfin.
Qed.

(** A builder whose first append failed: [Add] changes nothing. *)
Lemma non_ok_status_is_sticky_witness :
  let env := example_env false in
  let r := after env [OpAdd (str "a") (str "1"); OpFlush]
             (NewTableBuilder (example_options 4096 kNoCompression None) (file_failing_at 0)) in
  status_ok (status r) = false /\ may_call env r /\
  Add env (str "b") (str "2") r = Done (tt, r) /\
  Finish env r = Done (IOError "disk full", set_closed true r).
Proof.
  intros env r.
  assert (H1 : status_ok (status r) = false) by (vm_compute; reflexivity).
  assert (H2 : may_call env r) by (right; vm_compute; reflexivity).
  destruct (non_ok_status_is_sticky env r H1 H2) as (HA & _ & HF & _).
  split; [exact H1|]. split; [exact H2|]. split; [apply HA|exact HF].
Defined.

End StickyClaims.

Section FlushShape.
Import TableBuilder BuilderLogic.
Variable env : Env.

(** A [Flush] that has a block to write either stops at an assertion or
    leaves [after_Flush]. *)
Lemma Flush_shape (r : Rep) :
  status_ok (status r) = true ->
  BlockBuilder_empty (data_block r) = false ->
  post (Flush env) r (fun _ r' =>
    (ndebug env = true \/ (closed r = false /\ pending_index_entry r = false)) /\
    exists h f s o,
      handle_offset h = offset r /\ wrote r f s o /\ r' = after_Flush r h f s o).
Proof.
  intros Hok Hne. unfold Flush.
  mlines. rewrite Hok. cbn [negb].
  mlines. rewrite Hne.
  mlines.
  apply post_WriteBlock; [exact Hok|]. intros h f s o Hh Hw.
  mlines.
  assert (Hasserts : ndebug env = true \/ (closed r = false /\ pending_index_entry r = false)).
  { destruct (ndebug env); [now left|right]. cbn in Hassert, Hassert0.
    split; [now destruct (closed r) | now destruct (pending_index_entry r)]. }
  assert (Hst : status (after_WriteBlock data_block_ref r h f s o) = s) by reflexivity.
  rewrite Hst.
  mstep.
  - msteps; (split; [exact Hasserts|]); exists h, f, s, o;
      (split; [exact Hh|split; [exact Hw|]]);
      unfold after_Flush, start_filter_block; rewrite Hwhen; cbn [file_call fst snd];
      cbn in Hopt; cbn; rewrite Hopt; reflexivity.
  - msteps; (split; [exact Hasserts|]); exists h, f, s, o;
      (split; [exact Hh|split; [exact Hw|]]);
      unfold after_Flush, start_filter_block; rewrite Hwhen;
      cbn in Hopt; cbn; rewrite Hopt; reflexivity.
Qed.

Ltac after_Flush_tac r s :=
  unfold after_Flush, start_filter_block;
  let E := fresh "E" in
  destruct (status_ok s); cbn; destruct (filter_block r) eqn:E; cbn; rewrite ?E;
  reflexivity.

Lemma after_Flush_data_block r h f s o :
  data_block (after_Flush r h f s o) = BlockBuilder_new.
Proof. after_Flush_tac r s. Qed.

Lemma after_Flush_closed r h f s o : closed (after_Flush r h f s o) = closed r.
Proof. after_Flush_tac r s. Qed.

Lemma after_Flush_file r h f s o :
  file (after_Flush r h f s o) = if status_ok s then snd (file_call FlushFile f) else f.
Proof. after_Flush_tac r s. Qed.

Lemma after_Flush_status r h f s o :
  status (after_Flush r h f s o) = if status_ok s then fst (file_call FlushFile f) else s.
Proof. after_Flush_tac r s. Qed.

Lemma after_Flush_offset r h f s o : offset (after_Flush r h f s o) = o.
Proof. after_Flush_tac r s. Qed.

Lemma after_Flush_pending r h f s o :
  pending_index_entry (after_Flush r h f s o) =
  if status_ok s then true else pending_index_entry r.
Proof. after_Flush_tac r s. Qed.

Lemma after_Flush_pending_handle r h f s o : pending_handle (after_Flush r h f s o) = h.
Proof. after_Flush_tac r s. Qed.

Lemma after_Flush_index_block r h f s o :
  index_block (after_Flush r h f s o) = index_block r.
Proof. after_Flush_tac r s. Qed.

Lemma after_Flush_options r h f s o : options (after_Flush r h f s o) = options r.
Proof. after_Flush_tac r s. Qed.

Lemma after_Flush_last_key r h f s o : last_key (after_Flush r h f s o) = last_key r.
Proof. after_Flush_tac r s. Qed.

Lemma after_Flush_written r h f s o :
  written (after_Flush r h f s o) =
  written r ++ [ {| w_kind := DataBlock; w_entries := entries (data_block r);
                    w_handle := h; w_status := s |} ].
Proof. after_Flush_tac r s. Qed.

Lemma after_Flush_filter_block r h f s o :
  filter_block (after_Flush r h f s o) =
  option_map (filter_call (StartBlock o)) (filter_block r).
Proof. after_Flush_tac r s. Qed.

End FlushShape.

Section FlushClaims.
Import TableBuilder BuilderLogic.

(** C6.  On an open builder with OK status and an empty data block [Flush]
    changes nothing: no byte is appended, no index entry added, and the offset,
    the pending flag and the rest of the state stay as they are.  Hence, from
    any state, [Flush] followed by [Flush] does what one [Flush] does. *)
Theorem Flush_is_idempotent :
  forall (env : Env) (r : Rep),
    (closed r = false -> status_ok (status r) = true ->
     BlockBuilder_empty (data_block r) = true ->
     Flush env r = Done (tt, r)) /\
    bind (Flush env) (fun _ => Flush env) r = Flush env r.
Proof.
  intros env r. split.
  - intros Hc _ He. apply Flush_empty; [now right|exact He].
  - unfold bind.
    destruct (Flush env r) as [[[] r']|why] eqn:E; [|reflexivity].
    destruct (may_call_or_not env r) as [Hc|[Hn Hc]];
      [|now rewrite Flush_closed in E].
    destruct (status_ok (status r)) eqn:Hok.
    + destruct (BlockBuilder_empty (data_block r)) eqn:He.
      * rewrite Flush_empty in E by assumption. injection E as <-.
        now apply Flush_empty.
      * pose proof (post_Done _ _ _ _ _ (Flush_shape env r Hok He) E)
          as (_ & h & f & s & o & _ & _ & ->).
        apply Flush_empty.
        -- unfold may_call in *. now rewrite after_Flush_closed.
        -- now rewrite after_Flush_data_block.
    + rewrite Flush_not_ok in E by assumption. injection E as <-.
      now apply Flush_not_ok.
Qed.

(** C7.  [ChangeOptions] with another comparator returns InvalidArgument
    and leaves the builder as it was; with the same comparator it returns OK,
    stores the new options, and stores them with restart interval 1 for the
    index block, as the constructor does. *)
Theorem ChangeOptions_guards_comparator :
  forall (new_options : Options) (r : Rep),
    (comparator new_options <> comparator (options r) ->
     exists msg, ChangeOptions new_options r = Done (InvalidArgument msg, r)) /\
    (comparator new_options = comparator (options r) ->
     exists r', ChangeOptions new_options r = Done (OK, r') /\
       options r' = new_options /\
       index_block_options r' = set_block_restart_interval 1 new_options /\
       block_restart_interval (index_block_options r') = 1 /\
       same_table r r' /\ closed r' = closed r) /\
    (forall f, index_block_options (NewTableBuilder new_options f)
               = set_block_restart_interval 1 new_options /\
               options (NewTableBuilder new_options f) = new_options).
Proof.
  intros o r. rewrite ChangeOptions_eq. split; [|split].
  - intros Hne. apply N.eqb_neq in Hne. rewrite Hne. eauto.
  - intros He. apply N.eqb_eq in He. rewrite He.
    eexists. split; [reflexivity|]. repeat split.
  - intros f. unfold NewTableBuilder, Rep_new. cbn.
    destruct (filter_policy o); split; reflexivity.
Qed.

End FlushClaims.

(** ** The offset and the bytes in the file *)

Section Advance.
Import TableBuilder BuilderLogic.
Variable env : Env.

Lemma advance_same_io (r r' : Rep) :
  file r' = file r -> offset r' = offset r -> status r' = status r -> advance r r'.
Proof.
  intros Hf Ho Hs. unfold advance, accepted. rewrite Hf, Ho, Hs.
  split; [auto|]. exists 0. repeat split; try lia. now left.
Qed.

Lemma advance_refl (r : Rep) : advance r r.
Proof. now apply advance_same_io. Qed.

Lemma moved_trans (o1 o2 o3 d1 d2 : Z) :
  moved o1 o2 d1 -> moved o2 o3 d2 -> moved o1 o3 (d1 + d2).
Proof.
  unfold moved. intros [[-> ->] | ->] [[-> ->] | ->].
  - now left.
  - right. now rewrite Z.add_0_l.
  - right. now rewrite Z.add_0_r.
  - right. unfold wrap64. rewrite Zplus_mod_idemp_l. f_equal. lia.
Qed.

Lemma advance_trans (r1 r2 r3 : Rep) : advance r1 r2 -> advance r2 r3 -> advance r1 r3.
Proof.
  intros (Hs1 & d1 & Hd1 & Hm1 & Hle1 & Heq1) (Hs2 & d2 & Hd2 & Hm2 & Hle2 & Heq2).
  split; [auto|]. exists (d1 + d2).
  split; [lia|]. split; [eapply moved_trans; eassumption|]. split; [lia|].
  intros H3. specialize (Heq2 H3). specialize (Heq1 (Hs2 H3)). lia.
Qed.

Lemma advance_of_wrote (r r' : Rep) f s o :
  status_ok (status r) = true -> wrote r f s o ->
  file r' = f -> status r' = s -> offset r' = o -> advance r r'.
Proof.
  intros Hok (_ & new & d & Hcalls & _ & Hd & Hm & Hle & Heq & _) Hf Hs Ho.
  unfold advance, accepted. rewrite Hf, Hs, Ho, Hcalls, bytes_appended_app.
  split; [auto|]. exists d. repeat split; try assumption; try lia.
  intros H. specialize (Heq H). lia.
Qed.

Lemma WriteRawBlock_advance contents type (r : Rep) :
  status_ok (status r) = true ->
  post (WriteRawBlock contents type) r (fun _ r' => advance r r').
Proof.
  intros Hok. apply post_WriteRawBlock. intros h f s o Hw.
  now apply (advance_of_wrote r _ f s o).
Qed.

Lemma WriteBlock_advance block (r : Rep) :
  status_ok (status r) = true ->
  post (WriteBlock env block) r (fun _ r' => advance r r').
Proof.
  intros Hok. apply post_WriteBlock; [exact Hok|]. intros h f s o _ Hw.
  apply (advance_of_wrote r _ f s o); try assumption; now destruct block.
Qed.

Lemma after_Flush_advance (r : Rep) h f s o :
  status_ok (status r) = true -> wrote r f s o -> advance r (after_Flush r h f s o).
Proof.
  intros Hok Hw.
  apply (advance_trans r (after_WriteBlock data_block_ref r h f s o)).
  - now apply (advance_of_wrote r _ f s o).
  - unfold advance, accepted.
    rewrite after_Flush_status, after_Flush_file, after_Flush_offset.
    replace (status (after_WriteBlock data_block_ref r h f s o)) with s by reflexivity.
    replace (file (after_WriteBlock data_block_ref r h f s o)) with f by reflexivity.
    replace (offset (after_WriteBlock data_block_ref r h f s o)) with o by reflexivity.
    destruct (status_ok s) eqn:Es.
    + split; [reflexivity|]. exists 0. cbn [file_call snd calls].
      rewrite bytes_appended_app. cbn [bytes_appended].
      (split; [lia|split; [now left|split; [lia|intros; lia]]]).
    + split; [cbn; congruence|]. exists 0.
      (split; [lia|split; [now left|split; [lia|intros; lia]]]).
Qed.

Lemma Flush_advance (r : Rep) : post (Flush env) r (fun _ r' => advance r r').
Proof.
  destruct (status_ok (status r)) eqn:Hok.
  - destruct (BlockBuilder_empty (data_block r)) eqn:He.
    + unfold Flush. mlines. rewrite Hok. cbn [negb]. mlines. rewrite He.
      mlines. apply advance_refl.
    + eapply post_weaken; [apply Flush_shape; assumption|].
      intros _ r' (_ & h & f & s & o & _ & Hw & ->). now apply after_Flush_advance.
  - unfold Flush. mlines. rewrite Hok. cbn [negb]. mlines. apply advance_refl.
Qed.

(** Follow a sub-call whose effect is an [advance], keeping only that. *)
Ltac advance_through lemma :=
  eapply post_weaken; [apply lemma; try assumption|];
  let a := fresh "a" in let r' := fresh "r" in let H := fresh "Hadv" in
  intros a r' H; cbv beta.

Lemma Add_advance key value : advancing (Add env key value).
Proof.
  intros r. unfold Add. msteps;
    try (apply advance_same_io; reflexivity);
    (eapply post_weaken; [apply Flush_advance|]);
    intros ? ? ?; cbv beta in *; (eapply advance_trans; [|eassumption]);
    apply advance_same_io; reflexivity.
Qed.

Lemma advancing_bind {A B} (m : M A) (k : A -> M B) :
  advancing m -> (forall a, advancing (k a)) -> advancing (bind m k).
Proof.
  intros Hm Hk r. apply post_bind.
  eapply post_weaken; [apply Hm|]. intros a r1 H1. cbv beta.
  eapply post_weaken; [apply Hk|]. intros b r2 H2. cbv beta in *.
  eapply advance_trans; eassumption.
Qed.

Lemma advancing_still {A} (m : M A) :
  (forall r, post m r (fun _ r' =>
     file r' = file r /\ offset r' = offset r /\ status r' = status r)) ->
  advancing m.
Proof.
  intros H r. eapply post_weaken; [apply H|].
  intros a r' (Hf & Ho & Hs). now apply advance_same_io.
Qed.

Lemma Finish_filter_block_advance : advancing (Finish_filter_block env).
Proof.
  intros r. unfold Finish_filter_block. msteps; try apply advance_refl.
  eapply post_weaken; [apply WriteRawBlock_advance; exact Hif|].
  intros h r' Hadv. cbv beta in *.
  eapply advance_trans; [|eassumption]. apply advance_same_io; reflexivity.
Qed.

Lemma Finish_metaindex_block_advance h : advancing (Finish_metaindex_block env h).
Proof.
  intros r. unfold Finish_metaindex_block. msteps; try apply advance_refl;
    apply WriteBlock_advance; assumption.
Qed.

Lemma Finish_index_block_advance : advancing (Finish_index_block env).
Proof.
  intros r. unfold Finish_index_block. msteps; try apply advance_refl.
  - eapply post_weaken; [apply WriteBlock_advance; exact Hif|].
    intros h r' Hadv. cbv beta in *.
    eapply advance_trans; [|eassumption]. apply advance_same_io; reflexivity.
  - apply WriteBlock_advance; assumption.
Qed.

Lemma Finish_footer_advance h1 h2 : advancing (Finish_footer env h1 h2).
Proof.
  intros r. unfold Finish_footer. msteps; try apply advance_refl.
  - (* the footer was appended *)
    unfold advance, accepted. cbn -[wrap64 bytes_appended size].
    rewrite bytes_appended_app.
    set (footer := Footer_EncodeTo env h1 h2) in *.
    set (s := respond (file r) (calls (file r)) (Append footer)) in *.
    cbn in Hwhen0. fold s in Hwhen0. destruct s; [|discriminate].
    split; [intros _; exact Hwhen|]. exists (size footer).
    pose proof (size_nonneg footer).
    cbn -[size wrap64]. split; [lia|]. split; [now right|]. split; [lia|intros; lia].
  - (* the append failed *)
    unfold advance, accepted. cbn -[wrap64 bytes_appended size].
    rewrite bytes_appended_app.
    set (footer := Footer_EncodeTo env h1 h2) in *.
    set (s := respond (file r) (calls (file r)) (Append footer)) in *.
    cbn in Hwhen0. fold s in Hwhen0. destruct s; [discriminate|].
    split; [discriminate|]. exists 0.
    cbn -[size wrap64]. split; [lia|]. split; [now left|]. split; [lia|discriminate].
Qed.

Lemma Finish_advance : advancing (Finish env).
Proof.
  unfold Finish.
  apply advancing_bind; [exact Flush_advance|intros _].
  apply advancing_bind; [apply advancing_still; intros r; now mlines|intros c].
  apply advancing_bind; [apply advancing_still; intros r; now mlines|intros _].
  apply advancing_bind; [apply advancing_still; intros r; now mlines|intros _].
  apply advancing_bind; [exact Finish_filter_block_advance|intros fh].
  apply advancing_bind; [apply Finish_metaindex_block_advance|intros mh].
  apply advancing_bind; [exact Finish_index_block_advance|intros ih].
  apply advancing_bind; [apply Finish_footer_advance|intros _].
  apply advancing_still; intros r; now mlines.
Qed.

Lemma step_advance op : advancing (step env op).
Proof.
  destruct op as [key value| |o| |]; cbn [step].
  - apply Add_advance.
  - exact Flush_advance.
  - apply advancing_bind; [|intros _; apply advancing_still; intros r; now mlines].
    intros r. unfold post. rewrite ChangeOptions_eq.
    destruct (N.eqb _ _); apply advance_same_io; reflexivity.
  - apply advancing_bind; [exact Finish_advance|].
    intros _; apply advancing_still; intros r; now mlines.
  - apply advancing_still. intros r. unfold Abandon. now mlines.
Qed.



End Advance.

Section OffsetClaims.
Import TableBuilder BuilderLogic.








End OffsetClaims.

(** ** The pending index entry *)

Section Pending.
Import TableBuilder BuilderLogic.
Variable env : Env.

Lemma preserves_bind {A B} (P : Rep -> Prop) (m : M A) (k : A -> M B) :
  preserves P m -> (forall a, preserves P (k a)) -> preserves P (bind m k).
Proof.
  intros Hm Hk r HP. apply post_bind.
  eapply post_weaken; [apply Hm; exact HP|]. intros a r1 H1. cbv beta.
  apply Hk. exact H1.
Qed.

(** A computation that leaves the data block and the pending flag alone
    keeps the invariant. *)
Lemma preserves_pending_frame {A} (m : M A) :
  (forall r, post m r (fun _ r' =>
     data_block r' = data_block r /\ pending_index_entry r' = pending_index_entry r)) ->
  preserves pending_only_if_empty m.
Proof.
  intros H r HP. eapply post_weaken; [apply H|].
  intros a r' (Hd & Hp). unfold pending_only_if_empty in *. now rewrite Hd, Hp.
Qed.

Lemma Flush_pending : preserves pending_only_if_empty (Flush env).
Proof.
  intros r HP.
  destruct (status_ok (status r)) eqn:Hok.
  - destruct (BlockBuilder_empty (data_block r)) eqn:He.
    + unfold Flush. mlines. rewrite Hok. cbn [negb]. mlines. rewrite He.
      mlines. exact HP.
    + eapply post_weaken; [apply Flush_shape; assumption|].
      intros _ r' (_ & h & f & s & o & _ & _ & ->) _.
      now rewrite after_Flush_data_block.
  - unfold Flush. mlines. rewrite Hok. cbn [negb]. mlines. exact HP.
Qed.

Lemma Add_pending key value : preserves pending_only_if_empty (Add env key value).
Proof.
  intros r HP. unfold Add. msteps; try exact HP;
    try (apply Flush_pending); intros Hp; cbn in Hp; congruence.
Qed.

Lemma Finish_filter_block_pending : preserves pending_only_if_empty (Finish_filter_block env).
Proof.
  apply preserves_pending_frame. intros r. unfold Finish_filter_block.
  msteps; try (split; reflexivity).
  apply post_WriteRawBlock. intros h' f' s' o' _. split; reflexivity.
Qed.

Lemma Finish_metaindex_block_pending h :
  preserves pending_only_if_empty (Finish_metaindex_block env h).
Proof.
  apply preserves_pending_frame. intros r. unfold Finish_metaindex_block.
  msteps; try (split; reflexivity);
    (apply post_WriteBlock; [assumption|]); intros; split; reflexivity.
Qed.

Lemma Finish_index_block_pending : preserves pending_only_if_empty (Finish_index_block env).
Proof.
  intros r HP. unfold Finish_index_block. msteps; try exact HP.
  - apply post_WriteBlock; [exact Hif|]. intros h' f' s' o' _ _ Hp. cbn in Hp. discriminate.
  - apply post_WriteBlock; [exact Hif|]. intros h' f' s' o' _ _. exact HP.
Qed.

Lemma Finish_footer_pending h1 h2 :
  preserves pending_only_if_empty (Finish_footer env h1 h2).
Proof.
  apply preserves_pending_frame. intros r. unfold Finish_footer.
  msteps; split; reflexivity.
Qed.

Lemma Finish_pending : preserves pending_only_if_empty (Finish env).
Proof.
  unfold Finish.
  apply preserves_bind; [exact Flush_pending|intros _].
  apply preserves_bind; [apply preserves_pending_frame; intros r; now mlines|intros c].
  apply preserves_bind; [apply preserves_pending_frame; intros r; now mlines|intros _].
  apply preserves_bind; [apply preserves_pending_frame; intros r; now mlines|intros _].
  apply preserves_bind; [exact Finish_filter_block_pending|intros fh].
  apply preserves_bind; [apply Finish_metaindex_block_pending|intros mh].
  apply preserves_bind; [exact Finish_index_block_pending|intros ih].
  apply preserves_bind; [apply Finish_footer_pending|intros _].
  apply preserves_pending_frame; intros r; now mlines.
Qed.

Lemma step_pending op : preserves pending_only_if_empty (step env op).
Proof.
  destruct op as [key value| |o| |]; cbn [step].
  - apply Add_pending.
  - exact Flush_pending.
  - apply preserves_pending_frame. intros r. apply post_bind.
    unfold post at 1. rewrite ChangeOptions_eq.
    destruct (N.eqb _ _); split; reflexivity.
  - apply preserves_bind; [exact Finish_pending|].
    intros _. apply preserves_pending_frame; intros r; now mlines.
  - apply preserves_pending_frame. intros r. unfold Abandon. now mlines.
Qed.

Lemma run_pending ops : preserves pending_only_if_empty (run env ops).
Proof.
  induction ops as [|op ops IH]; cbn [run].
  - intros r HP. exact HP.
  - apply preserves_bind; [apply step_pending|intros _; exact IH].
Qed.

Lemma NewTableBuilder_pending opt f : pending_only_if_empty (NewTableBuilder opt f).
Proof.
  unfold pending_only_if_empty, NewTableBuilder, Rep_new. now destruct (filter_policy opt).
Qed.

(** [Flush], once its data block went through [WriteBlock]. *)
Lemma Flush_after_WriteBlock (r : Rep) h r1 :
  may_call env r ->
  status_ok (status r) = true ->
  BlockBuilder_empty (data_block r) = false ->
  pending_index_entry r = false ->
  WriteBlock env data_block_ref r = Done (h, r1) ->
  Flush env r =
  Done (tt, start_filter_block
              (if status_ok (status r1) then
                 set_status (fst (file_call FlushFile (file r1)))
                   (set_file (snd (file_call FlushFile (file r1)))
                      (set_pending_index_entry true (set_pending_handle h r1)))
               else set_pending_handle h r1)).
Proof.
  intros Hc Hok Hne Hp HW.
  unfold Flush. unfold bind at 1. unfold gets at 1. unfold bind at 1. unfold assert at 1.
  rewrite (may_call_assert env r Hc).
  unfold bind at 1. unfold ok at 1, gets at 1. rewrite Hok. cbn [negb].
  unfold bind at 1. unfold gets at 1. rewrite Hne.
  unfold bind at 1. unfold gets at 1. unfold bind at 1. unfold assert at 1.
  rewrite Hp, orb_true_r.
  unfold bind at 1. rewrite HW.
  unfold bind, modify, ok, gets, when, file_Flush, get, ret, start_filter_block.
  destruct r1; cbn.
  destruct (status_ok status0); cbn; destruct filter_block0; reflexivity.
Qed.

End Pending.

Section FailedFlush.
Import TableBuilder BuilderLogic.

(** C10.  Take a builder reached by any sequence of calls, with OK status
    and a non-empty data block, and suppose the block write of [Flush] fails.
    Then [Flush] returns with [pending_index_entry] still false, without having
    called the file's [Flush], and with the offset where it was; a filter
    encoder, if present, is still told [StartBlock] with that offset, the
    current one, as every flush that writes a block tells it; and no later
    sequence of calls adds an index entry or sets the pending flag. *)
Theorem failed_block_write_leaves_no_index_entry :
  forall (env : Env) (opt : Options) (f : WritableFile) (ops : list Op)
         (r : Rep) (h : BlockHandle) (r1 : Rep),
    run env ops (NewTableBuilder opt f) = Done (tt, r) ->
    may_call env r ->
    status_ok (status r) = true ->
    BlockBuilder_empty (data_block r) = false ->
    WriteBlock env data_block_ref r = Done (h, r1) ->
    status_ok (status r1) = false ->
    exists r',
      Flush env r = Done (tt, r') /\
      pending_index_entry r = false /\
      pending_index_entry r' = false /\
      status_ok (status r') = false /\
      flush_calls (calls (file r')) = flush_calls (calls (file r)) /\
      offset r' = offset r /\
      filter_block r' = option_map (filter_call (StartBlock (offset r))) (filter_block r) /\
      index_block r' = index_block r /\
      (forall ops' r'',
          run env ops' r' = Done (tt, r'') ->
          index_block r'' = index_block r /\ pending_index_entry r'' = false /\
          written r'' = written r') /\
      (forall r2 r2',
          status_ok (status r2) = true -> BlockBuilder_empty (data_block r2) = false ->
          Flush env r2 = Done (tt, r2') ->
          filter_block r2' =
            option_map (filter_call (StartBlock (offset r2'))) (filter_block r2)).
Proof.
  intros env opt f ops r h r1 Hrun Hc Hok Hne HW Hfail.
  assert (Hinv : pending_only_if_empty r).
  { exact (post_Done _ _ _ _ _
             (run_pending env ops _ (NewTableBuilder_pending opt f)) Hrun). }
  assert (Hp : pending_index_entry r = false).
  { destruct (pending_index_entry r) eqn:E; [|reflexivity].
    specialize (Hinv E). congruence. }
  rewrite (Flush_after_WriteBlock env r h r1 Hc Hok Hne Hp HW), Hfail.
  destruct (WriteBlock_shape env data_block_ref r Hok)
    as (h' & f' & s & o & HW' & _ & Hwrote).
  rewrite HW in HW'. injection HW' as <- ->.
  assert (Hs : status_ok s = false) by exact Hfail.
  destruct Hwrote as (_ & new & d & Hcalls & Hnoflush & _ & _ & _ & _ & Hoff).
  specialize (Hoff Hs). subst o.
  eexists. split; [reflexivity|].
  set (r' := start_filter_block _).
  assert (Hr' : pending_index_entry r' = false /\ status_ok (status r') = false /\
                file r' = f' /\ offset r' = offset r /\
                filter_block r' = option_map (filter_call (StartBlock (offset r))) (filter_block r) /\
                index_block r' = index_block r).
  { unfold r', start_filter_block. cbn. destruct (filter_block r) eqn:Ef; cbn;
      rewrite ?Ef; repeat split; assumption. }
  destruct Hr' as (Hp' & Hs' & Hf' & Ho' & Hfb' & Hib').
  split; [exact Hp|]. split; [exact Hp'|]. split; [exact Hs'|].
  split; [now rewrite Hf', Hcalls, flush_calls_app, Hnoflush, app_nil_r|].
  split; [exact Ho'|]. split; [exact Hfb'|]. split; [exact Hib'|].
  split.
  - intros ops' r'' Hrun'.
    destruct (run_not_ok env ops' r' r'' Hs' Hrun')
      as (_ & _ & _ & _ & -> & _ & _ & _ & -> & _ & _ & ->).
    auto.
  - intros r2 r2' Hok2 Hne2 HF2.
    pose proof (post_Done _ _ _ _ _ (Flush_shape env r2 Hok2 Hne2) HF2)
      as (_ & h2 & f2 & s2 & o2 & _ & _ & ->).
    now rewrite after_Flush_filter_block, after_Flush_offset.
Qed.

(** One pair in the data block, a filter configured, and a file whose first
    append fails. *)
Lemma failed_block_write_leaves_no_index_entry_witness :
  let env := example_env false in
  let r0 := NewTableBuilder (example_options 4096 kNoCompression (Some 7%N))
              (file_failing_at 0) in
  let ops := [OpAdd (str "a") (str "1")] in
  let r := after env ops r0 in
  run env ops r0 = Done (tt, r) /\
  exists r', Flush env r = Done (tt, r') /\
    pending_index_entry r' = false /\
    filter_block r' =
      Some {| policy := 7%N;
              filter_calls := [StartBlock 0; AddKey (str "a"); StartBlock 0] |}.
Proof.
  intros env r0 ops r.
  assert (Hrun : run env ops r0 = Done (tt, r)) by (vm_compute; reflexivity).
  split; [exact Hrun|].
  destruct (WriteBlock env data_block_ref r) as [[h r1]|] eqn:HW;
    [|vm_compute in HW; discriminate].
  assert (Hfail : status_ok (status r1) = false).
  { vm_compute in HW. injection HW as _ <-. reflexivity. }
  destruct (failed_block_write_leaves_no_index_entry env _ _ ops r h r1 Hrun
              (or_intror eq_refl) eq_refl eq_refl HW Hfail)
    as (r' & HF & _ & Hp & _ & _ & _ & Hfb & _).
  exists r'. split; [exact HF|]. split; [exact Hp|]. rewrite Hfb. reflexivity.
Defined.

End FailedFlush.

(** ** One index entry per data block *)

Section Filling.
Import TableBuilder BuilderLogic.
Variable env : Env.
Variable c0 : ptr.

Lemma entries_Add o key value b :
  entries (BlockBuilder_Add o key value b) = entries b ++ [(key, value)].
Proof. unfold entries, BlockBuilder_Add. cbn. now rewrite map_app. Qed.

Lemma BlockBuilder_Add_not_empty o key value b :
  BlockBuilder_empty (BlockBuilder_Add o key value b) = false.
Proof. unfold BlockBuilder_empty, BlockBuilder_Add. cbn. now destruct (added b). Qed.

Lemma handles_of_app ws ws' : handles_of (ws ++ ws') = handles_of ws ++ handles_of ws'.
Proof. apply map_app. Qed.

Lemma NewTableBuilder_filling opt f :
  comparator opt = c0 -> filling env c0 (NewTableBuilder opt f).
Proof.
  intros Hc. unfold NewTableBuilder, Rep_new.
  destruct (filter_policy opt); constructor; cbn; auto; try discriminate; congruence.
Qed.

(** The state after the part of [Add] that precedes its [Flush]. *)
Lemma filling_after_Add_prefix (r r1 : Rep) :
  filling env c0 r -> status_ok (status r) = true ->
  closed r1 = closed r -> options r1 = options r -> status r1 = status r ->
  written r1 = written r -> pending_index_entry r1 = false ->
  BlockBuilder_empty (data_block r1) = false ->
  (if pending_index_entry r
   then exists key,
       entries (index_block r1) =
       entries (index_block r) ++
         [(FindShortestSeparator (comparator_at env c0) (last_key r) key,
           EncodeTo (pending_handle r))]
   else index_block r1 = index_block r) ->
  filling env c0 r1.
Proof.
  intros [Ho Hc Hp Hd Hwo Hs Hh Hl] Hok Hcl Hopt Hst Hw Hp1 Hne Hidx.
  constructor.
  - congruence.
  - congruence.
  - intros E. congruence.
  - now rewrite Hw.
  - intros _. rewrite Hw. now apply Hwo.
  - destruct (pending_index_entry r).
    + destruct Hidx as (key & ->). apply Forall_app. split; [exact Hs|].
      constructor; [|constructor]. cbn. eauto.
    + now rewrite Hidx.
  - intros _. rewrite Hp1, Hw, app_nil_r. rewrite <- (Hh Hok).
    destruct (pending_index_entry r).
    + destruct Hidx as (key & ->). now rewrite map_app.
    + now rewrite Hidx, app_nil_r.
  - intros _ _ E. congruence.
Qed.

Lemma filling_after_Flush (r : Rep) h f s o :
  filling env c0 r -> status_ok (status r) = true ->
  BlockBuilder_empty (data_block r) = false ->
  filling env c0 (after_Flush r h f s o).
Proof.
  intros [Ho Hc Hp Hd Hwo Hs Hh Hl] Hok Hne.
  assert (Hp0 : pending_index_entry r = false).
  { destruct (pending_index_entry r) eqn:E; [|reflexivity].
    specialize (Hp E). congruence. }
  constructor.
  - now rewrite after_Flush_closed.
  - now rewrite after_Flush_options.
  - intros _. now rewrite after_Flush_data_block.
  - rewrite after_Flush_written. apply Forall_app. split; [exact Hd|].
    constructor; [reflexivity|constructor].
  - rewrite after_Flush_status, after_Flush_written.
    destruct (status_ok s) eqn:Es; [|congruence].
    intros _. apply Forall_app. split; [now apply Hwo|].
    constructor; [exact Es|constructor].
  - now rewrite after_Flush_index_block.
  - rewrite after_Flush_status, after_Flush_pending, after_Flush_index_block,
      after_Flush_written, after_Flush_pending_handle, handles_of_app.
    destruct (status_ok s) eqn:Es; [|congruence].
    intros _. specialize (Hh Hok). rewrite Hp0, app_nil_r in Hh. now rewrite Hh.
  - rewrite after_Flush_status, after_Flush_pending.
    destruct (status_ok s) eqn:Es; [reflexivity|congruence].
Qed.

Lemma Flush_filling : preserves (filling env c0) (Flush env).
Proof.
  intros r HP.
  destruct (status_ok (status r)) eqn:Hok.
  - destruct (BlockBuilder_empty (data_block r)) eqn:He.
    + unfold Flush. mlines. rewrite Hok. cbn [negb]. mlines. rewrite He.
      mlines. exact HP.
    + eapply post_weaken; [apply Flush_shape; assumption|].
      intros _ r' (_ & h & f & s & o & _ & _ & ->).
      now apply filling_after_Flush.
  - unfold Flush. mlines. rewrite Hok. cbn [negb]. mlines. exact HP.
Qed.

Lemma Add_filling key value : preserves (filling env c0) (Add env key value).
Proof.
  intros r HP. unfold Add. mlines. mstep; [mlines; exact HP|].
  assert (Hok : status_ok (status r) = true) by now destruct (status_ok (status r)).
  assert (Hcmp : the_comparator env r = comparator_at env c0).
  { unfold the_comparator. now rewrite (fill_comparator _ _ _ HP). }
  msteps; try apply Flush_filling;
    apply (filling_after_Add_prefix r);
    first
      [ exact HP | exact Hok | reflexivity | (cbn; assumption)
      | apply BlockBuilder_Add_not_empty
      | rsimpl;
        match goal with H : pending_index_entry r = _ |- _ => rewrite H end;
        first [ reflexivity | exists key; rewrite entries_Add, Hcmp; reflexivity ] ].
Qed.

Lemma ChangeOptions_filling o : preserves (filling env c0) (ChangeOptions o).
Proof.
  intros r [Ho Hc Hp Hd Hs Hh Hl]. unfold post. rewrite ChangeOptions_eq.
  destruct (N.eqb _ _) eqn:E; [|now constructor].
  apply N.eqb_eq in E. constructor; cbn; auto. congruence.
Qed.

Lemma run_filling ops :
  forallb building ops = true -> preserves (filling env c0) (run env ops).
Proof.
  induction ops as [|op ops IH]; cbn [run forallb]; intros Hb.
  - intros r HP. exact HP.
  - apply andb_prop in Hb. destruct Hb as [Hop Hops].
    apply preserves_bind; [|intros _; now apply IH].
    destruct op; cbn [step]; try discriminate.
    + apply Add_filling.
    + exact Flush_filling.
    + apply preserves_bind; [apply ChangeOptions_filling|].
      intros _ r HP. exact HP.
Qed.

End Filling.

Section FinishIndex.
Import TableBuilder BuilderLogic.
Variable env : Env.

Lemma index_frame_refl r : index_frame r r.
Proof. repeat split. Qed.

Lemma index_frame_trans r1 r2 r3 :
  index_frame r1 r2 -> index_frame r2 r3 -> index_frame r1 r3.
Proof.
  unfold index_frame. intros H1 H2.
  repeat match goal with H : _ /\ _ |- _ => destruct H end.
  repeat split; congruence.
Qed.

(** The steps of a [Finish] that returned. *)
Lemma Finish_inv (r r' : Rep) st :
  Finish env r = Done (st, r') ->
  exists r1 fh r3 mh r4 ih r5,
    Flush env r = Done (tt, r1) /\
    Finish_filter_block env (set_closed true r1) = Done (fh, r3) /\
    Finish_metaindex_block env fh r3 = Done (mh, r4) /\
    Finish_index_block env r4 = Done (ih, r5) /\
    Finish_footer env mh ih r5 = Done (tt, r') /\
    st = status r'.
Proof.
  unfold Finish. unfold bind at 1.
  destruct (Flush env r) as [[[] r1]|] eqn:E1; [|discriminate].
  unfold bind at 1. unfold gets at 1. unfold bind at 1. unfold assert at 1.
  destruct (ndebug env || negb (closed r1)); [|discriminate].
  unfold bind at 1. unfold modify at 1. unfold bind at 1.
  destruct (Finish_filter_block env (set_closed true r1)) as [[fh r3]|] eqn:E3;
    [|discriminate].
  unfold bind at 1.
  destruct (Finish_metaindex_block env fh r3) as [[mh r4]|] eqn:E4; [|discriminate].
  unfold bind at 1.
  destruct (Finish_index_block env r4) as [[ih r5]|] eqn:E5; [|discriminate].
  unfold bind at 1.
  destruct (Finish_footer env mh ih r5) as [[[] r6]|] eqn:E6; [|discriminate].
  unfold gets. intros [= <- <-].
  exists r1, fh, r3, mh, r4, ih, r5. repeat split; assumption.
Qed.

Lemma Flush_index_frame (r : Rep) :
  post (Flush env) r (fun _ r' =>
    index_block r' = index_block r /\ last_key r' = last_key r /\
    (status_ok (status r') = true -> BlockBuilder_empty (data_block r') = true)).
Proof.
  destruct (status_ok (status r)) eqn:Hok.
  - destruct (BlockBuilder_empty (data_block r)) eqn:He.
    + unfold Flush. mlines. rewrite Hok. cbn [negb]. mlines. rewrite He.
      mlines. auto.
    + eapply post_weaken; [apply Flush_shape; assumption|].
      intros _ r' (_ & h & f & s & o & _ & _ & ->).
      rewrite after_Flush_index_block, after_Flush_last_key, after_Flush_data_block.
      auto.
  - unfold Flush. mlines. rewrite Hok. cbn [negb]. mlines.
    split; [reflexivity|]. split; [reflexivity|]. congruence.
Qed.

Lemma Finish_filter_block_frame (r : Rep) :
  post (Finish_filter_block env) r (fun _ r' => index_frame r r' /\ written r' = written r).
Proof.
  unfold Finish_filter_block. msteps; try (split; [apply index_frame_refl|reflexivity]).
  apply post_WriteRawBlock. intros h' f' s' o' _. split; [|reflexivity]. repeat split.
Qed.

Lemma Finish_metaindex_block_frame h (r : Rep) :
  status_ok (status r) = true ->
  post (Finish_metaindex_block env h) r (fun _ r' =>
    index_frame r r' /\
    exists w, w_kind w = MetaIndexBlock /\ written r' = written r ++ [w]).
Proof.
  intros Hok. unfold Finish_metaindex_block. mlines. rewrite Hok.
  msteps; (apply post_WriteBlock; [exact Hok|]); intros h' f' s' o' _ _;
    (split; [repeat split|]); eexists; (split; [|reflexivity]); reflexivity.
Qed.

Lemma Finish_index_block_frame (r : Rep) :
  status_ok (status r) = true ->
  post (Finish_index_block env) r (fun h r' =>
    written r' =
    written r ++
      [ {| w_kind := IndexBlock;
           w_entries :=
             entries (index_block r) ++
               (if pending_index_entry r
                then [(FindShortSuccessor (the_comparator env r) (last_key r),
                       EncodeTo (pending_handle r))]
                else []);
           w_handle := h; w_status := status r' |} ]).
Proof.
  intros Hok. unfold Finish_index_block. mlines. rewrite Hok. msteps.
  - apply post_WriteBlock; [exact Hok|]. intros h' f' s' o' _ _.
    unfold after_WriteBlock. cbn. rewrite Hwhen. unfold entries. cbn.
    now rewrite map_app.
  - apply post_WriteBlock; [exact Hok|]. intros h' f' s' o' _ _.
    unfold after_WriteBlock. cbn. rewrite Hwhen. now rewrite app_nil_r.
Qed.

Lemma Finish_footer_frame h1 h2 (r : Rep) :
  post (Finish_footer env h1 h2) r (fun _ r' => written r' = written r).
Proof. unfold Finish_footer. msteps; reflexivity. Qed.

Lemma written_of_data ws wm wi r :
  Forall (fun w => w_kind w = DataBlock) ws ->
  w_kind wm = MetaIndexBlock -> w_kind wi = IndexBlock ->
  written r = (ws ++ [wm]) ++ [wi] ->
  written_of DataBlock r = ws /\ written_of IndexBlock r = [wi].
Proof.
  intros Hws Hm Hi Hr. unfold written_of. rewrite Hr, !filter_app. cbn [filter].
  rewrite Hm, Hi. rewrite !app_nil_r. clear Hr. split.
  - induction Hws as [|w ws Hw _ IH]; [reflexivity|]. cbn. rewrite Hw. cbn.
    now rewrite IH.
  - induction Hws as [|w ws Hw _ IH]; [reflexivity|]. cbn. rewrite Hw. exact IH.
Qed.

End FinishIndex.

Section IndexClaim.
Import TableBuilder BuilderLogic.

(** C5.  Fill a table through [Add], [Flush] and [ChangeOptions] and let
    [Finish] return OK.  Then [Finish] wrote one index block, and it holds as
    many entries as data blocks were written, the entry of each block carrying
    that block's handle, in order.  With no data block the index is empty.
    Otherwise all entries but the last are those [Add] put in the index block
    before [Finish] was called, each under a [FindShortestSeparator] key, and
    the last is the one [Finish] adds for the final block, under
    [FindShortSuccessor] of the last key. *)
Theorem one_index_entry_per_data_block :
  forall (env : Env) (opt : Options) (f : WritableFile) (ops : list Op)
         (r : Rep) (st : Status) (r' : Rep),
    forallb building ops = true ->
    run env ops (NewTableBuilder opt f) = Done (tt, r) ->
    Finish env r = Done (st, r') ->
    status_ok st = true ->
    let cmp := comparator_at env (comparator opt) in
    let data := written_of DataBlock r' in
    exists index,
      written_of IndexBlock r' = [index] /\
      Forall (fun w => status_ok (w_status w) = true) data /\
      List.length (w_entries index) = List.length data /\
      map snd (w_entries index) = handles_of data /\
      (data = [] -> w_entries index = []) /\
      (forall init last,
          data = init ++ [last] ->
          w_entries index =
            entries (index_block r) ++
              [(FindShortSuccessor cmp (last_key r), EncodeTo (w_handle last))] /\
          List.length (entries (index_block r)) = List.length init /\
          Forall (fun e => exists a b, fst e = FindShortestSeparator cmp a b)
            (entries (index_block r))).
Proof.
  intros env opt f ops r st r' Hb Hrun Hfin Hst cmp data.
  pose proof (post_Done _ _ _ _ _
                (run_filling env (comparator opt) ops Hb _
                   (NewTableBuilder_filling env (comparator opt) opt f eq_refl)) Hrun)
    as Hfill.
  destruct (Finish_inv env r r' st Hfin)
    as (r1 & fh & r3 & mh & r4 & ih & r5 & E1 & E3 & E4 & E5 & E6 & ->).
  (* the status was OK all along *)
  pose proof (proj1 (post_Done _ _ _ _ _ (Finish_footer_advance env mh ih r5) E6) Hst) as Hok5.
  pose proof (proj1 (post_Done _ _ _ _ _ (Finish_index_block_advance env r4) E5) Hok5) as Hok4.
  pose proof (proj1 (post_Done _ _ _ _ _ (Finish_metaindex_block_advance env fh r3) E4) Hok4)
    as Hok3.
  pose proof (proj1 (post_Done _ _ _ _ _
                       (Finish_filter_block_advance env (set_closed true r1)) E3) Hok3)
    as Hok1.
  change (status_ok (status r1) = true) in Hok1.
  (* what each step did to the index block and to the write history *)
  pose proof (post_Done _ _ _ _ _ (Flush_filling env (comparator opt) r Hfill) E1) as Hfill1.
  pose proof (post_Done _ _ _ _ _ (Flush_index_frame env r) E1) as (Hidx1 & Hkey1 & Hempty1).
  specialize (Hempty1 Hok1).
  pose proof (post_Done _ _ _ _ _ (Finish_filter_block_frame env _) E3) as (Hfr3 & Hw3).
  pose proof (post_Done _ _ _ _ _ (Finish_metaindex_block_frame env fh r3 Hok3) E4)
    as (Hfr4 & wm & Hwm & Hw4).
  pose proof (post_Done _ _ _ _ _ (Finish_index_block_frame env r4 Hok4) E5) as Hw5.
  pose proof (post_Done _ _ _ _ _ (Finish_footer_frame env mh ih r5) E6) as Hw6.
  pose proof (index_frame_trans _ _ _ Hfr3 Hfr4)
    as (Hib & Hlk & Hpe & Hph & Hop & _).
  cbn [set_closed index_block last_key pending_index_entry pending_handle options]
    in Hib, Hlk, Hpe, Hph, Hop.
  cbn [set_closed written] in Hw3.
  destruct Hfill1 as [_ Hc1 _ Hd1 Hwo1 Hs1 Hh1 Hl1].
  specialize (Hh1 Hok1). specialize (Hwo1 Hok1).
  assert (Hcmp : the_comparator env r4 = cmp).
  { unfold the_comparator, cmp. now rewrite Hop, Hc1. }
  rewrite Hib, Hlk, Hpe, Hph, Hcmp, Hidx1, Hkey1 in Hw5.
  rewrite Hw4, Hw3 in Hw5. rewrite <- Hw6 in Hw5.
  rewrite Hidx1 in Hh1, Hs1.
  match type of Hw5 with _ = _ ++ [?w] => set (index := w) in * end.
  destruct (written_of_data (written r1) wm index r' Hd1 Hwm eq_refl Hw5) as [Hdata Hindex].
  fold data in Hdata. rewrite <- Hdata in *.
  exists index. split; [exact Hindex|]. split; [exact Hwo1|].
  assert (Hmap : map snd (w_entries index) = handles_of data).
  { unfold index. cbn [w_entries]. rewrite map_app, <- Hh1.
    now destruct (pending_index_entry r1). }
  split; [|split; [exact Hmap|split]].
  - pose proof (f_equal (@List.length _) Hmap) as Hlen. unfold handles_of in Hlen.
    rewrite !length_map in Hlen. exact Hlen.
  - intros Hnil. rewrite Hnil in Hmap. cbn in Hmap.
    now apply map_eq_nil in Hmap.
  - intros init last Hlast.
    assert (Hp : pending_index_entry r1 = true).
    { apply Hl1; [exact Hok1| |exact Hempty1]. rewrite Hlast. now destruct init. }
    rewrite Hp in Hh1. rewrite Hlast, handles_of_app in Hh1. cbn [handles_of map] in Hh1.
    apply app_inj_tail in Hh1. destruct Hh1 as [Hinit Hh].
    unfold index. cbn [w_entries]. rewrite Hp, Hh.
    split; [reflexivity|]. split; [|exact Hs1].
    pose proof (f_equal (@List.length _) Hinit) as Hlen. unfold handles_of in Hlen.
    rewrite !length_map in Hlen. exact Hlen.
Qed.

(** Three pairs in blocks of one pair each: three data blocks, three index
    entries. *)
Lemma one_index_entry_per_data_block_witness :
  let env := example_env false in
  let r0 := NewTableBuilder (example_options 1 kNoCompression None) reliable_file in
  let ops := [OpAdd (str "aa") (str "x"); OpAdd (str "ab") (str "y");
              OpAdd (str "ac") (str "z")] in
  let r := after env ops r0 in
  let r' := after env [OpFinish] r in
  forallb building ops = true /\
  run env ops r0 = Done (tt, r) /\
  Finish env r = Done (OK, r') /\
  exists index,
    written_of IndexBlock r' = [index] /\
    List.length (w_entries index) = 3%nat /\
    map fst (w_entries index) = [str "aa"; str "ab"; str "ac"].
Proof.
  intros env r0 ops r r'.
  assert (Hb : forallb building ops = true) by reflexivity.
  assert (Hrun : run env ops r0 = Done (tt, r)) by (vm_compute; reflexivity).
  assert (Hfin : Finish env r = Done (OK, r')) by (vm_compute; reflexivity).
  split; [exact Hb|]. split; [exact Hrun|]. split; [exact Hfin|].
  destruct (one_index_entry_per_data_block env _ _ ops r OK r' Hb Hrun Hfin eq_refl)
    as (index & Hindex & _ & Hlen & _).
  exists index. split; [exact Hindex|].
  vm_compute in Hindex. injection Hindex as <-.
  split; vm_compute; reflexivity.
Defined.

End IndexClaim.

(* ------------------------------------------------------------------ *)
(** ** The two-level iterator *)
(* ------------------------------------------------------------------ *)

Section IteratorStatus.
Import TwoLevelIterator.
Context {II DI : Type} {index_ops : Iterator II} {data_ops : Iterator DI}.

(** C8.  [status()] is the index iterator's status if that is not OK;
    otherwise the status of the data iterator, when there is one and its status
    is not OK; otherwise the iterator's own saved status.  So it is OK only
    when all three are.  The saved status is the first error of a data iterator
    that was dropped: [SetDataIterator] saves the status of the outgoing
    iterator, and [SaveError] keeps an error already saved. *)
Theorem status_is_first_error :
  forall (t : TwoLevelIterator II DI),
    let index_status := it_status (index_iter_ t) in
    (status_ok index_status = false -> status t = index_status) /\
    (forall d, status_ok index_status = true -> data_iter_ t = Some d ->
               status_ok (it_status d) = false -> status t = it_status d) /\
    (status_ok index_status = true ->
     (forall d, data_iter_ t = Some d -> status_ok (it_status d) = true) ->
     status t = status_ t) /\
    (status_ok (status t) = true <->
     status_ok index_status = true /\
     (forall d, data_iter_ t = Some d -> status_ok (it_status d) = true) /\
     status_ok (status_ t) = true) /\
    (forall s, status_ (SaveError s t) =
               if status_ok (status_ t) then (if status_ok s then status_ t else s)
               else status_ t) /\
    (forall new_iter,
        status_ (SetDataIterator new_iter t) =
        match data_iter_ t with
        | Some d => status_ (SaveError (it_status d) t)
        | None => status_ t
        end).
Proof.
  intros t index_status. unfold status. fold index_status.
  split; [|split; [|split; [|split; [|split]]]].
  - intros ->. reflexivity.
  - intros d -> -> ->. reflexivity.
  - intros -> Hd. cbn. destruct (data_iter_ t) as [d|]; [|reflexivity].
    now rewrite (Hd d eq_refl).
  - destruct (status_ok index_status) eqn:Ei; cbn [negb].
    + destruct (data_iter_ t) as [d|].
      * destruct (status_ok (it_status d)) eqn:Ed; cbn [negb].
        -- split.
           ++ intros Hs. split; [reflexivity|]. split; [|exact Hs].
              intros d' [= <-]. exact Ed.
           ++ intros (_ & _ & Hs). exact Hs.
        -- split.
           ++ intros Hs. congruence.
           ++ intros (_ & Hd & _). specialize (Hd d eq_refl). congruence.
      * split.
        -- intros Hs. split; [reflexivity|]. split; [discriminate|exact Hs].
        -- intros (_ & _ & Hs). exact Hs.
    + split.
      * intros Hs. subst index_status. congruence.
      * intros (Hi & _). discriminate.
  - intros s. unfold SaveError.
    destruct (status_ok (status_ t)), (status_ok s); reflexivity.
  - intros new_iter. unfold SetDataIterator. now destruct (data_iter_ t).
Qed.

End IteratorStatus.

(** *** Lists and comparators *)

Section ListFacts.
Import TwoLevelIterator.
Context {A : Type}.

Lemma find_index_Some (p : A -> bool) (l : list A) (i : nat) :
  find_index p l = Some i ->
  exists pre x post,
    l = pre ++ x :: post /\ List.length pre = i /\ p x = true /\
    Forall (fun y => p y = false) pre.
Proof.
  revert i. induction l as [|a l IH]; intros i; cbn [find_index]; [discriminate|].
  destruct (p a) eqn:Ea.
  - intros [= <-]. exists [], a, l. auto.
  - destruct (find_index p l) as [j|]; [|discriminate].
    intros [= <-]. destruct (IH j eq_refl) as (pre & x & post & -> & <- & Hx & Hpre).
    exists (a :: pre), x, post. repeat split; auto.
Qed.

Lemma find_index_None (p : A -> bool) (l : list A) :
  find_index p l = None -> Forall (fun y => p y = false) l.
Proof.
  induction l as [|a l IH]; cbn [find_index]; [constructor|].
  destruct (p a) eqn:Ea; [discriminate|].
  destruct (find_index p l); [discriminate|]. intros _. constructor; auto.
Qed.

Lemma find_index_map {B : Type} (f : A -> B) (p : B -> bool) (l : list A) :
  find_index p (map f l) = find_index (fun x => p (f x)) l.
Proof.
  induction l as [|a l IH]; cbn [find_index map]; [reflexivity|]. now rewrite IH.
Qed.

Lemma find_skip (p : A -> bool) (l1 l2 : list A) :
  Forall (fun y => p y = false) l1 -> find p (l1 ++ l2) = find p l2.
Proof.
  induction 1 as [|a l1 Ha _ IH]; cbn [find app]; [reflexivity|]. now rewrite Ha.
Qed.

Lemma find_all_false (p : A -> bool) (l : list A) :
  Forall (fun y => p y = false) l -> find p l = None.
Proof.
  intros H. rewrite <- (app_nil_r l). now rewrite find_skip.
Qed.

Lemma find_first (p : A -> bool) (l : list A) :
  Forall (fun y => p y = true) l -> find p l = hd_error l.
Proof.
  destruct 1 as [|a l Ha _]; cbn [find hd_error]; [reflexivity|]. now rewrite Ha.
Qed.

Lemma find_index_find (p : A -> bool) (l : list A) :
  find p l = match find_index p l with
             | Some i => nth_error l i
             | None => None
             end.
Proof.
  induction l as [|a l IH]; cbn [find find_index]; [reflexivity|].
  destruct (p a); [reflexivity|]. rewrite IH.
  now destruct (find_index p l).
Qed.

Lemma find_index_bound (p : A -> bool) (l : list A) (i : nat) :
  find_index p l = Some i -> (i < List.length l)%nat.
Proof.
  intros H. destruct (find_index_Some p l i H) as (pre & x & post & -> & <- & _).
  rewrite length_app. cbn. lia.
Qed.

End ListFacts.

Section OrderFacts.
Import TwoLevelIterator.
Variable Compare : Slice -> Slice -> Z.
Hypothesis order : total_order Compare.

Lemma flip_ge (a b : Slice) : 0 <= Compare a b -> Compare b a <= 0.
Proof.
  intros H. destruct (Z_lt_le_dec 0 (Compare b a)) as [Hlt|]; [|assumption].
  apply (cmp_flip Compare order a b) in Hlt. lia.
Qed.

Lemma flip_le (a b : Slice) : Compare a b <= 0 -> 0 <= Compare b a.
Proof.
  intros H. destruct (Z_lt_le_dec (Compare b a) 0) as [Hlt|]; [|assumption].
  apply (cmp_flip Compare order b a) in Hlt. lia.
Qed.

Lemma le_lt_trans (a b c : Slice) :
  Compare a b <= 0 -> Compare b c < 0 -> Compare a c < 0.
Proof.
  intros Hab Hbc. destruct (Z_lt_le_dec (Compare a c) 0) as [|Hge]; [assumption|].
  apply flip_ge in Hge.
  pose proof (cmp_trans Compare order c a b Hge Hab) as Hcb.
  apply (cmp_flip Compare order b c) in Hbc. lia.
Qed.

(** A key after a separator that is at or after the target is at or after
    the target. *)
Lemma after_separator (k sep key : Slice) :
  0 <= Compare sep k -> Compare sep key < 0 -> 0 <= Compare key k.
Proof.
  intros Hsk Hlt. apply flip_le.
  apply (cmp_trans Compare order k sep key); [now apply flip_ge|lia].
Qed.

(** A key at or before a separator that is before the target is before the
    target. *)
Lemma before_separator (k sep key : Slice) :
  Compare key sep <= 0 -> Compare sep k < 0 -> Compare key k < 0.
Proof. apply le_lt_trans. Qed.

Lemma at_or_after_true (k : Slice) (e : Entry) :
  at_or_after Compare k e = true <-> 0 <= Compare (fst e) k.
Proof. unfold at_or_after. apply Z.leb_le. Qed.

Lemma at_or_after_false (k : Slice) (e : Entry) :
  at_or_after Compare k e = false <-> Compare (fst e) k < 0.
Proof. unfold at_or_after. apply Z.leb_gt. Qed.

End OrderFacts.

(** *** Iterating over a table *)

Section TableIteration.
Import TwoLevelIterator.
Variable Compare : Slice -> Slice -> Z.

Local Abbreviation ops := (BlockIter_ops Compare).
Local Abbreviation Iter := (TwoLevelIterator BlockIter BlockIter).
Local Abbreviation Init := (InitDataBlock (index_ops := ops) (data_ops := ops)).
Local Abbreviation SetData := (SetDataIterator (II := BlockIter) (data_ops := ops)).

Lemma slice_eqb_eq (a b : Slice) : slice_eqb a b = true <-> a = b.
Proof. unfold slice_eqb. destruct (list_eq_dec _ a b); split; congruence. Qed.

Lemma all_entries_app (t1 t2 : Table) :
  all_entries (t1 ++ t2) = all_entries t1 ++ all_entries t2.
Proof. apply flat_map_app. Qed.

Lemma index_entries_length (t : Table) : List.length (index_entries t) = List.length t.
Proof. apply length_map. Qed.

Lemma index_entries_cons (pre post : Table) (b : Block) :
  index_entries (pre ++ b :: post) =
  index_entries pre ++ (separator b, handle b) :: index_entries post.
Proof. unfold index_entries. now rewrite map_app. Qed.

(** The block function finds the block a handle of the table names. *)
Lemma BlockReader_at (T pre post : Table) (b : Block) :
  T = pre ++ b :: post -> NoDup (map handle T) ->
  BlockReader T (handle b) = Some (NewBlockIter (block_entries b)).
Proof.
  intros -> Hnd. unfold BlockReader.
  rewrite find_skip.
  - cbn [find]. now rewrite (proj2 (slice_eqb_eq _ _) eq_refl).
  - rewrite map_app in Hnd. cbn [map] in Hnd. apply NoDup_remove_2 in Hnd.
    apply Forall_forall. intros x Hx.
    destruct (slice_eqb (handle x) (handle b)) eqn:E; [|reflexivity].
    apply slice_eqb_eq in E. exfalso. apply Hnd. apply in_or_app. left.
    rewrite <- E. now apply in_map.
Qed.

(** The index iterator standing at block [b]. *)
Lemma index_at (T pre post : Table) (b : Block) (idx : BlockIter) :
  T = pre ++ b :: post -> ents idx = index_entries T ->
  cur idx = Some (List.length pre) ->
  BlockIter_Valid idx = true /\ BlockIter_value idx = handle b.
Proof.
  intros -> He Hc. unfold BlockIter_Valid, BlockIter_value. rewrite Hc, He.
  rewrite index_entries_cons.
  split.
  - apply Nat.ltb_lt. rewrite length_app. cbn [List.length].
    rewrite !index_entries_length. lia.
  - rewrite <- (index_entries_length pre). now rewrite nth_middle.
Qed.

Lemma iterates_set_index (T : Table) (it : Iter) (c : option nat) :
  iterates T it -> iterates T (set_index_iter_ (set_cur c (index_iter_ it)) it).
Proof. intros (H1 & H2 & H3). repeat split; assumption. Qed.

Lemma iterates_set_data_cur (T : Table) (it : Iter) (d : BlockIter) (c : option nat) :
  iterates T it -> data_iter_ it = Some d ->
  iterates T (set_data_iter_ (Some (set_cur c d)) it).
Proof.
  intros (H1 & H2 & H3) Hd. rewrite Hd in H3. repeat split; assumption.
Qed.

Lemma SetData_None (it : Iter) :
  data_iter_ (SetData None it) = None /\
  index_iter_ (SetData None it) = index_iter_ it /\
  block_function_ (SetData None it) = block_function_ it.
Proof.
  unfold SetDataIterator, SaveError.
  destruct (data_iter_ it) as [d|]; [|auto].
  destruct (status_ok (status_ it) && negb (status_ok (it_status d))); auto.
Qed.

Lemma iterates_SetData_None (T : Table) (it : Iter) :
  iterates T it -> iterates T (SetData None it).
Proof.
  intros (H1 & H2 & _). destruct (SetData_None it) as (Hd & Hi & Hb).
  unfold iterates. now rewrite Hd, Hi, Hb.
Qed.

Lemma SetData_Some (it : Iter) (d : BlockIter) :
  data_iter_ (SetData (Some d) it) = Some d /\
  index_iter_ (SetData (Some d) it) = index_iter_ it /\
  block_function_ (SetData (Some d) it) = block_function_ it /\
  data_block_handle_ (SetData (Some d) it) = data_block_handle_ it.
Proof.
  unfold SetDataIterator, SaveError.
  destruct (data_iter_ it) as [d'|]; [|auto].
  destruct (status_ok (status_ it) && negb (status_ok (it_status d'))); auto.
Qed.

(** [InitDataBlock] with the index iterator at block [b]: the data iterator
    walks [b]. *)
Lemma InitDataBlock_at (T pre post : Table) (b : Block) (it : Iter) :
  iterates T it -> NoDup (map handle T) ->
  T = pre ++ b :: post -> cur (index_iter_ it) = Some (List.length pre) ->
  exists d,
    data_iter_ (Init it) = Some d /\ ents d = block_entries b /\
    iterates T (Init it) /\ index_iter_ (Init it) = index_iter_ it.
Proof.
  intros (Hidx & Hbf & Hdata) Hnd HT Hcur.
  destruct (index_at T pre post b (index_iter_ it) HT Hidx Hcur) as [Hv Hval].
  pose proof (BlockReader_at T pre post b HT Hnd) as Hread.
  unfold InitDataBlock. cbn [it_Valid it_value ops]. rewrite Hv, Hval. cbn [negb].
  assert (Hfresh :
    exists d,
      data_iter_ (SetData (block_function_ it (handle b))
                    (set_data_block_handle_ (handle b) it)) = Some d /\
      ents d = block_entries b /\
      iterates T (SetData (block_function_ it (handle b))
                    (set_data_block_handle_ (handle b) it)) /\
      index_iter_ (SetData (block_function_ it (handle b))
                     (set_data_block_handle_ (handle b) it)) = index_iter_ it).
  { rewrite Hbf, Hread.
    destruct (SetData_Some (set_data_block_handle_ (handle b) it)
                (NewBlockIter (block_entries b))) as (Hd & Hi & Hb & Hh).
    exists (NewBlockIter (block_entries b)).
    split; [exact Hd|]. split; [reflexivity|]. split; [|exact Hi].
    unfold iterates. rewrite Hd, Hi, Hb, Hh. cbn.
    split; [exact Hidx|]. split; [exact Hbf|].
    exists (NewBlockIter (block_entries b)). auto. }
  destruct (data_iter_ it) as [d|] eqn:Ed; [|exact Hfresh].
  destruct (slice_eqb (handle b) (data_block_handle_ it)) eqn:Eh; [|exact Hfresh].
  apply slice_eqb_eq in Eh.
  destruct Hdata as (d0 & Hd0 & He & Hs). rewrite <- Eh, Hread in Hd0.
  injection Hd0 as <-.
  exists d. split; [exact Ed|]. split; [exact He|]. split; [|reflexivity].
  unfold iterates. rewrite Ed. split; [exact Hidx|]. split; [exact Hbf|].
  exists (NewBlockIter (block_entries b)). rewrite <- Eh. auto.
Qed.

(** [InitDataBlock] with the index iterator off the end: no data iterator. *)
Lemma InitDataBlock_end (T : Table) (it : Iter) :
  iterates T it -> cur (index_iter_ it) = None ->
  data_iter_ (Init it) = None /\ iterates T (Init it) /\
  index_iter_ (Init it) = index_iter_ it.
Proof.
  intros Hit Hcur. unfold InitDataBlock. cbn [it_Valid ops].
  unfold BlockIter_Valid. rewrite Hcur. cbn [negb].
  destruct (SetData_None it) as (Hd & Hi & _).
  split; [exact Hd|]. split; [now apply iterates_SetData_None|exact Hi].
Qed.

End TableIteration.

Section SeekFacts.
Import TwoLevelIterator.
Variable Compare : Slice -> Slice -> Z.

Local Abbreviation ops := (BlockIter_ops Compare).
Local Abbreviation Iter := (TwoLevelIterator BlockIter BlockIter).
Local Abbreviation Init := (InitDataBlock (index_ops := ops) (data_ops := ops)).
Local Abbreviation SetData := (SetDataIterator (II := BlockIter) (data_ops := ops)).
Local Abbreviation SkipForward :=
  (SkipEmptyDataBlocksForward (index_ops := ops) (data_ops := ops)).

Lemma current_none (it : Iter) : data_iter_ it = None -> current Compare it = None.
Proof. intros H. unfold current, key. now rewrite H. Qed.

Lemma current_data (it : Iter) (d : BlockIter) :
  data_iter_ it = Some d ->
  current Compare it =
  if BlockIter_Valid d then Some (BlockIter_key d, BlockIter_value d) else None.
Proof.
  intros H. unfold current, key, value. rewrite H. cbn [it_Valid it_key it_value ops].
  now destruct (BlockIter_Valid d).
Qed.

Lemma entry_at (d : BlockIter) (i : nat) :
  cur d = Some i -> (i < List.length (ents d))%nat ->
  BlockIter_Valid d = true /\
  nth_error (ents d) i = Some (BlockIter_key d, BlockIter_value d).
Proof.
  intros Hc Hi. unfold BlockIter_Valid, BlockIter_key, BlockIter_value. rewrite Hc.
  split; [now apply Nat.ltb_lt|].
  rewrite (nth_error_nth' (ents d) no_entry Hi). now destruct (nth i (ents d) no_entry).
Qed.

(** After [Seek(k)] on the data iterator, the two-level iterator stands at
    the first pair of the block that is at or after [k]. *)
Lemma current_after_Seek (it : Iter) (d : BlockIter) (k : Slice) :
  data_iter_ it = Some d ->
  current Compare (move_data (BlockIter_Seek Compare k) it) =
  find (at_or_after Compare k) (ents d).
Proof.
  intros Hd. unfold move_data. rewrite Hd.
  rewrite (current_data _ (BlockIter_Seek Compare k d)) by reflexivity.
  rewrite find_index_find. unfold BlockIter_Seek.
  destruct (find_index (at_or_after Compare k) (ents d)) as [i|] eqn:Ei.
  - destruct (entry_at (set_cur (Some i) d) i eq_refl
                (find_index_bound _ _ _ Ei)) as [Hv Hn].
    change (ents (set_cur (Some i) d)) with (ents d) in Hn.
    now rewrite Hv, Hn.
  - reflexivity.
Qed.

Lemma current_after_SeekToFirst (it : Iter) (d : BlockIter) :
  data_iter_ it = Some d ->
  current Compare (move_data BlockIter_SeekToFirst it) = hd_error (ents d).
Proof.
  intros Hd. unfold move_data. rewrite Hd.
  rewrite (current_data _ (BlockIter_SeekToFirst d)) by reflexivity.
  unfold BlockIter_SeekToFirst. destruct (ents d) as [|e es] eqn:Ee.
  - reflexivity.
  - destruct (entry_at (set_cur (Some O) d) O eq_refl) as [Hv Hn].
    + change (ents (set_cur (Some O) d)) with (ents d). rewrite Ee. cbn. lia.
    + change (ents (set_cur (Some O) d)) with (ents d) in Hn.
      rewrite Ee in Hn. cbn [nth_error] in Hn. now rewrite Hv, <- Hn.
Qed.

Lemma nothing_here_current (it : Iter) :
  nothing_here (data_ops := ops) it = true <-> current Compare it = None.
Proof.
  unfold nothing_here. destruct (data_iter_ it) as [d|] eqn:Ed.
  - rewrite (current_data it d Ed). cbn [it_Valid ops].
    destruct (BlockIter_Valid d); cbn; split; congruence.
  - rewrite (current_none it Ed). tauto.
Qed.

Lemma Valid_current (it : Iter) :
  (Valid (data_ops := ops) it = true <-> exists e, current Compare it = Some e) /\
  (Valid (data_ops := ops) it = false <-> current Compare it = None).
Proof.
  unfold Valid, data_Valid. destruct (data_iter_ it) as [d|] eqn:Ed.
  - rewrite (current_data it d Ed). cbn [it_Valid ops].
    destruct (BlockIter_Valid d); split; split; try congruence; eauto.
    intros (e & He). discriminate.
  - rewrite (current_none it Ed). split; split; try congruence.
    intros (e & He). discriminate.
Qed.

Lemma current_key_value (it : Iter) (e : Entry) :
  current Compare it = Some e ->
  key (data_ops := ops) it = Some (fst e) /\ value (data_ops := ops) it = Some (snd e).
Proof.
  unfold current.
  destruct (key it) as [k|]; [|discriminate].
  destruct (value it) as [v|]; [|discriminate].
  intros [= <-]. auto.
Qed.

(** The loop of [SkipEmptyDataBlocksForward], entered with the index
    iterator at block [b] and nothing to show there, ends at the first pair of
    the blocks after [b], or invalid when they hold no pair. *)
Lemma SkipForward_from (T : Table) :
  NoDup (map handle T) ->
  forall (post pre : Table) (b : Block) (it : Iter) (fuel : nat),
    iterates T it ->
    T = pre ++ b :: post ->
    cur (index_iter_ it) = Some (List.length pre) ->
    nothing_here (data_ops := ops) it = true ->
    (List.length post + 2 <= fuel)%nat ->
    exists it',
      SkipForward fuel it = Some it' /\ iterates T it' /\
      current Compare it' = hd_error (all_entries post).
Proof.
  intros Hnd. induction post as [|b' post' IH]; intros pre b it fuel Hit HT Hcur Hnh Hfuel.
  - destruct fuel as [|[|fuel]]; [cbn in Hfuel; lia..|].
    destruct (index_at T pre [] b (index_iter_ it) HT (proj1 Hit) Hcur) as [Hv _].
    cbn [SkipEmptyDataBlocksForward]. rewrite Hnh. cbn [it_Valid it_Next ops].
    rewrite Hv. cbn [negb].
    set (it1 := set_index_iter_ (BlockIter_Next (index_iter_ it)) it).
    assert (Hcur1 : cur (index_iter_ it1) = None).
    { change (cur (BlockIter_Next (index_iter_ it)) = None).
      unfold BlockIter_Next. cbn [cur set_cur].
      rewrite Hcur, (proj1 Hit), HT, index_entries_length, length_app.
      cbn [List.length]. destruct (Nat.ltb_spec (S (List.length pre)) (List.length pre + 1));
        [lia|reflexivity]. }
    assert (Hit1 : iterates T it1) by (apply iterates_set_index; exact Hit).
    destruct (InitDataBlock_end Compare T it1 Hit1 Hcur1) as (Hd2 & Hit2 & Hi2).
    set (it2 := Init it1) in *.
    assert (Hmove : move_data BlockIter_SeekToFirst it2 = it2)
      by (unfold move_data; now rewrite Hd2).
    cbn [it_SeekToFirst ops]. rewrite Hmove.
    assert (Hnh2 : nothing_here (data_ops := ops) it2 = true)
      by (unfold nothing_here; now rewrite Hd2).
    rewrite Hnh2. unfold BlockIter_Valid. rewrite Hi2, Hcur1. cbn [negb].
    exists (SetData None it2).
    split; [reflexivity|]. split; [now apply iterates_SetData_None|].
    apply current_none. apply SetData_None.
  - destruct fuel as [|fuel]; [cbn in Hfuel; lia|].
    cbn [List.length] in Hfuel.
    destruct (index_at T pre (b' :: post') b (index_iter_ it) HT (proj1 Hit) Hcur) as [Hv _].
    cbn [SkipEmptyDataBlocksForward]. rewrite Hnh. cbn [it_Valid it_Next ops].
    rewrite Hv. cbn [negb].
    set (it1 := set_index_iter_ (BlockIter_Next (index_iter_ it)) it).
    assert (HT' : T = (pre ++ [b]) ++ b' :: post') by (now rewrite <- app_assoc).
    assert (Hcur1 : cur (index_iter_ it1) = Some (List.length (pre ++ [b]))).
    { change (cur (BlockIter_Next (index_iter_ it)) = Some (List.length (pre ++ [b]))).
      unfold BlockIter_Next. cbn [cur set_cur].
      rewrite Hcur, (proj1 Hit), HT, index_entries_length, !length_app.
      cbn [List.length].
      destruct (Nat.ltb_spec (S (List.length pre))
                  (List.length pre + S (S (List.length post')))); [|lia].
      f_equal. lia. }
    assert (Hit1 : iterates T it1) by (apply iterates_set_index; exact Hit).
    destruct (InitDataBlock_at Compare T (pre ++ [b]) post' b' it1 Hit1 Hnd HT' Hcur1)
      as (d & Hd2 & He2 & Hit2 & Hi2).
    set (it2 := Init it1) in *.
    cbn [it_SeekToFirst ops].
    pose proof (current_after_SeekToFirst it2 d Hd2) as Hcurrent.
    set (it3 := move_data BlockIter_SeekToFirst it2) in *.
    assert (Hit3 : iterates T it3).
    { unfold it3, move_data. rewrite Hd2. now apply iterates_set_data_cur. }
    assert (Hi3 : index_iter_ it3 = index_iter_ it1).
    { unfold it3, move_data. now rewrite Hd2. }
    rewrite He2 in Hcurrent.
    cbn [all_entries flat_map]. fold (all_entries post').
    destruct (block_entries b') as [|e es] eqn:Eb.
    + (* an empty block: go on *)
      apply nothing_here_current in Hcurrent.
      destruct (IH (pre ++ [b]) b' it3 fuel Hit3 HT') as (it' & Hs & Hit' & Hc');
        [now rewrite Hi3|exact Hcurrent|lia|].
      exists it'. auto.
    + (* the first pair of the block *)
      destruct fuel as [|fuel]; [lia|].
      cbn [SkipEmptyDataBlocksForward].
      destruct (nothing_here (data_ops := ops) it3) eqn:Hnh3.
      * apply nothing_here_current in Hnh3. cbn in Hcurrent. congruence.
      * exists it3. auto.
Qed.

End SeekFacts.

Section SeekClaim.
Import TwoLevelIterator.
Variable Compare : Slice -> Slice -> Z.
Hypothesis order : total_order Compare.

Local Abbreviation ops := (BlockIter_ops Compare).
Local Abbreviation Iter := (TwoLevelIterator BlockIter BlockIter).
Local Abbreviation Init := (InitDataBlock (index_ops := ops) (data_ops := ops)).
Local Abbreviation SetData := (SetDataIterator (II := BlockIter) (data_ops := ops)).
Local Abbreviation SkipForward :=
  (SkipEmptyDataBlocksForward (index_ops := ops) (data_ops := ops)).

Lemma separates_app (pre rest : Table) :
  separates Compare (pre ++ rest) ->
  Forall (fun b => Forall (fun e => key_le Compare (fst e) (separator b)) (block_entries b))
    pre /\
  separates Compare rest.
Proof.
  induction pre as [|b pre IH]; cbn [app separates]; [auto|].
  intros (Hown & _ & Hrest). destruct (IH Hrest). auto.
Qed.

(** The pairs of blocks whose separators are before [k] are before [k]. *)
Lemma entries_before (k : Slice) (pre : Table) :
  Forall (fun b => at_or_after Compare k (separator b, handle b) = false) pre ->
  Forall (fun b => Forall (fun e => key_le Compare (fst e) (separator b)) (block_entries b))
    pre ->
  Forall (fun e => at_or_after Compare k e = false) (all_entries pre).
Proof.
  induction 1 as [|b pre Hb _ IH]; intros Hown; [constructor|].
  inversion Hown as [|? ? Hown_b Hown_pre]; subst.
  cbn [all_entries flat_map]. apply Forall_app. split; [|now apply IH].
  apply at_or_after_false in Hb. cbn [fst] in Hb.
  eapply Forall_impl; [|exact Hown_b]. intros e He.
  apply at_or_after_false. exact (before_separator Compare order _ _ _ He Hb).
Qed.

Lemma find_app_Some {A : Type} (p : A -> bool) (l1 l2 : list A) (x : A) :
  find p l1 = Some x -> find p (l1 ++ l2) = Some x.
Proof.
  induction l1 as [|a l1 IH]; cbn [find app]; [discriminate|].
  destruct (p a); auto.
Qed.

(** In a list of pairs with increasing keys, the first pair at or after [k]
    has the smallest key at or after [k]. *)
Lemma find_smallest (k : Slice) (l : list Entry) (e : Entry) :
  increasing Compare (map fst l) ->
  find (at_or_after Compare k) l = Some e ->
  In e l /\ 0 <= Compare (fst e) k /\
  forall e', In e' l -> 0 <= Compare (fst e') k -> Compare (fst e) (fst e') <= 0.
Proof.
  induction l as [|a l IH]; cbn [find map increasing]; [discriminate|].
  intros (Ha & Hinc). destruct (at_or_after Compare k a) eqn:Ea.
  - intros [= <-]. split; [now left|]. split; [now apply at_or_after_true|].
    intros e' [<-|Hin] _.
    + rewrite (cmp_refl Compare order). lia.
    + rewrite Forall_forall in Ha. specialize (Ha (fst e') (in_map fst _ _ Hin)).
      unfold key_lt in Ha. lia.
  - intros Hfind. destruct (IH Hinc Hfind) as (Hin & Hge & Hmin).
    split; [now right|]. split; [exact Hge|].
    intros e' [<-|Hin'] Hge'.
    + apply at_or_after_false in Ea. lia.
    + now apply Hmin.
Qed.

(** C9.  [Seek(k)] is [index_iter.Seek(k)], [InitDataBlock()],
    [data_iter.Seek(k)] if there is a data iterator, and
    [SkipEmptyDataBlocksForward()].  Over a well-formed table, from any state
    of an iterator over it and with fuel for the loop, it returns and leaves
    the iterator at the first stored pair whose key is at or after [k], which
    has the smallest such key; the iterator is invalid exactly when no stored
    key is at or after [k]. *)
Theorem Seek_finds_smallest_key_at_or_after :
  forall (T : Table) (it : Iter) (k : Slice) (fuel : nat),
    well_formed Compare T ->
    iterates T it ->
    (List.length T + 2 <= fuel)%nat ->
    Seek (index_ops := ops) (data_ops := ops) fuel k it =
      SkipForward fuel
        (move_data (@it_Seek _ ops k)
           (Init (set_index_iter_ (@it_Seek _ ops k (index_iter_ it)) it))) /\
    exists it',
      Seek (index_ops := ops) (data_ops := ops) fuel k it = Some it' /\
      iterates T it' /\
      current Compare it' = find (at_or_after Compare k) (all_entries T) /\
      (forall e, current Compare it' = Some e ->
         Valid (data_ops := ops) it' = true /\
         key (data_ops := ops) it' = Some (fst e) /\
         value (data_ops := ops) it' = Some (snd e) /\
         In e (all_entries T) /\ 0 <= Compare (fst e) k /\
         forall e', In e' (all_entries T) -> 0 <= Compare (fst e') k ->
                    Compare (fst e) (fst e') <= 0) /\
      (Valid (data_ops := ops) it' = false <->
       forall e, In e (all_entries T) -> Compare (fst e) k < 0).
Proof.
  intros T it k fuel [Hnd Hkeys _ Hsep] Hit Hfuel.
  split; [reflexivity|].
  assert (Hmain : exists it',
             Seek (index_ops := ops) (data_ops := ops) fuel k it = Some it' /\
             iterates T it' /\
             current Compare it' = find (at_or_after Compare k) (all_entries T)).
  { unfold Seek. cbn [it_Seek ops].
    set (it1 := set_index_iter_ (BlockIter_Seek Compare k (index_iter_ it)) it).
    assert (Hit1 : iterates T it1) by (apply iterates_set_index; exact Hit).
    assert (Hcur1 : cur (index_iter_ it1) =
                    find_index (fun b => at_or_after Compare k (separator b, handle b)) T).
    { change (cur (BlockIter_Seek Compare k (index_iter_ it)) = 
              find_index (fun b => at_or_after Compare k (separator b, handle b)) T).
      unfold BlockIter_Seek. cbn [cur set_cur]. rewrite (proj1 Hit).
      unfold index_entries. apply find_index_map. }
    destruct (find_index _ T) as [i|] eqn:Ei.
    - (* the index iterator stands at a block *)
      destruct (find_index_Some _ _ _ Ei) as (pre & b & post & HT & Hlen & Hb & Hpre).
      rewrite <- Hlen in Hcur1.
      destruct (InitDataBlock_at Compare T pre post b it1 Hit1 Hnd HT Hcur1)
        as (d & Hd2 & He2 & Hit2 & Hi2).
      set (it2 := Init it1) in *.
      pose proof (current_after_Seek Compare it2 d k Hd2) as Hcurrent.
      set (it3 := move_data (BlockIter_Seek Compare k) it2) in *.
      assert (Hit3 : iterates T it3).
      { unfold it3, move_data. rewrite Hd2. now apply iterates_set_data_cur. }
      assert (Hi3 : index_iter_ it3 = index_iter_ it1).
      { unfold it3, move_data. now rewrite Hd2. }
      rewrite He2 in Hcurrent.
      rewrite HT in Hsep. destruct (separates_app pre (b :: post) Hsep) as [Hown Hrest].
      cbn [separates] in Hrest. destruct Hrest as (_ & Hafter & _).
      assert (Hfind : find (at_or_after Compare k) (all_entries T) =
                      find (at_or_after Compare k) (block_entries b ++ all_entries post)).
      { rewrite HT, all_entries_app. cbn [all_entries flat_map].
        apply find_skip. now apply entries_before. }
      rewrite Hfind.
      destruct (find (at_or_after Compare k) (block_entries b)) as [e|] eqn:Ef.
      + (* the block holds a pair at or after k *)
        destruct fuel as [|fuel]; [lia|]. cbn [SkipEmptyDataBlocksForward].
        destruct (nothing_here (data_ops := ops) it3) eqn:Hnh.
        * apply nothing_here_current in Hnh. congruence.
        * exists it3. split; [reflexivity|]. split; [exact Hit3|].
          rewrite Hcurrent. symmetry. now apply find_app_Some.
      + (* it does not: the answer is the first pair after the block *)
        apply nothing_here_current in Hcurrent.
        destruct (SkipForward_from Compare T Hnd post pre b it3 fuel Hit3 HT)
          as (it' & Hs & Hit' & Hc'); [now rewrite Hi3|exact Hcurrent| |].
        { rewrite HT, length_app in Hfuel. cbn [List.length] in Hfuel. lia. }
        exists it'. split; [exact Hs|]. split; [exact Hit'|].
        rewrite Hc', find_skip.
        * symmetry. apply find_first.
          eapply Forall_impl; [|exact Hafter]. intros e He.
          apply at_or_after_true. apply at_or_after_true in Hb. cbn [fst] in Hb.
          exact (after_separator Compare order _ _ _ Hb He).
        * apply Forall_forall. intros x Hx. now apply (List.find_none _ _ Ef).
    - (* every separator is before k *)
      destruct (InitDataBlock_end Compare T it1 Hit1 Hcur1) as (Hd2 & Hit2 & Hi2).
      set (it2 := Init it1) in *.
      assert (Hmove : move_data (BlockIter_Seek Compare k) it2 = it2)
        by (unfold move_data; now rewrite Hd2).
      rewrite Hmove.
      destruct fuel as [|fuel]; [lia|]. cbn [SkipEmptyDataBlocksForward].
      assert (Hnh2 : nothing_here (data_ops := ops) it2 = true)
        by (unfold nothing_here; now rewrite Hd2).
      rewrite Hnh2. cbn [it_Valid ops]. unfold BlockIter_Valid. rewrite Hi2, Hcur1.
      cbn [negb].
      exists (SetData None it2). split; [reflexivity|].
      split; [now apply iterates_SetData_None|].
      rewrite current_none by apply SetData_None.
      symmetry. apply find_all_false. apply entries_before.
      + now apply find_index_None.
      + rewrite <- (app_nil_r T) in Hsep. now apply separates_app in Hsep. }
  destruct Hmain as (it' & Hseek & Hit' & Hcurrent).
  exists it'. split; [exact Hseek|]. split; [exact Hit'|]. split; [exact Hcurrent|].
  destruct (Valid_current Compare it') as [Hvt Hvf].
  split.
  - intros e He. split; [apply Hvt; eauto|].
    destruct (current_key_value Compare it' e He) as [Hk Hv].
    split; [exact Hk|]. split; [exact Hv|].
    rewrite Hcurrent in He. now apply find_smallest.
  - rewrite Hvf, Hcurrent. split.
    + intros Hnone e Hin. apply at_or_after_false. now apply (List.find_none _ _ Hnone).
    + intros Hall. apply find_all_false. apply Forall_forall. intros e Hin.
      apply at_or_after_false. now apply Hall.
Qed.

End SeekClaim.

Section BytewiseOrder.
Import TwoLevelIterator.

Lemma bytewise_flip (a b : Slice) : bytewise_Compare b a = - bytewise_Compare a b.
Proof.
  revert b. induction a as [|x a IH]; intros [|y b]; cbn [bytewise_Compare];
    try reflexivity.
  destruct (Z.ltb_spec (byte_to_Z x) (byte_to_Z y)),
           (Z.ltb_spec (byte_to_Z y) (byte_to_Z x)); try lia; try reflexivity.
  apply IH.
Qed.

Lemma bytewise_trans (a b c : Slice) :
  bytewise_Compare a b <= 0 -> bytewise_Compare b c <= 0 -> bytewise_Compare a c <= 0.
Proof.
  revert b c. induction a as [|x a IH]; intros [|y b] [|z c]; cbn [bytewise_Compare];
    try lia.
  destruct (Z.ltb_spec (byte_to_Z x) (byte_to_Z y)),
           (Z.ltb_spec (byte_to_Z y) (byte_to_Z x)),
           (Z.ltb_spec (byte_to_Z y) (byte_to_Z z)),
           (Z.ltb_spec (byte_to_Z z) (byte_to_Z y)),
           (Z.ltb_spec (byte_to_Z x) (byte_to_Z z)),
           (Z.ltb_spec (byte_to_Z z) (byte_to_Z x)); try lia.
  apply IH.
Qed.

Lemma bytewise_total_order : total_order bytewise_Compare.
Proof.
  constructor.
  - induction a as [|x a IH]; cbn [bytewise_Compare]; [reflexivity|].
    now rewrite Z.ltb_irrefl.
  - intros a b. rewrite (bytewise_flip a b). lia.
  - exact bytewise_trans.
Qed.

Lemma NewIterator_iterates (T : Table) : iterates T (NewIterator T).
Proof. repeat split. Qed.

Lemma example_table_well_formed : well_formed bytewise_Compare example_table.
Proof.
  constructor.
  - repeat constructor; cbn; intuition discriminate.
  - cbn. unfold key_lt. repeat constructor.
  - cbn. unfold key_lt. repeat constructor.
  - cbn. unfold key_lt, key_le. repeat constructor; cbn; lia.
Qed.

(** Seeking "bb", a key between the two blocks, stops at the first pair of
    the second block. *)
Lemma Seek_finds_smallest_key_at_or_after_witness :
  exists it',
    Seek (index_ops := BlockIter_ops bytewise_Compare)
         (data_ops := BlockIter_ops bytewise_Compare)
         4 (str "bb") (NewIterator example_table) = Some it' /\
    current bytewise_Compare it' = Some (str "c", str "3").
Proof.
  destruct (Seek_finds_smallest_key_at_or_after bytewise_Compare bytewise_total_order
              example_table (NewIterator example_table) (str "bb") 4
              example_table_well_formed (NewIterator_iterates example_table)
              (le_n 4))
    as (_ & it' & Hseek & _ & Hcurrent & _).
  exists it'. split; [exact Hseek|]. rewrite Hcurrent. reflexivity.
Defined.

End BytewiseOrder.


(* ------------------------------------------------------------------ *)
(** ** Further properties of the builder *)
(* ------------------------------------------------------------------ *)

Section Stores.
Import TableBuilder BuilderLogic TableContents.
Variable env : Env.

Lemma post_conj {A} (m : M A) r (Q1 Q2 : A -> Rep -> Prop) :
  post m r Q1 -> post m r Q2 -> post m r (fun a r' => Q1 a r' /\ Q2 a r').
Proof. unfold post. destruct (m r) as [[a r']|]; auto. Qed.

Lemma post_const {A} (m : M A) r (P : Prop) : P -> post m r (fun _ _ => P).
Proof. unfold post. destruct (m r) as [[a r']|]; auto. Qed.

Lemma after_Flush_num_entries r h f s o :
  num_entries (after_Flush r h f s o) = num_entries r.
Proof.
  unfold after_Flush, start_filter_block.
  destruct (status_ok s); cbn; destruct (filter_block r) eqn:E; cbn; rewrite ?E;
    reflexivity.
Qed.

Lemma keys_fed_call fb c :
  keys_fed (filter_call c fb) =
  keys_fed fb ++ match c with AddKey key => [key] | _ => [] end.
Proof.
  unfold keys_fed, filter_call. cbn [filter_calls]. rewrite flat_map_app. cbn.
  now rewrite app_nil_r.
Qed.

Lemma flat_map_snoc {A B} (f : A -> list B) l x : flat_map f (l ++ [x]) = flat_map f l ++ f x.
Proof. rewrite flat_map_app. cbn. now rewrite app_nil_r. Qed.

Lemma last_snoc {A} (l : list A) (x d : A) : last (l ++ [x]) d = x.
Proof. apply last_last. Qed.

Lemma NewTableBuilder_stores opt f : stores (NewTableBuilder opt f) [].
Proof.
  unfold stores, NewTableBuilder, Rep_new.
  destruct (filter_policy opt); cbn; repeat split; try discriminate.
  now intros fb [= <-].
Qed.

Lemma after_Flush_stores (r : Rep) l h f s o :
  stores r l -> stores (after_Flush r h f s o) l.
Proof.
  intros (Hw & Hn & Hk & Hf). unfold stores.
  rewrite after_Flush_written, after_Flush_data_block, after_Flush_num_entries,
    after_Flush_last_key, after_Flush_filter_block.
  split; [|split; [exact Hn|split; [exact Hk|]]].
  - rewrite flat_map_snoc. cbn. now rewrite app_nil_r.
  - intros fb. destruct (filter_block r) as [fb0|]; [|discriminate].
    cbn. intros [= <-]. rewrite keys_fed_call, app_nil_r. now apply Hf.
Qed.

Lemma Flush_stores l : preserves (fun r => stores r l) (Flush env).
Proof.
  intros r HP.
  destruct (status_ok (status r)) eqn:Hok.
  - destruct (BlockBuilder_empty (data_block r)) eqn:He.
    + unfold Flush. mlines. rewrite Hok. cbn [negb]. mlines. rewrite He.
      mlines. exact HP.
    + eapply post_weaken; [apply Flush_shape; assumption|].
      intros _ r' (_ & h & f & s & o & _ & _ & ->).
      now apply after_Flush_stores.
  - unfold Flush. mlines. rewrite Hok. cbn [negb]. mlines. exact HP.
Qed.

(** The state [Add] reaches before it decides whether to flush. *)
Lemma stores_after_Add_prefix (r r1 : Rep) l key value :
  stores r l ->
  written r1 = written r ->
  entries (data_block r1) = entries (data_block r) ++ [(key, value)] ->
  num_entries r1 = num_entries r + 1 ->
  last_key r1 = key ->
  filter_block r1 = option_map (filter_call (AddKey key)) (filter_block r) ->
  stores r1 (l ++ [(key, value)]).
Proof.
  intros (Hw & Hn & Hk & Hf) Hw1 He1 Hn1 Hk1 Hf1. unfold stores.
  rewrite Hw1, He1, Hn1, Hk1, Hf1, app_assoc, Hw, Hn, map_app, length_app.
  cbn [map fst List.length]. rewrite last_snoc.
  split; [reflexivity|]. split; [lia|]. split; [reflexivity|].
  intros fb. destruct (filter_block r) as [fb0|]; [|discriminate].
  cbn. intros [= <-]. rewrite keys_fed_call. f_equal. now apply Hf.
Qed.

Lemma Add_stores key value l (r : Rep) :
  stores r l -> status_ok (status r) = true ->
  post (Add env key value) r (fun _ r' => stores r' (l ++ [(key, value)])).
Proof.
  intros HP Hok. unfold Add. mlines. rewrite Hok. cbn [negb].
  msteps; try (apply Flush_stores);
    apply (stores_after_Add_prefix r _ l key value HP);
    rsimpl; rewrite ?entries_Add;
    first [ reflexivity
          | match goal with H : filter_block r = _ |- _ => rewrite H end; reflexivity ].
Qed.

Lemma ChangeOptions_stores o l : preserves (fun r => stores r l) (ChangeOptions o).
Proof.
  intros r HP. unfold post. rewrite ChangeOptions_eq.
  destruct (N.eqb _ _); exact HP.
Qed.

Lemma step_stores op l (r : Rep) :
  building op = true -> stores r l -> status_ok (status r) = true ->
  post (step env op) r (fun _ r' => stores r' (l ++ adds_of [op])).
Proof.
  intros Hb HP Hok. destruct op as [key value| |o| |]; cbn [step adds_of];
    try discriminate; rewrite ?app_nil_r.
  - now apply Add_stores.
  - now apply Flush_stores.
  - apply post_bind. eapply post_weaken; [apply ChangeOptions_stores; exact HP|].
    intros st r1 H1. exact H1.
Qed.

(** A step that keeps the status sticky keeps what holds while it is OK. *)
Lemma while_ok {A} (m : M A) (P Q : Rep -> Prop) (r : Rep) :
  advancing m ->
  (status_ok (status r) = true -> P r -> post m r (fun _ r' => Q r')) ->
  (status_ok (status r) = true -> P r) ->
  post m r (fun _ r' => status_ok (status r') = true -> Q r').
Proof.
  intros Hadv Hstep HP. destruct (status_ok (status r)) eqn:Hok.
  - eapply post_weaken; [apply Hstep; auto|]. auto.
  - eapply post_weaken; [apply Hadv|]. intros a r' [Hst _] Hok'.
    specialize (Hst Hok'). congruence.
Qed.

Lemma run_stores ops :
  forallb building ops = true ->
  forall r l,
    (status_ok (status r) = true -> stores r l) ->
    post (run env ops) r (fun _ r' =>
      status_ok (status r') = true -> stores r' (l ++ adds_of ops)).
Proof.
  induction ops as [|op ops IH]; cbn [run forallb]; intros Hb r l HP.
  - unfold post, ret. cbn [adds_of]. now rewrite app_nil_r.
  - apply andb_prop in Hb. destruct Hb as [Hop Hops]. apply post_bind.
    eapply post_weaken.
    + apply (while_ok (step env op) (fun r => stores r l)
               (fun r' => stores r' (l ++ adds_of [op])) r (step_advance env op)); [|exact HP].
      intros Hok Hs. now apply step_stores.
    + intros a r1 H1. cbv beta in *.
      replace (l ++ adds_of (op :: ops)) with ((l ++ adds_of [op]) ++ adds_of ops).
      * now apply IH.
      * rewrite <- app_assoc. f_equal. destruct op; reflexivity.
Qed.

End Stores.

Section StoredPairs.
Import TableBuilder BuilderLogic TableContents.

Lemma built_stores (env : Env) opt f ops r' :
  forallb building ops = true ->
  run env ops (NewTableBuilder opt f) = Done (tt, r') ->
  status_ok (status r') = true ->
  stores r' (adds_of ops).
Proof.
  intros Hb Hrun Hok.
  apply (post_Done _ _ _ _ _
           (run_stores env ops Hb (NewTableBuilder opt f) []
              (fun _ => NewTableBuilder_stores opt f)) Hrun Hok).
Qed.

(** X1.  Fill a table through [Add], [Flush] and [ChangeOptions].  While the
    status is OK, the pairs of the data blocks written so far, block after
    block, followed by the pairs still held in the open data block, are
    exactly the pairs handed to [Add], in the order of the calls: no pair is
    dropped, repeated or reordered, wherever the block boundaries fall. *)
Theorem added_pairs_are_stored_in_order :
  forall (env : Env) (opt : Options) (f : WritableFile) (ops : list Op) (r' : Rep),
    forallb building ops = true ->
    run env ops (NewTableBuilder opt f) = Done (tt, r') ->
    status_ok (status r') = true ->
    flat_map w_entries (written r') ++ entries (data_block r') = adds_of ops.
Proof.
  intros env opt f ops r' Hb Hrun Hok.
  exact (proj1 (built_stores env opt f ops r' Hb Hrun Hok)).
Qed.

(** Three pairs with a block size that cuts after the second. *)
Lemma added_pairs_are_stored_in_order_witness :
  let env := example_env false in
  let r0 := NewTableBuilder (example_options 4 kSnappyCompression (Some 7%N)) reliable_file in
  let ops := [OpAdd (str "a") (str "1"); OpChangeOptions (example_options 4 kNoCompression None);
              OpAdd (str "b") (str "2"); OpFlush; OpAdd (str "c") (str "3")] in
  let r' := after env ops r0 in
  forallb building ops = true /\
  run env ops r0 = Done (tt, r') /\
  status_ok (status r') = true /\
  map w_entries (written r') = [[(str "a", str "1"); (str "b", str "2")]] /\
  flat_map w_entries (written r') ++ entries (data_block r') =
    [(str "a", str "1"); (str "b", str "2"); (str "c", str "3")].
Proof.
  intros env r0 ops r'.
  assert (Hb : forallb building ops = true) by reflexivity.
  assert (Hrun : run env ops r0 = Done (tt, r')) by (vm_compute; reflexivity).
  assert (Hok : status_ok (status r') = true) by (vm_compute; reflexivity).
  split; [exact Hb|]. split; [exact Hrun|]. split; [exact Hok|].
  split; [vm_compute; reflexivity|].
  exact (added_pairs_are_stored_in_order env _ _ ops r' Hb Hrun Hok).
Defined.

(** X2.  While the status is OK, [NumEntries()] is the number of [Add] calls
    made (as a [uint64_t]), and [last_key] is the key of the latest of them. *)
Theorem NumEntries_counts_added_pairs :
  forall (env : Env) (opt : Options) (f : WritableFile) (ops : list Op) (r' : Rep),
    forallb building ops = true ->
    run env ops (NewTableBuilder opt f) = Done (tt, r') ->
    status_ok (status r') = true ->
    NumEntries r' = wrap64 (Z.of_nat (List.length (adds_of ops))) /\
    last_key r' = last (map fst (adds_of ops)) [].
Proof.
  intros env opt f ops r' Hb Hrun Hok.
  destruct (built_stores env opt f ops r' Hb Hrun Hok) as (_ & Hn & Hk & _).
  unfold NumEntries. now rewrite Hn.
Qed.

Lemma NumEntries_counts_added_pairs_witness :
  let env := example_env false in
  let r0 := NewTableBuilder (example_options 4 kNoCompression None) reliable_file in
  let ops := [OpAdd (str "a") (str "1"); OpFlush; OpFlush; OpAdd (str "b") (str "2");
              OpAdd (str "c") (str "3")] in
  let r' := after env ops r0 in
  forallb building ops = true /\
  run env ops r0 = Done (tt, r') /\
  status_ok (status r') = true /\
  NumEntries r' = 3 /\ last_key r' = str "c".
Proof.
  intros env r0 ops r'.
  assert (Hb : forallb building ops = true) by reflexivity.
  assert (Hrun : run env ops r0 = Done (tt, r')) by (vm_compute; reflexivity).
  assert (Hok : status_ok (status r') = true) by (vm_compute; reflexivity).
  split; [exact Hb|]. split; [exact Hrun|]. split; [exact Hok|].
  exact (NumEntries_counts_added_pairs env _ _ ops r' Hb Hrun Hok).
Defined.

(** X3.  A builder made with a filter policy hands every added key to its
    filter encoder, once and in the order of the [Add] calls, as long as the
    status is OK. *)
Theorem filter_is_fed_every_key :
  forall (env : Env) (opt : Options) (f : WritableFile) (ops : list Op) (r' : Rep)
         (fb : FilterBlockBuilder),
    forallb building ops = true ->
    run env ops (NewTableBuilder opt f) = Done (tt, r') ->
    status_ok (status r') = true ->
    filter_block r' = Some fb ->
    keys_fed fb = map fst (adds_of ops).
Proof.
  intros env opt f ops r' fb Hb Hrun Hok Hfb.
  destruct (built_stores env opt f ops r' Hb Hrun Hok) as (_ & _ & _ & Hf).
  now apply Hf.
Qed.

Lemma filter_is_fed_every_key_witness :
  let env := example_env false in
  let r0 := NewTableBuilder (example_options 2 kNoCompression (Some 7%N)) reliable_file in
  let ops := [OpAdd (str "a") (str "1"); OpAdd (str "b") (str "2")] in
  let r' := after env ops r0 in
  let fb := {| policy := 7%N;
               filter_calls := [StartBlock 0; AddKey (str "a"); StartBlock 7;
                                AddKey (str "b"); StartBlock 14] |} in
  forallb building ops = true /\
  run env ops r0 = Done (tt, r') /\
  status_ok (status r') = true /\
  filter_block r' = Some fb /\
  keys_fed fb = [str "a"; str "b"].
Proof.
  intros env r0 ops r' fb.
  assert (Hb : forallb building ops = true) by reflexivity.
  assert (Hrun : run env ops r0 = Done (tt, r')) by (vm_compute; reflexivity).
  assert (Hok : status_ok (status r') = true) by (vm_compute; reflexivity).
  assert (Hfb : filter_block r' = Some fb) by (vm_compute; reflexivity).
  split; [exact Hb|]. split; [exact Hrun|]. split; [exact Hok|]. split; [exact Hfb|].
  exact (filter_is_fed_every_key env _ _ ops r' fb Hb Hrun Hok Hfb).
Defined.

End StoredPairs.

(** ** How the blocks lie in the file *)

Section Layout.
Import TableBuilder BuilderLogic TableContents.
Variable env : Env.

(** [WriteBlock] with the size of the handle: a write that succeeds moves
    the offset past the payload the handle spans and its trailer; and a write
    to a file that accepts every call succeeds. *)
Lemma WriteRawBlock_sized (contents : Slice) (type : CompressionType) (r : Rep) :
  exists f s o,
    WriteRawBlock contents type r =
      Done ({| handle_offset := offset r; handle_size := size contents |}, io r f s o) /\
    wrote r f s o /\
    (status_ok s = true -> o = wrap64 (offset r + (size contents + kBlockTrailerSize))) /\
    (reliable (file r) -> s = OK).
Proof.
  destruct (WriteRawBlock_shape contents type r) as (f & s & o & E & Hw).
  exists f, s, o. split; [exact E|]. split; [exact Hw|].
  rewrite WriteRawBlock_eq in E. cbv zeta in E. unfold file_call in E.
  set (s1 := respond (file r) (calls (file r)) (Append contents)) in E.
  destruct (status_ok s1) eqn:E1.
  - cbn [respond calls] in E.
    set (s2 := respond (file r) _ (Append (block_trailer contents type))) in E.
    assert (Es : s2 = s).
    { destruct (status_ok s2);
        apply (f_equal (fun x => match x with Done (_, r1) => status r1 | Abort _ => OK end))
          in E; exact E. }
    split.
    + intros Hs. rewrite <- Es in Hs. rewrite Hs in E.
      apply (f_equal (fun x => match x with Done (_, r1) => offset r1 | Abort _ => 0 end)) in E.
      cbn in E. now rewrite E.
    + intros Hr. rewrite <- Es. apply Hr.
  - assert (Es : s1 = s).
    { apply (f_equal (fun x => match x with Done (_, r1) => status r1 | Abort _ => OK end))
        in E; exact E. }
    split.
    + intros Hs. congruence.
    + intros Hr. rewrite <- Es. apply Hr.
Qed.

Lemma WriteBlock_sized (block : BlockRef) (r : Rep) :
  status_ok (status r) = true ->
  exists h f s o,
    WriteBlock env block r = Done (h, after_WriteBlock block r h f s o) /\
    handle_offset h = offset r /\
    wrote r f s o /\
    (status_ok s = true -> o = wrap64 (offset r + (handle_size h + kBlockTrailerSize))) /\
    (reliable (file r) -> s = OK).
Proof.
  intros Hok. rewrite (WriteBlock_eq env block r Hok). cbv zeta.
  destruct (choose_block_contents _ _ _) as [contents type].
  destruct (WriteRawBlock_sized contents type r) as (f & s & o & -> & Hw & Ho & Hr).
  eexists _, f, s, o. split; [destruct block; reflexivity|].
  split; [reflexivity|]. split; [exact Hw|]. split; [exact Ho|exact Hr].
Qed.

Lemma post_WriteBlock_sized (block : BlockRef) (r : Rep) (Q : BlockHandle -> Rep -> Prop) :
  status_ok (status r) = true ->
  (forall h f s o,
      handle_offset h = offset r -> wrote r f s o ->
      (status_ok s = true -> o = wrap64 (offset r + (handle_size h + kBlockTrailerSize))) ->
      (reliable (file r) -> s = OK) ->
      Q h (after_WriteBlock block r h f s o)) ->
  post (WriteBlock env block) r Q.
Proof.
  intros Hok HQ.
  destruct (WriteBlock_sized block r Hok) as (h & f & s & o & E & Hh & Hw & Ho & Hr).
  unfold post. rewrite E. now apply HQ.
Qed.

Lemma Flush_sized (r : Rep) :
  status_ok (status r) = true ->
  BlockBuilder_empty (data_block r) = false ->
  post (Flush env) r (fun _ r' =>
    exists h f s o,
      handle_offset h = offset r /\
      wrote r f s o /\
      (status_ok s = true -> o = wrap64 (offset r + (handle_size h + kBlockTrailerSize))) /\
      (reliable (file r) -> s = OK) /\
      r' = after_Flush r h f s o).
Proof.
  intros Hok Hne. unfold Flush.
  mlines. rewrite Hok. cbn [negb].
  mlines. rewrite Hne.
  mlines.
  apply post_WriteBlock_sized; [exact Hok|]. intros h f s o Hh Hw Ho Hr.
  mlines.
  assert (Hst : status (after_WriteBlock data_block_ref r h f s o) = s) by reflexivity.
  rewrite Hst.
  mstep.
  - msteps; exists h, f, s, o;
      (split; [exact Hh|split; [exact Hw|split; [exact Ho|split; [exact Hr|]]]]);
      unfold after_Flush, start_filter_block; rewrite Hwhen; cbn [file_call fst snd];
      cbn in Hopt; cbn; rewrite Hopt; reflexivity.
  - msteps; exists h, f, s, o;
      (split; [exact Hh|split; [exact Hw|split; [exact Ho|split; [exact Hr|]]]]);
      unfold after_Flush, start_filter_block; rewrite Hwhen;
      cbn in Hopt; cbn; rewrite Hopt; reflexivity.
Qed.

Lemma tiles_snoc (a b : Z) (hs : list BlockHandle) (h : BlockHandle) :
  tiles a hs b -> handle_offset h = b ->
  tiles a (hs ++ [h]) (wrap64 (b + (handle_size h + kBlockTrailerSize))).
Proof.
  revert a. induction hs as [|h0 hs IH]; cbn [tiles app]; intros a.
  - intros -> ->. auto.
  - intros [Ha Ht] Hh. split; [exact Ha|]. now apply IH.
Qed.

Lemma blocks_started_call fb c :
  blocks_started (filter_call c fb) =
  blocks_started fb ++ match c with StartBlock o => [o] | _ => [] end.
Proof.
  unfold blocks_started, filter_call. cbn [filter_calls]. rewrite flat_map_app. cbn.
  now rewrite app_nil_r.
Qed.

Lemma NewTableBuilder_laid_out opt f : laid_out (NewTableBuilder opt f).
Proof.
  unfold NewTableBuilder, Rep_new.
  destruct (filter_policy opt); constructor; cbn; auto; try discriminate.
  now intros _ fb [= <-].
Qed.

Lemma laid_out_after_Flush (r : Rep) h f s o :
  laid_out r -> status_ok (status r) = true ->
  handle_offset h = offset r ->
  (status_ok s = true -> o = wrap64 (offset r + (handle_size h + kBlockTrailerSize))) ->
  laid_out (after_Flush r h f s o).
Proof.
  intros [Ht Hs Hi Hx] Hok Hh Ho.
  assert (Hoks : status_ok (status (after_Flush r h f s o)) = true -> status_ok s = true).
  { rewrite after_Flush_status. destruct (status_ok s) eqn:Es; [reflexivity|]. now rewrite Es. }
  constructor.
  - intros Hok'. rewrite after_Flush_written, after_Flush_offset, map_app.
    cbn [map w_handle]. rewrite (Ho (Hoks Hok')). apply tiles_snoc; auto.
  - intros Hok' fb. rewrite after_Flush_filter_block, after_Flush_written, after_Flush_offset.
    destruct (filter_block r) as [fb0|]; [|discriminate].
    cbn [option_map]. intros [= <-]. rewrite blocks_started_call, map_app.
    cbn [map w_handle]. rewrite (Hs Hok fb0 eq_refl), Hh, <- app_assoc. reflexivity.
  - unfold after_Flush, start_filter_block.
    destruct (status_ok s); cbn; destruct (filter_block r) eqn:E; cbn; rewrite ?E;
      exact Hi.
  - now rewrite after_Flush_index_block.
Qed.

Lemma Flush_laid_out : preserves laid_out (Flush env).
Proof.
  intros r HP.
  destruct (status_ok (status r)) eqn:Hok.
  - destruct (BlockBuilder_empty (data_block r)) eqn:He.
    + unfold Flush. mlines. rewrite Hok. cbn [negb]. mlines. rewrite He.
      mlines. exact HP.
    + eapply post_weaken; [apply Flush_sized; assumption|].
      intros _ r' (h & f & s & o & Hh & _ & Ho & _ & ->).
      now apply laid_out_after_Flush.
  - unfold Flush. mlines. rewrite Hok. cbn [negb]. mlines. exact HP.
Qed.

(** The state [Add] reaches before it decides whether to flush. *)
Lemma laid_out_after_Add_prefix (r r1 : Rep) key :
  laid_out r ->
  written r1 = written r -> offset r1 = offset r -> status r1 = status r ->
  index_block_options r1 = index_block_options r ->
  filter_block r1 = option_map (filter_call (AddKey key)) (filter_block r) ->
  (index_block r1 = index_block r \/
   exists k v, index_block r1 = BlockBuilder_Add (index_block_options r) k v (index_block r)) ->
  laid_out r1.
Proof.
  intros [Ht Hs Hi Hx] Hw Ho Hst Hio Hf Hidx. constructor.
  - rewrite Hst, Hw, Ho. exact Ht.
  - rewrite Hst, Hw, Ho, Hf. intros Hok fb.
    destruct (filter_block r) as [fb0|]; [|discriminate].
    cbn [option_map]. intros [= <-]. rewrite blocks_started_call, app_nil_r.
    now apply Hs.
  - now rewrite Hio.
  - destruct Hidx as [->|(k & v & ->)]; [exact Hx|].
    unfold BlockBuilder_Add. cbn [added]. apply Forall_app. split; [exact Hx|].
    constructor; [exact Hi|constructor].
Qed.

Lemma Add_laid_out key value : preserves laid_out (Add env key value).
Proof.
  intros r HP. unfold Add. mlines. mstep; [mlines; exact HP|].
  msteps; try apply Flush_laid_out;
    apply (laid_out_after_Add_prefix r _ key HP); rsimpl;
    first [ reflexivity
          | match goal with H : filter_block r = _ |- _ => rewrite H end; reflexivity
          | now left
          | right; eexists _, _; reflexivity ].
Qed.

Lemma ChangeOptions_laid_out o : preserves laid_out (ChangeOptions o).
Proof.
  intros r [Ht Hs Hi Hx]. unfold post. rewrite ChangeOptions_eq.
  destruct (N.eqb _ _); constructor; cbn; auto.
Qed.

Lemma run_laid_out ops :
  forallb building ops = true -> preserves laid_out (run env ops).
Proof.
  induction ops as [|op ops IH]; cbn [run forallb]; intros Hb.
  - intros r HP. exact HP.
  - apply andb_prop in Hb. destruct Hb as [Hop Hops].
    apply preserves_bind; [|intros _; now apply IH].
    destruct op; cbn [step]; try discriminate.
    + apply Add_laid_out.
    + exact Flush_laid_out.
    + apply preserves_bind; [apply ChangeOptions_laid_out|].
      intros _ r HP. exact HP.
Qed.

Lemma built_laid_out opt f ops r' :
  forallb building ops = true ->
  run env ops (NewTableBuilder opt f) = Done (tt, r') ->
  laid_out r'.
Proof.
  intros Hb Hrun.
  exact (post_Done _ _ _ _ _
           (run_laid_out ops Hb _ (NewTableBuilder_laid_out opt f)) Hrun).
Qed.

End Layout.

Section LayoutFacts.
Import TableBuilder BuilderLogic TableContents.

(** X4.  Fill a table through [Add], [Flush] and [ChangeOptions].  While the
    status is OK the data blocks tile the file: the first handle starts at
    offset 0, each later one starts where the block before it ended, that is
    [kBlockTrailerSize] bytes after the payload its handle spans, and the last
    block ends at [FileSize()].  Offsets are [uint64_t]. *)
Theorem data_blocks_tile_the_file :
  forall (env : Env) (opt : Options) (f : WritableFile) (ops : list Op) (r' : Rep),
    forallb building ops = true ->
    run env ops (NewTableBuilder opt f) = Done (tt, r') ->
    status_ok (status r') = true ->
    tiles 0 (map w_handle (written r')) (FileSize r').
Proof.
  intros env opt f ops r' Hb Hrun Hok.
  exact (lay_tiles _ (built_laid_out env opt f ops r' Hb Hrun) Hok).
Qed.

(** Two blocks of one pair each, two payload bytes and five trailer bytes
    per block. *)
Lemma data_blocks_tile_the_file_witness :
  let env := example_env false in
  let r0 := NewTableBuilder (example_options 2 kNoCompression None) reliable_file in
  let ops := [OpAdd (str "a") (str "1"); OpAdd (str "b") (str "2")] in
  let r' := after env ops r0 in
  forallb building ops = true /\
  run env ops r0 = Done (tt, r') /\
  status_ok (status r') = true /\
  map w_handle (written r') =
    [ {| handle_offset := 0; handle_size := 2 |}; {| handle_offset := 7; handle_size := 2 |} ] /\
  FileSize r' = 14 /\
  tiles 0 (map w_handle (written r')) (FileSize r').
Proof.
  intros env r0 ops r'.
  assert (Hb : forallb building ops = true) by reflexivity.
  assert (Hrun : run env ops r0 = Done (tt, r')) by (vm_compute; reflexivity).
  assert (Hok : status_ok (status r') = true) by (vm_compute; reflexivity).
  split; [exact Hb|]. split; [exact Hrun|]. split; [exact Hok|].
  split; [vm_compute; reflexivity|]. split; [vm_compute; reflexivity|].
  exact (data_blocks_tile_the_file env _ _ ops r' Hb Hrun Hok).
Defined.

(** X5.  A builder made with a filter policy tells its filter encoder where
    blocks start: [StartBlock(0)] at construction and [StartBlock(offset)]
    after each data block it writes.  While the status is OK the offsets given
    are therefore the start of every data block written, in order, followed by
    the current offset, where the next block will start. *)
Theorem filter_is_told_where_blocks_start :
  forall (env : Env) (opt : Options) (f : WritableFile) (ops : list Op) (r' : Rep)
         (fb : FilterBlockBuilder),
    forallb building ops = true ->
    run env ops (NewTableBuilder opt f) = Done (tt, r') ->
    status_ok (status r') = true ->
    filter_block r' = Some fb ->
    blocks_started fb =
      map (fun w => handle_offset (w_handle w)) (written r') ++ [FileSize r'].
Proof.
  intros env opt f ops r' fb Hb Hrun Hok Hfb.
  exact (lay_started _ (built_laid_out env opt f ops r' Hb Hrun) Hok fb Hfb).
Qed.

Lemma filter_is_told_where_blocks_start_witness :
  let env := example_env false in
  let r0 := NewTableBuilder (example_options 2 kNoCompression (Some 7%N)) reliable_file in
  let ops := [OpAdd (str "a") (str "1"); OpFlush; OpAdd (str "b") (str "2")] in
  let r' := after env ops r0 in
  let fb := {| policy := 7%N;
               filter_calls := [StartBlock 0; AddKey (str "a"); StartBlock 7;
                                AddKey (str "b"); StartBlock 14] |} in
  forallb building ops = true /\
  run env ops r0 = Done (tt, r') /\
  status_ok (status r') = true /\
  filter_block r' = Some fb /\
  blocks_started fb = [0; 7; 14] /\
  blocks_started fb =
    map (fun w => handle_offset (w_handle w)) (written r') ++ [FileSize r'].
Proof.
  intros env r0 ops r' fb.
  assert (Hb : forallb building ops = true) by reflexivity.
  assert (Hrun : run env ops r0 = Done (tt, r')) by (vm_compute; reflexivity).
  assert (Hok : status_ok (status r') = true) by (vm_compute; reflexivity).
  assert (Hfb : filter_block r' = Some fb) by (vm_compute; reflexivity).
  split; [exact Hb|]. split; [exact Hrun|]. split; [exact Hok|]. split; [exact Hfb|].
  split; [reflexivity|].
  exact (filter_is_told_where_blocks_start env _ _ ops r' fb Hb Hrun Hok Hfb).
Defined.

(** X6.  The index block is always built with a restart interval of 1: the
    constructor sets it in [index_block_options], [ChangeOptions] sets it again
    after copying the new options, and so every entry [Add] puts in the index
    block is added under interval 1, whatever interval the caller's options
    ask for. *)
Theorem index_block_restart_interval_is_one :
  forall (env : Env) (opt : Options) (f : WritableFile) (ops : list Op) (r' : Rep),
    forallb building ops = true ->
    run env ops (NewTableBuilder opt f) = Done (tt, r') ->
    block_restart_interval (index_block_options r') = 1 /\
    Forall (fun a => added_interval a = 1) (added (index_block r')).
Proof.
  intros env opt f ops r' Hb Hrun.
  pose proof (built_laid_out env opt f ops r' Hb Hrun) as H.
  split; [exact (lay_interval _ H)|exact (lay_index _ H)].
Qed.

(** The caller asks for interval 16, then 4; the data block follows, the
    index block does not. *)
Lemma index_block_restart_interval_is_one_witness :
  let env := example_env false in
  let r0 := NewTableBuilder (example_options 2 kNoCompression None) reliable_file in
  let ops := [OpAdd (str "a") (str "1");
              OpChangeOptions (set_block_restart_interval 4 (example_options 100 kNoCompression None));
              OpAdd (str "b") (str "2")] in
  let r' := after env ops r0 in
  forallb building ops = true /\
  run env ops r0 = Done (tt, r') /\
  map added_interval (added (data_block r')) = [4] /\
  map added_interval (added (index_block r')) = [1] /\
  block_restart_interval (index_block_options r') = 1 /\
  Forall (fun a => added_interval a = 1) (added (index_block r')).
Proof.
  intros env r0 ops r'.
  assert (Hb : forallb building ops = true) by reflexivity.
  assert (Hrun : run env ops r0 = Done (tt, r')) by (vm_compute; reflexivity).
  split; [exact Hb|]. split; [exact Hrun|].
  split; [vm_compute; reflexivity|]. split; [vm_compute; reflexivity|].
  exact (index_block_restart_interval_is_one env _ _ ops r' Hb Hrun).
Defined.

End LayoutFacts.

(** ** What no call changes *)

Section Durable.
Import TableBuilder BuilderLogic TableContents.
Variable env : Env.
Variable p : option ptr.

Lemma filter_fixed_call (r r' : Rep) c :
  filter_block r' = option_map (filter_call c) (filter_block r) ->
  filter_fixed p r -> filter_fixed p r'.
Proof.
  unfold filter_fixed. intros ->. destruct p, (filter_block r); cbn; auto.
Qed.

Lemma filter_fixed_same (r r' : Rep) :
  filter_block r' = filter_block r -> filter_fixed p r -> filter_fixed p r'.
Proof. unfold filter_fixed. now intros ->. Qed.

Lemma no_empty_same (r r' : Rep) :
  written r' = written r -> no_empty_data_block r -> no_empty_data_block r'.
Proof. unfold no_empty_data_block. now intros ->. Qed.

Lemma no_empty_snoc (r r' : Rep) w :
  written r' = written r ++ [w] -> (w_kind w = DataBlock -> w_entries w <> []) ->
  no_empty_data_block r -> no_empty_data_block r'.
Proof.
  unfold no_empty_data_block. intros -> Hw H. apply Forall_app. split; [exact H|].
  constructor; [exact Hw|constructor].
Qed.

Lemma durable_same (r r' : Rep) :
  written r' = written r -> filter_block r' = filter_block r ->
  durable p r -> durable p r'.
Proof.
  intros Hw Hf [H1 H2]. split; [now apply (no_empty_same r)|now apply (filter_fixed_same r)].
Qed.

Lemma entries_not_empty (b : BlockBuilder) :
  BlockBuilder_empty b = false -> entries b <> [].
Proof.
  unfold BlockBuilder_empty, entries. destruct (added b); [discriminate|].
  intros _. discriminate.
Qed.

Lemma NewTableBuilder_durable opt f : durable (filter_policy opt) (NewTableBuilder opt f).
Proof.
  unfold durable, no_empty_data_block, filter_fixed, NewTableBuilder, Rep_new.
  destruct (filter_policy opt); cbn; auto.
Qed.

Lemma Flush_durable : preserves (durable p) (Flush env).
Proof.
  intros r HP.
  destruct (status_ok (status r)) eqn:Hok.
  - destruct (BlockBuilder_empty (data_block r)) eqn:He.
    + unfold Flush. mlines. rewrite Hok. cbn [negb]. mlines. rewrite He.
      mlines. exact HP.
    + eapply post_weaken; [apply Flush_shape; assumption|].
      intros _ r' (_ & h & f & s & o & _ & _ & ->). destruct HP as [H1 H2]. split.
      * eapply no_empty_snoc; [apply after_Flush_written| |exact H1].
        intros _. cbn [w_entries]. now apply entries_not_empty.
      * eapply filter_fixed_call; [apply after_Flush_filter_block|exact H2].
  - unfold Flush. mlines. rewrite Hok. cbn [negb]. mlines. exact HP.
Qed.

Lemma Add_durable key value : preserves (durable p) (Add env key value).
Proof.
  intros r HP. unfold Add. mlines. mstep; [mlines; exact HP|].
  destruct HP as [H1 H2].
  msteps; try apply Flush_durable;
    (split; [exact H1|]);
    first [ exact H2
          | apply (filter_fixed_call r _ (AddKey key)); [|exact H2]; rsimpl;
            match goal with H : filter_block r = _ |- _ => rewrite H end; reflexivity ].
Qed.

Lemma ChangeOptions_durable o : preserves (durable p) (ChangeOptions o).
Proof.
  intros r HP. unfold post. rewrite ChangeOptions_eq.
  destruct (N.eqb _ _); exact HP.
Qed.

Lemma Finish_filter_block_durable : preserves (durable p) (Finish_filter_block env).
Proof.
  intros r [H1 H2]. unfold Finish_filter_block. msteps; try (split; assumption).
  apply post_WriteRawBlock. intros h' f' s' o' _. split; [exact H1|].
  apply (filter_fixed_call r _ FilterFinish); [|exact H2]. cbn. now rewrite Hopt.
Qed.

Lemma Finish_metaindex_block_durable h : preserves (durable p) (Finish_metaindex_block env h).
Proof.
  intros r [H1 H2]. unfold Finish_metaindex_block.
  msteps; try (split; assumption);
    (apply post_WriteBlock; [assumption|]); intros h' f' s' o' _ _;
    (split; [eapply no_empty_snoc; [reflexivity|discriminate|exact H1]|exact H2]).
Qed.

Lemma Finish_index_block_durable : preserves (durable p) (Finish_index_block env).
Proof.
  intros r [H1 H2]. unfold Finish_index_block.
  msteps; try (split; assumption);
    (apply post_WriteBlock; [assumption|]); intros h' f' s' o' _ _;
    (split; [eapply no_empty_snoc; [reflexivity|discriminate|exact H1]|exact H2]).
Qed.

Lemma Finish_footer_durable h1 h2 : preserves (durable p) (Finish_footer env h1 h2).
Proof. intros r HP. unfold Finish_footer. msteps; exact HP. Qed.

Lemma still_durable {A} (m : M A) :
  (forall r, post m r (fun _ r' =>
     written r' = written r /\ filter_block r' = filter_block r)) ->
  preserves (durable p) m.
Proof.
  intros H r HP. eapply post_weaken; [apply H|].
  intros a r' (Hw & Hf). now apply (durable_same r).
Qed.

Lemma Finish_durable : preserves (durable p) (Finish env).
Proof.
  unfold Finish.
  apply preserves_bind; [exact Flush_durable|intros _].
  apply preserves_bind; [apply still_durable; intros r; now mlines|intros c].
  apply preserves_bind; [apply still_durable; intros r; now mlines|intros _].
  apply preserves_bind; [apply still_durable; intros r; now mlines|intros _].
  apply preserves_bind; [exact Finish_filter_block_durable|intros fh].
  apply preserves_bind; [apply Finish_metaindex_block_durable|intros mh].
  apply preserves_bind; [exact Finish_index_block_durable|intros ih].
  apply preserves_bind; [apply Finish_footer_durable|intros _].
  apply still_durable; intros r; now mlines.
Qed.

Lemma step_durable op : preserves (durable p) (step env op).
Proof.
  destruct op as [key value| |o| |]; cbn [step].
  - apply Add_durable.
  - exact Flush_durable.
  - apply preserves_bind; [apply ChangeOptions_durable|].
    intros _ r HP. exact HP.
  - apply preserves_bind; [exact Finish_durable|].
    intros _ r HP. exact HP.
  - apply still_durable. intros r. unfold Abandon. now mlines.
Qed.

Lemma run_durable ops : preserves (durable p) (run env ops).
Proof.
  induction ops as [|op ops IH]; cbn [run].
  - intros r HP. exact HP.
  - apply preserves_bind; [apply step_durable|intros _; exact IH].
Qed.

End Durable.

Section DurableFacts.
Import TableBuilder BuilderLogic TableContents.

(** X7.  No data block is written empty.  Whatever methods are called on a
    builder, in whatever order and whether or not the writes succeed, every
    data block that went through [WriteBlock] held at least one pair:
    [Flush] returns before writing when the data block is empty, and that
    includes the [Flush] with which [Finish] starts. *)
Theorem no_data_block_is_written_empty :
  forall (env : Env) (opt : Options) (f : WritableFile) (ops : list Op) (r' : Rep),
    run env ops (NewTableBuilder opt f) = Done (tt, r') ->
    Forall (fun w => w_kind w = DataBlock -> w_entries w <> []) (written r').
Proof.
  intros env opt f ops r' Hrun.
  exact (proj1 (post_Done _ _ _ _ _
                  (run_durable env _ ops _ (NewTableBuilder_durable opt f)) Hrun)).
Qed.

(** Flushes on an empty builder, between pairs, and a final [Finish]: two
    data blocks, a metaindex block and an index block. *)
Lemma no_data_block_is_written_empty_witness :
  let env := example_env false in
  let r0 := NewTableBuilder (example_options 100 kNoCompression None) reliable_file in
  let ops := [OpFlush; OpAdd (str "a") (str "1"); OpFlush; OpFlush;
              OpAdd (str "b") (str "2"); OpFinish] in
  let r' := after env ops r0 in
  run env ops r0 = Done (tt, r') /\
  map w_kind (written r') = [DataBlock; DataBlock; MetaIndexBlock; IndexBlock] /\
  Forall (fun w => w_kind w = DataBlock -> w_entries w <> []) (written r').
Proof.
  intros env r0 ops r'.
  assert (Hrun : run env ops r0 = Done (tt, r')) by (vm_compute; reflexivity).
  split; [exact Hrun|]. split; [vm_compute; reflexivity|].
  exact (no_data_block_is_written_empty env _ _ ops r' Hrun).
Defined.

(** X8.  Whether a builder has a filter encoder, and for which policy, is
    settled by the options given to the constructor.  No later call changes
    it: [ChangeOptions] stores a new [filter_policy] in the options but neither
    creates, drops nor re-targets the encoder. *)
Theorem filter_encoder_is_fixed_at_construction :
  forall (env : Env) (opt : Options) (f : WritableFile) (ops : list Op) (r' : Rep),
    run env ops (NewTableBuilder opt f) = Done (tt, r') ->
    match filter_policy opt, filter_block r' with
    | Some q, Some fb => policy fb = q
    | None, None => True
    | _, _ => False
    end.
Proof.
  intros env opt f ops r' Hrun.
  exact (proj2 (post_Done _ _ _ _ _
                  (run_durable env _ ops _ (NewTableBuilder_durable opt f)) Hrun)).
Qed.

(** A builder made without a policy is given one through [ChangeOptions]:
    it still has no filter encoder. *)
Lemma filter_encoder_is_fixed_at_construction_witness :
  let env := example_env false in
  let opt := example_options 100 kNoCompression None in
  let r0 := NewTableBuilder opt reliable_file in
  let ops := [OpChangeOptions (example_options 100 kNoCompression (Some 7%N));
              OpAdd (str "a") (str "1")] in
  let r' := after env ops r0 in
  run env ops r0 = Done (tt, r') /\
  filter_policy (options r') = Some 7%N /\
  filter_block r' = None /\
  match filter_policy opt, filter_block r' with
  | Some q, Some fb => policy fb = q
  | None, None => True
  | _, _ => False
  end.
Proof.
  intros env opt r0 ops r'.
  assert (Hrun : run env ops r0 = Done (tt, r')) by (vm_compute; reflexivity).
  split; [exact Hrun|]. split; [vm_compute; reflexivity|]. split; [vm_compute; reflexivity|].
  exact (filter_encoder_is_fixed_at_construction env opt _ ops r' Hrun).
Defined.

End DurableFacts.

(** ** The life of a builder *)

Section Lifecycle.
Import TableBuilder BuilderLogic TableContents.
Variable env : Env.

Lemma keeps_closed {A} (m : M A) :
  (forall r, post m r (fun _ r' => closed r' = closed r)) ->
  preserves (fun r => closed r = true) m.
Proof.
  intros H r HP. eapply post_weaken; [apply H|]. intros a r' Hc. cbv beta in *. congruence.
Qed.

Lemma Finish_filter_block_closed r :
  post (Finish_filter_block env) r (fun _ r' => closed r' = closed r).
Proof.
  unfold Finish_filter_block. msteps; try reflexivity.
  apply post_WriteRawBlock. intros h' f' s' o' _. reflexivity.
Qed.

Lemma Finish_metaindex_block_closed h r :
  post (Finish_metaindex_block env h) r (fun _ r' => closed r' = closed r).
Proof.
  unfold Finish_metaindex_block. msteps; try reflexivity;
    (apply post_WriteBlock; [assumption|]); intros h' f' s' o' _ _; reflexivity.
Qed.

Lemma Finish_index_block_closed r :
  post (Finish_index_block env) r (fun _ r' => closed r' = closed r).
Proof.
  unfold Finish_index_block. msteps; try reflexivity;
    (apply post_WriteBlock; [assumption|]); intros h' f' s' o' _ _; reflexivity.
Qed.

Lemma Finish_footer_closed h1 h2 r :
  post (Finish_footer env h1 h2) r (fun _ r' => closed r' = closed r).
Proof. unfold Finish_footer. msteps; reflexivity. Qed.

Lemma Finish_closes r : post (Finish env) r (fun _ r' => closed r' = true).
Proof.
  unfold Finish. apply post_bind.
  destruct (Flush env r) as [[[] r1]|] eqn:E; unfold post at 1; rewrite E; [|exact I].
  do 6 mline.
  assert (H : preserves (fun r => closed r = true)
                (fh <- Finish_filter_block env ;;
                 mh <- Finish_metaindex_block env fh ;;
                 ih <- Finish_index_block env ;;
                 Finish_footer env mh ih ;; gets status)%builder).
  { apply preserves_bind; [apply keeps_closed, Finish_filter_block_closed|intros fh].
    apply preserves_bind; [apply keeps_closed, Finish_metaindex_block_closed|intros mh].
    apply preserves_bind; [apply keeps_closed, Finish_index_block_closed|intros ih].
    apply preserves_bind; [apply keeps_closed, Finish_footer_closed|intros _].
    apply keeps_closed. intros r0. now mlines. }
  apply (H (set_closed true r1)). reflexivity.
Qed.

Lemma DeleteTableBuilder_eq r :
  DeleteTableBuilder env r =
  if ndebug env || closed r then Done (tt, r) else Abort AssertionFailure.
Proof. reflexivity. Qed.

End Lifecycle.

Section LifecycleFacts.
Import TableBuilder BuilderLogic TableContents.

(** X9.  In a build with assertions, [Finish] and [Abandon] end the life of
    a builder: once either has returned, the destructor's assertion holds, and
    each of [Add], [Flush], [Finish] and [Abandon] stops at its
    [assert(!r->closed)] ([Finish] at the one in the [Flush] it starts
    with). *)
Theorem closed_builder_rejects_calls :
  forall (env : Env) (r : Rep) (st : Status) (r1 : Rep),
    ndebug env = false ->
    Finish env r = Done (st, r1) \/ Abandon env r = Done (tt, r1) ->
    DeleteTableBuilder env r1 = Done (tt, r1) /\
    (forall key value, Add env key value r1 = Abort AssertionFailure) /\
    Flush env r1 = Abort AssertionFailure /\
    Finish env r1 = Abort AssertionFailure /\
    Abandon env r1 = Abort AssertionFailure.
Proof.
  intros env r st r1 Hn H.
  assert (Hc : closed r1 = true).
  { destruct H as [H|H].
    - exact (post_Done _ _ _ _ _ (Finish_closes env r) H).
    - destruct (may_call_or_not env r) as [Hm|[_ Hcl]].
      + rewrite (Abandon_eq env r Hm) in H. now injection H as <-.
      + now rewrite (Abandon_closed env r Hn Hcl) in H. }
  split; [|split; [|split; [|split]]].
  - rewrite DeleteTableBuilder_eq, Hc. now rewrite orb_true_r.
  - intros key value. now apply Add_closed.
  - now apply Flush_closed.
  - now apply Finish_closed.
  - now apply Abandon_closed.
Qed.

Lemma closed_builder_rejects_calls_witness :
  let env := example_env false in
  let r := after env [OpAdd (str "a") (str "1")]
             (NewTableBuilder (example_options 100 kNoCompression None) reliable_file) in
  let r1 := after env [OpFinish] r in
  ndebug env = false /\
  Finish env r = Done (OK, r1) /\
  DeleteTableBuilder env r1 = Done (tt, r1) /\
  Add env (str "b") (str "2") r1 = Abort AssertionFailure /\
  Finish env r1 = Abort AssertionFailure.
Proof.
  intros env r r1.
  assert (Hfin : Finish env r = Done (OK, r1)) by (vm_compute; reflexivity).
  split; [reflexivity|]. split; [exact Hfin|].
  destruct (closed_builder_rejects_calls env r OK r1 eq_refl (or_introl Hfin))
    as (Hd & Ha & _ & Hf & _).
  split; [exact Hd|]. split; [apply Ha|exact Hf].
Defined.

(** X10.  In a build with assertions the destructor stops a builder that
    was only filled: [Add], [Flush] and [ChangeOptions] never set [closed], so
    [assert(rep_->closed)] fails unless [Finish] or [Abandon] was called. *)
Theorem destructor_catches_unfinished_builder :
  forall (env : Env) (opt : Options) (f : WritableFile) (ops : list Op) (r' : Rep),
    ndebug env = false ->
    forallb building ops = true ->
    run env ops (NewTableBuilder opt f) = Done (tt, r') ->
    DeleteTableBuilder env r' = Abort AssertionFailure.
Proof.
  intros env opt f ops r' Hn Hb Hrun.
  pose proof (post_Done _ _ _ _ _
                (run_filling env (comparator opt) ops Hb _
                   (NewTableBuilder_filling env (comparator opt) opt f eq_refl)) Hrun)
    as Hfill.
  rewrite DeleteTableBuilder_eq, Hn, (fill_open _ _ _ Hfill). reflexivity.
Qed.

Lemma destructor_catches_unfinished_builder_witness :
  let env := example_env false in
  let r0 := NewTableBuilder (example_options 2 kNoCompression None) reliable_file in
  let ops := [OpAdd (str "a") (str "1"); OpFlush] in
  let r' := after env ops r0 in
  ndebug env = false /\
  forallb building ops = true /\
  run env ops r0 = Done (tt, r') /\
  DeleteTableBuilder env r' = Abort AssertionFailure.
Proof.
  intros env r0 ops r'.
  assert (Hb : forallb building ops = true) by reflexivity.
  assert (Hrun : run env ops r0 = Done (tt, r')) by (vm_compute; reflexivity).
  split; [reflexivity|]. split; [exact Hb|]. split; [exact Hrun|].
  exact (destructor_catches_unfinished_builder env _ _ ops r' eq_refl Hb Hrun).
Defined.

End LifecycleFacts.

(** ** Keys in order *)

Section Ascending.
Import TableBuilder BuilderLogic TableContents.
Variable env : Env.
Variable c0 : ptr.

Local Abbreviation cmp := (comparator_at env c0).

Lemma ascending_snoc (keys : list Slice) (k : Slice) :
  ascending cmp keys ->
  (keys = [] \/ 0 < Compare cmp k (last keys [])) ->
  ascending cmp (keys ++ [k]).
Proof.
  induction keys as [|k1 keys IH]; [intros; exact I|].
  intros Ha Hl. destruct keys as [|k2 keys].
  - cbn. destruct Hl as [Hl|Hl]; [discriminate|]. cbn in Hl. auto.
  - cbn [app ascending] in *. destruct Ha as [H12 Ha]. split; [exact H12|].
    apply IH; [exact Ha|]. right. destruct Hl as [Hl|Hl]; [discriminate|exact Hl].
Qed.

Lemma Add_ascending key value l (r : Rep) :
  ndebug env = false ->
  stores r l -> comparator (options r) = c0 -> status_ok (status r) = true ->
  ascending cmp (map fst l) ->
  post (Add env key value) r (fun _ _ => ascending cmp (map fst (l ++ [(key, value)]))).
Proof.
  intros Hn (_ & Hnum & Hlast & _) Hc Hok Ha. unfold Add. mlines. rewrite Hok. cbn [negb].
  do 3 mline. apply post_when; intros Hwhen.
  - mline. apply post_const. rewrite map_app. cbn [map fst]. apply ascending_snoc; [exact Ha|].
    right.
    match goal with H : ndebug env || (0 <? _) = true |- _ => rename H into Hcmp end.
    rewrite Hn in Hcmp. cbn [orb] in Hcmp. apply Z.ltb_lt in Hcmp.
    unfold the_comparator in Hcmp. now rewrite Hc, Hlast in Hcmp.
  - apply post_const. apply Z.ltb_ge in Hwhen. rewrite Hnum in Hwhen.
    destruct l; [exact I|]. cbn [List.length] in Hwhen. lia.
Qed.

Lemma step_filling op : building op = true -> preserves (filling env c0) (step env op).
Proof.
  intros Hb. destruct op; cbn [step]; try discriminate.
  - apply Add_filling.
  - apply Flush_filling.
  - apply preserves_bind; [apply ChangeOptions_filling|].
    intros _ r HP. exact HP.
Qed.

Lemma step_ascending op l (r : Rep) :
  ndebug env = false -> building op = true ->
  stores r l -> comparator (options r) = c0 -> status_ok (status r) = true ->
  ascending cmp (map fst l) ->
  post (step env op) r (fun _ _ => ascending cmp (map fst (l ++ adds_of [op]))).
Proof.
  intros Hn Hb Hs Hc Hok Ha. destruct op as [key value| |o| |]; cbn [adds_of];
    try discriminate; rewrite ?app_nil_r; try (now apply post_const).
  now apply Add_ascending.
Qed.

Lemma run_ascending ops :
  ndebug env = false ->
  forallb building ops = true ->
  forall r l,
    filling env c0 r ->
    (status_ok (status r) = true -> stores r l /\ ascending cmp (map fst l)) ->
    post (run env ops) r (fun _ r' =>
      status_ok (status r') = true -> ascending cmp (map fst (l ++ adds_of ops))).
Proof.
  intros Hn. induction ops as [|op ops IH]; cbn [run forallb]; intros Hb r l Hf HP.
  - unfold post, ret. cbn [adds_of]. rewrite app_nil_r. intros Hok. now apply HP.
  - apply andb_prop in Hb. destruct Hb as [Hop Hops]. apply post_bind.
    eapply post_weaken.
    + apply post_conj; [apply (step_filling op Hop r Hf)|].
      apply (while_ok (step env op)
               (fun r => stores r l /\ ascending cmp (map fst l))
               (fun r' => stores r' (l ++ adds_of [op]) /\
                          ascending cmp (map fst (l ++ adds_of [op])))
               r (step_advance env op)); [|exact HP].
      intros Hok [Hs Ha]. apply post_conj.
      * now apply step_stores.
      * apply step_ascending; auto. exact (fill_comparator _ _ _ Hf).
    + intros a r1 [Hf1 H1]. cbv beta in *.
      replace (l ++ adds_of (op :: ops)) with ((l ++ adds_of [op]) ++ adds_of ops).
      * now apply IH.
      * rewrite <- app_assoc. f_equal. destruct op; reflexivity.
Qed.

End Ascending.

Section AscendingFacts.
Import TableBuilder BuilderLogic TableContents.

(** X11.  In a build with assertions, a table that was filled with fewer
    than 2^63 pairs without stopping at an assertion and whose status is OK
    took its keys in strictly ascending order under the comparator the builder
    was made with: [Add] asserts that each key compares above the one before
    it, and [ChangeOptions] cannot change the comparator.  The bound keeps the
    counter [num_entries], an [int64_t] in the source and an unbounded integer
    here, within the range of the source's type, where [r->num_entries > 0]
    holds from the second pair on. *)
Theorem keys_ascend_in_debug_builds :
  forall (env : Env) (opt : Options) (f : WritableFile) (ops : list Op) (r' : Rep),
    ndebug env = false ->
    forallb building ops = true ->
    Z.of_nat (List.length (adds_of ops)) < 2 ^ 63 ->
    run env ops (NewTableBuilder opt f) = Done (tt, r') ->
    status_ok (status r') = true ->
    0 <= num_entries r' < 2 ^ 63 /\
    ascending (comparator_at env (comparator opt)) (map fst (adds_of ops)).
Proof.
  intros env opt f ops r' Hn Hb Hbound Hrun Hok. split.
  - destruct (built_stores env opt f ops r' Hb Hrun Hok) as (_ & Hnum & _).
    rewrite Hnum. lia.
  - apply (post_Done _ _ _ _ _
             (run_ascending env (comparator opt) ops Hn Hb (NewTableBuilder opt f) []
                (NewTableBuilder_filling env (comparator opt) opt f eq_refl)
                (fun _ => conj (NewTableBuilder_stores opt f) I)) Hrun Hok).
Qed.

Lemma keys_ascend_in_debug_builds_witness :
  let env := example_env false in
  let opt := example_options 4 kNoCompression None in
  let r0 := NewTableBuilder opt reliable_file in
  let ops := [OpAdd (str "a") (str "1"); OpAdd (str "ab") (str "2"); OpAdd (str "b") (str "3")] in
  let r' := after env ops r0 in
  ndebug env = false /\
  forallb building ops = true /\
  Z.of_nat (List.length (adds_of ops)) < 2 ^ 63 /\
  run env ops r0 = Done (tt, r') /\
  status_ok (status r') = true /\
  ascending bytewise [str "a"; str "ab"; str "b"].
Proof.
  intros env opt r0 ops r'.
  assert (Hb : forallb building ops = true) by reflexivity.
  assert (Hbound : Z.of_nat (List.length (adds_of ops)) < 2 ^ 63) by reflexivity.
  assert (Hrun : run env ops r0 = Done (tt, r')) by (vm_compute; reflexivity).
  assert (Hok : status_ok (status r') = true) by (vm_compute; reflexivity).
  split; [reflexivity|]. split; [exact Hb|]. split; [exact Hbound|].
  split; [exact Hrun|]. split; [exact Hok|].
  exact (proj2 (keys_ascend_in_debug_builds env opt _ ops r' eq_refl Hb Hbound Hrun Hok)).
Defined.

End AscendingFacts.

(** ** Calls that return *)

Section ReturningRules.
Import TableBuilder BuilderLogic TableContents.
Variable env : Env.

Lemma returning_ret {A} (a : A) r (Q : A -> Rep -> Prop) : Q a r -> returning (ret a) r Q.
Proof. exact (fun H => H). Qed.

Lemma returning_bind {A B} (m : M A) (k : A -> M B) r (Q : B -> Rep -> Prop) :
  returning m r (fun a r' => returning (k a) r' Q) -> returning (bind m k) r Q.
Proof. unfold returning, bind. destruct (m r) as [[a r']|]; auto. Qed.

Lemma returning_get r (Q : Rep -> Rep -> Prop) : Q r r -> returning get r Q.
Proof. exact (fun H => H). Qed.

Lemma returning_gets {A} (f : Rep -> A) r (Q : A -> Rep -> Prop) :
  Q (f r) r -> returning (gets f) r Q.
Proof. exact (fun H => H). Qed.

Lemma returning_modify (f : Rep -> Rep) r (Q : unit -> Rep -> Prop) :
  Q tt (f r) -> returning (modify f) r Q.
Proof. exact (fun H => H). Qed.

Lemma returning_assert (b : bool) r (Q : unit -> Rep -> Prop) :
  ndebug env || b = true -> Q tt r -> returning (assert env b) r Q.
Proof. unfold returning, assert. now intros ->. Qed.

Lemma returning_ok r (Q : bool -> Rep -> Prop) :
  Q (status_ok (status r)) r -> returning ok r Q.
Proof. exact (fun H => H). Qed.

Lemma returning_when (b : bool) (m : M unit) r (Q : unit -> Rep -> Prop) :
  (b = true -> returning m r Q) -> (b = false -> Q tt r) -> returning (when b m) r Q.
Proof. destruct b; cbn; auto. Qed.

Lemma returning_file_Append (data : Slice) r (Q : Status -> Rep -> Prop) :
  Q (fst (file_call (Append data) (file r)))
    (set_file (snd (file_call (Append data) (file r))) r) ->
  returning (file_Append data) r Q.
Proof. exact (fun H => H). Qed.

Lemma returning_file_Flush r (Q : Status -> Rep -> Prop) :
  Q (fst (file_call FlushFile (file r))) (set_file (snd (file_call FlushFile (file r))) r) ->
  returning file_Flush r Q.
Proof. exact (fun H => H). Qed.

Lemma returning_weaken {A} (m : M A) r (Q Q' : A -> Rep -> Prop) :
  returning m r Q -> (forall a r', Q a r' -> Q' a r') -> returning m r Q'.
Proof. unfold returning. destruct (m r) as [[a r']|]; auto. Qed.

Lemma returning_Done {A} (m : M A) r (Q : A -> Rep -> Prop) :
  returning m r Q -> exists a r', m r = Done (a, r') /\ Q a r'.
Proof. unfold returning. destruct (m r) as [[a r']|]; [eauto|tauto]. Qed.

Lemma returning_of_Done {A} (m : M A) r (Q : A -> Rep -> Prop) a r' :
  m r = Done (a, r') -> Q a r' -> returning m r Q.
Proof. unfold returning. now intros ->. Qed.

Lemma returning_post {A} (m : M A) r (Q1 Q2 : A -> Rep -> Prop) :
  returning m r Q1 -> post m r Q2 -> returning m r (fun a r' => Q1 a r' /\ Q2 a r').
Proof. unfold returning, post. destruct (m r) as [[a r']|]; auto. Qed.

(** A computation that aborts after a first part that returns. *)
Lemma bind_aborts {A B} (m : M A) (k : A -> M B) r why :
  returning m r (fun a r' => k a r' = Abort why) -> bind m k r = Abort why.
Proof. unfold returning, bind. destruct (m r) as [[a r']|]; tauto. Qed.

End ReturningRules.

(** One step through a method body that must return. *)
Ltac tline :=
  lazymatch goal with
  | |- TableContents.returning (TableBuilder.bind _ _) _ _ => apply returning_bind
  | |- TableContents.returning (TableBuilder.ret _) _ _ => apply returning_ret
  | |- TableContents.returning TableBuilder.get _ _ => apply returning_get
  | |- TableContents.returning (TableBuilder.gets _) _ _ => apply returning_gets
  | |- TableContents.returning (TableBuilder.modify _) _ _ => apply returning_modify
  | |- TableContents.returning TableBuilder.ok _ _ => apply returning_ok
  | |- TableContents.returning (TableBuilder.file_Append _) _ _ => apply returning_file_Append
  | |- TableContents.returning TableBuilder.file_Flush _ _ => apply returning_file_Flush
  end; cbv beta; rsimpl.

Ltac tlines := repeat tline.

Section Returning.
Import TableBuilder BuilderLogic TableContents.
Variable env : Env.

(** [WriteBlock] returns whenever the status is OK. *)
Lemma WriteBlock_returning (block : BlockRef) (r : Rep) (Q : BlockHandle -> Rep -> Prop) :
  status_ok (status r) = true ->
  (forall h f s o,
      handle_offset h = offset r -> wrote r f s o ->
      (status_ok s = true -> o = wrap64 (offset r + (handle_size h + kBlockTrailerSize))) ->
      (reliable (file r) -> s = OK) ->
      Q h (after_WriteBlock block r h f s o)) ->
  returning (WriteBlock env block) r Q.
Proof.
  intros Hok HQ.
  destruct (WriteBlock_sized env block r Hok) as (h & f & s & o & E & Hh & Hw & Ho & Hr).
  unfold returning. rewrite E. now apply HQ.
Qed.

Lemma WriteRawBlock_returning contents type (r : Rep) (Q : BlockHandle -> Rep -> Prop) :
  (forall f s o,
      wrote r f s o ->
      (status_ok s = true -> o = wrap64 (offset r + (size contents + kBlockTrailerSize))) ->
      (reliable (file r) -> s = OK) ->
      Q {| handle_offset := offset r; handle_size := size contents |} (io r f s o)) ->
  returning (WriteRawBlock contents type) r Q.
Proof.
  intros HQ.
  destruct (WriteRawBlock_sized contents type r) as (f & s & o & E & Hw & Ho & Hr).
  unfold returning. rewrite E. now apply HQ.
Qed.

(** [Flush] returns when its assertions hold. *)
Lemma Flush_returning (r : Rep) :
  may_call env r -> pending_only_if_empty r ->
  returning (Flush env) r (fun _ _ => True).
Proof.
  intros Hc Hp.
  destruct (status_ok (status r)) eqn:Hok;
    [|eapply returning_of_Done; [now apply Flush_not_ok|exact I]].
  destruct (BlockBuilder_empty (data_block r)) eqn:He;
    [eapply returning_of_Done; [now apply Flush_empty|exact I]|].
  assert (Hp0 : pending_index_entry r = false).
  { destruct (pending_index_entry r) eqn:E; [|reflexivity]. specialize (Hp E). congruence. }
  destruct (WriteBlock_shape env data_block_ref r Hok) as (h & f & s & o & E & _).
  eapply returning_of_Done; [exact (Flush_after_WriteBlock env r h _ Hc Hok He Hp0 E)|exact I].
Qed.

(** [Add] up to its size test. *)
Lemma Add_eq key value (r : Rep) :
  ndebug env = true \/ Add_asserts env key r ->
  status_ok (status r) = true ->
  Add env key value r =
  let r1 := Add_pair env key value r in
  when (block_size (options r1) <=?
        BlockBuilder_CurrentSizeEstimate env (added (data_block r1)))
    (Flush env) r1.
Proof.
  intros Ha Hok.
  assert (H1 : ndebug env || negb (closed r) = true).
  { destruct Ha as [->|(-> & _)]; [reflexivity|apply orb_true_r]. }
  assert (H2 : (0 <? num_entries r) = true ->
               ndebug env || (0 <? Compare (the_comparator env r) key (last_key r)) = true).
  { intros Hn. destruct Ha as [->|(_ & Hc & _)]; [reflexivity|].
    apply Z.ltb_lt in Hn. apply Hc in Hn. apply Z.ltb_lt in Hn. rewrite Hn.
    apply orb_true_r. }
  assert (H3 : pending_index_entry r = true ->
               ndebug env || BlockBuilder_empty (data_block r) = true).
  { intros Hp. destruct Ha as [->|(_ & _ & He)]; [reflexivity|].
    rewrite (He Hp). apply orb_true_r. }
  unfold Add. unfold bind at 1. unfold gets at 1. unfold bind at 1. unfold assert at 1.
  rewrite H1. unfold bind at 1. unfold ok at 1, gets at 1. rewrite Hok. cbn [negb].
  unfold bind at 1. unfold get at 1. unfold bind at 1.
  unfold Add_pair, Add_filter_key, Add_index_entry.
  destruct (0 <? num_entries r) eqn:En.
  - unfold when at 1. unfold assert at 1. rewrite (H2 eq_refl).
    destruct (pending_index_entry r) eqn:Ep.
    + unfold bind at 1. unfold when at 1. unfold bind at 1. unfold assert at 1.
      rewrite (H3 eq_refl).
      unfold bind, modify, get, ret. cbv beta iota zeta. rsimpl.
      destruct (filter_block r); reflexivity.
    + unfold bind, when, modify, get, ret. cbv beta iota zeta. rsimpl.
      destruct (filter_block r); reflexivity.
  - unfold when at 1. unfold ret at 1.
    destruct (pending_index_entry r) eqn:Ep.
    + unfold bind at 1. unfold when at 1. unfold bind at 1. unfold assert at 1.
      rewrite (H3 eq_refl).
      unfold bind, modify, get, ret. cbv beta iota zeta. rsimpl.
      destruct (filter_block r); reflexivity.
    + unfold bind, when, modify, get, ret. cbv beta iota zeta. rsimpl.
      destruct (filter_block r); reflexivity.
Qed.

End Returning.

Section AddFacts.
Import TableBuilder BuilderLogic TableContents.

Lemma Add_pair_frame (env : Env) key value (r : Rep) :
  let r1 := Add_pair env key value r in
  file r1 = file r /\ written r1 = written r /\ offset r1 = offset r /\
  status r1 = status r /\ closed r1 = closed r /\ options r1 = options r /\
  pending_index_entry r1 = false /\
  added (data_block r1) =
    added (data_block r) ++
      [ {| added_interval := block_restart_interval (options r);
           added_key := key; added_value := value |} ].
Proof.
  unfold Add_pair, Add_filter_key, Add_index_entry.
  destruct (pending_index_entry r) eqn:Ep; cbn; destruct (filter_block r); cbn;
    repeat split; auto.
Qed.

(** X12.  [Add] on a builder whose status is OK, when the conditions it
    asserts hold or assertions are compiled out, returns, and what it does
    turns on one test, made after the pair has joined the data block: if the
    encoder's size estimate is below [block_size] the pair is only buffered and
    the file, the offset and the history of writes are untouched; otherwise
    everything buffered, the new pair included, goes out as one data block at
    the current offset, whose handle becomes the pending handle, and the data
    block is left empty. *)
Theorem Add_buffers_until_block_size :
  forall (env : Env) (key value : Slice) (r : Rep),
    ndebug env = true \/ Add_asserts env key r ->
    status_ok (status r) = true ->
    let pairs := entries (data_block r) ++ [(key, value)] in
    let estimate :=
      BlockBuilder_CurrentSizeEstimate env
        (added (data_block r) ++
           [ {| added_interval := block_restart_interval (options r);
                added_key := key; added_value := value |} ]) in
    exists r',
      Add env key value r = Done (tt, r') /\
      if block_size (options r) <=? estimate then
        data_block r' = BlockBuilder_new /\
        exists h s,
          written r' = written r ++
            [ {| w_kind := DataBlock; w_entries := pairs; w_handle := h; w_status := s |} ] /\
          pending_handle r' = h /\ handle_offset h = offset r
      else
        entries (data_block r') = pairs /\
        file r' = file r /\ offset r' = offset r /\ written r' = written r.
Proof.
  intros env key value r Ha Hok pairs estimate.
  rewrite (Add_eq env key value r Ha Hok). cbv zeta.
  destruct (Add_pair_frame env key value r) as (Hf & Hw & Ho & Hs & Hc & Hopt & Hp & Hadd).
  set (r1 := Add_pair env key value r) in *.
  rewrite Hopt, Hadd. fold estimate.
  assert (He : entries (data_block r1) = pairs).
  { unfold entries. rewrite Hadd, map_app. reflexivity. }
  destruct (block_size (options r) <=? estimate); cbn [when].
  - assert (Hok1 : status_ok (status r1) = true) by now rewrite Hs.
    assert (Hne : BlockBuilder_empty (data_block r1) = false).
    { unfold BlockBuilder_empty. rewrite Hadd. now destruct (added (data_block r)). }
    assert (Hc1 : may_call env r1).
    { unfold may_call. rewrite Hc. destruct Ha as [Hn|(Hcl & _)]; auto. }
    assert (Hp1 : pending_only_if_empty r1).
    { intros E. congruence. }
    destruct (returning_Done _ _ _
                (returning_post _ _ _ _ (Flush_returning env r1 Hc1 Hp1)
                   (Flush_shape env r1 Hok1 Hne)))
      as ([] & r' & E & _ & _ & h & f & s & o & Hh & _ & ->).
    exists (after_Flush r1 h f s o). split; [exact E|].
    split; [apply after_Flush_data_block|].
    exists h, s. rewrite after_Flush_written, after_Flush_pending_handle, Hw, He.
    split; [reflexivity|]. split; [reflexivity|congruence].
  - exists r1. split; [reflexivity|]. auto.
Qed.

(** With [block_size] 4, a pair of two bytes is buffered and the next one
    fills the block. *)
Lemma Add_buffers_until_block_size_witness :
  let env := example_env false in
  let r0 := NewTableBuilder (example_options 4 kNoCompression None) reliable_file in
  let r := after env [OpAdd (str "a") (str "1")] r0 in
  Add_asserts env (str "b") r /\
  status_ok (status r) = true /\
  written r = [] /\
  exists r',
    Add env (str "b") (str "2") r = Done (tt, r') /\
    data_block r' = BlockBuilder_new /\
    exists h s,
      written r' =
        [ {| w_kind := DataBlock; w_entries := [(str "a", str "1"); (str "b", str "2")];
             w_handle := h; w_status := s |} ] /\
      pending_handle r' = h /\ handle_offset h = 0.
Proof.
  intros env r0 r.
  assert (Ha : Add_asserts env (str "b") r).
  { split; [reflexivity|]. split; [intros _; vm_compute; reflexivity|].
    intros E. vm_compute in E. discriminate. }
  assert (Hok : status_ok (status r) = true) by (vm_compute; reflexivity).
  split; [exact Ha|]. split; [exact Hok|]. split; [vm_compute; reflexivity|].
  destruct (Add_buffers_until_block_size env (str "b") (str "2") r (or_intror Ha) Hok)
    as (r' & E & H).
  exists r'. split; [exact E|].
  change (block_size (options r) <=? _) with true in H. cbv iota in H.
  destruct H as (Hd & h & s & Hw & Hp & Hh).
  split; [exact Hd|]. exists h, s. split; [exact Hw|]. split; [exact Hp|exact Hh].
Defined.

End AddFacts.

(** ** [Finish] returns *)

Ltac tstep :=
  first
    [ tline
    | lazymatch goal with
      | |- TableContents.returning (TableBuilder.when _ _) _ _ =>
          apply returning_when; let H := fresh "Hwhen" in intros H
      | |- TableContents.returning (if ?b then _ else _) _ _ =>
          let H := fresh "Hif" in destruct b eqn:H
      | |- TableContents.returning (match ?x with Some _ => _ | None => _ end) _ _ =>
          let H := fresh "Hopt" in destruct x eqn:H
      end; cbv beta; rsimpl ].

Ltac tsteps := repeat tstep.

Section FinishReturns.
Import TableBuilder BuilderLogic TableContents.
Variable env : Env.

Lemma status_ok_OK (s : Status) : status_ok s = true -> s = OK.
Proof. destruct s; [reflexivity|discriminate]. Qed.

Lemma carries_on_refl r : carries_on r r.
Proof. repeat split; auto. apply status_ok_OK. Qed.

Lemma carries_on_trans r1 r2 r3 :
  carries_on r1 r2 -> carries_on r2 r3 -> carries_on r1 r3.
Proof.
  intros (Hc1 & Ho1 & Hf1 & Hr1) (Hc2 & Ho2 & Hf2 & Hr2).
  split; [congruence|]. split; [congruence|]. split; [tauto|].
  intros Hr. destruct (Hr1 Hr) as [Hr' Hs']. destruct (Hr2 Hr') as [Hr'' Hs''].
  split; [exact Hr''|]. intros Hok. apply Hs''. now rewrite (Hs' Hok).
Qed.

Lemma reliable_file_call c f : reliable f -> reliable (snd (file_call c f)).
Proof. intros H log c'. apply H. Qed.

Lemma reliable_status c f : reliable f -> fst (file_call c f) = OK.
Proof. intros H. apply H. Qed.

Lemma wrote_reliable r f s o : wrote r f s o -> reliable (file r) -> reliable f.
Proof. intros [Hr _] H log c. rewrite Hr. apply H. Qed.

(** A block write carries on. *)
Lemma carries_on_io (r : Rep) f s o :
  wrote r f s o -> (reliable (file r) -> s = OK) -> carries_on r (io r f s o).
Proof.
  intros Hw Hs. repeat split; cbn; auto;
    intros Hr; now apply (wrote_reliable r f s o).
Qed.

Lemma carries_on_after_WriteBlock block (r : Rep) h f s o :
  wrote r f s o -> (reliable (file r) -> s = OK) ->
  carries_on r (after_WriteBlock block r h f s o).
Proof.
  intros Hw Hs. unfold after_WriteBlock. destruct block; repeat split; cbn; auto;
    intros Hr; now apply (wrote_reliable r f s o).
Qed.

Lemma carries_on_after_Flush (r : Rep) h f s o :
  wrote r f s o -> (reliable (file r) -> s = OK) ->
  carries_on r (after_Flush r h f s o).
Proof.
  intros Hw Hs. split; [apply after_Flush_closed|]. split; [apply after_Flush_options|].
  split.
  - rewrite after_Flush_filter_block. destruct (filter_block r); cbn; split; congruence.
  - intros Hr. rewrite after_Flush_file, after_Flush_status, (Hs Hr). cbn [status_ok].
    pose proof (wrote_reliable r f s o Hw Hr) as Hf. split.
    + now apply reliable_file_call.
    + intros _. now apply reliable_status.
Qed.

Lemma Flush_carries (r : Rep) :
  post (Flush env) r (fun _ r' => carries_on r r').
Proof.
  destruct (status_ok (status r)) eqn:Hok.
  - destruct (BlockBuilder_empty (data_block r)) eqn:He.
    + unfold Flush. mlines. rewrite Hok. cbn [negb]. mlines. rewrite He.
      mlines. apply carries_on_refl.
    + eapply post_weaken; [apply Flush_sized; assumption|].
      intros _ r' (h & f & s & o & _ & Hw & _ & Hs & ->).
      now apply carries_on_after_Flush.
  - unfold Flush. mlines. rewrite Hok. cbn [negb]. mlines. apply carries_on_refl.
Qed.

Lemma carries_on_filter_call (r : Rep) fb c :
  filter_block r = Some fb ->
  carries_on r (set_filter_block (Some (filter_call c fb)) r).
Proof. intros E. repeat split; cbn; auto; try apply status_ok_OK; congruence. Qed.

Lemma Finish_filter_block_carries (r : Rep) :
  returning (Finish_filter_block env) r (fun _ r' => carries_on r r').
Proof.
  unfold Finish_filter_block. tsteps; try apply carries_on_refl.
  apply WriteRawBlock_returning. intros f' s' o' Hw _ Hs.
  eapply carries_on_trans; [apply (carries_on_filter_call r f FilterFinish Hopt)|].
  now apply carries_on_io.
Qed.

Lemma Finish_metaindex_block_carries h (r : Rep) :
  filter_block r = None \/ filter_policy (options r) <> None ->
  returning (Finish_metaindex_block env h) r (fun _ r' => carries_on r r').
Proof.
  intros Hf. unfold Finish_metaindex_block. tline. tline. tstep; [|tline; apply carries_on_refl].
  tline. tline. tline.
  destruct (filter_block r) as [fb|] eqn:Efb.
  - destruct (filter_policy (options r)) as [q|] eqn:Eq.
    + tline. apply WriteBlock_returning; [exact Hif|]. intros h' f' s' o' _ Hw _ Hs.
      now apply carries_on_after_WriteBlock.
    + exfalso. destruct Hf as [Hf|Hf]; congruence.
  - tline. apply WriteBlock_returning; [exact Hif|]. intros h' f' s' o' _ Hw _ Hs.
    now apply carries_on_after_WriteBlock.
Qed.

Lemma carries_on_index_entry (r : Rep) k ib :
  carries_on r (set_pending_index_entry false (set_index_block ib (set_last_key k r))).
Proof. repeat split; cbn; auto. apply status_ok_OK. Qed.

Lemma Finish_index_block_carries (r : Rep) :
  returning (Finish_index_block env) r (fun _ r' => carries_on r r').
Proof.
  unfold Finish_index_block. tline. tline. tstep; [|tline; apply carries_on_refl].
  tline. tline. tline. apply returning_when; intros Hwhen.
  - tlines. apply WriteBlock_returning; [exact Hif|]. intros h' f' s' o' _ Hw _ Hs.
    eapply carries_on_trans; [apply carries_on_index_entry|].
    apply carries_on_after_WriteBlock; [exact Hw|exact Hs].
  - apply WriteBlock_returning; [exact Hif|]. intros h' f' s' o' _ Hw _ Hs.
    now apply carries_on_after_WriteBlock.
Qed.

Lemma Finish_footer_carries h1 h2 (r : Rep) :
  returning (Finish_footer env h1 h2) r (fun _ r' => carries_on r r').
Proof.
  unfold Finish_footer. tsteps; try apply carries_on_refl;
    repeat split; cbn; auto;
    try (intros Hr; now apply reliable_file_call);
    intros Hr _; now apply reliable_status.
Qed.

(** The steps of [Finish] after it has flushed and set [closed]. *)
Lemma Finish_tail_carries (r : Rep) :
  filter_block r = None \/ filter_policy (options r) <> None ->
  returning (fh <- Finish_filter_block env ;;
             mh <- Finish_metaindex_block env fh ;;
             ih <- Finish_index_block env ;;
             Finish_footer env mh ih ;; gets status)%builder r
    (fun st r' => carries_on r r' /\ st = status r').
Proof.
  intros Hf. apply returning_bind.
  eapply returning_weaken; [apply Finish_filter_block_carries|]. intros fh r3 H3. cbv beta.
  apply returning_bind.
  eapply returning_weaken; [apply Finish_metaindex_block_carries|].
  - destruct H3 as (_ & Ho & Hfb & _). rewrite Ho. tauto.
  - intros mh r4 H4. cbv beta. apply returning_bind.
    eapply returning_weaken; [apply Finish_index_block_carries|]. intros ih r5 H5. cbv beta.
    apply returning_bind.
    eapply returning_weaken; [apply Finish_footer_carries|]. intros [] r6 H6. cbv beta.
    tline. split; [|reflexivity].
    eapply carries_on_trans; [exact H3|]. eapply carries_on_trans; [exact H4|].
    eapply carries_on_trans; [exact H5|exact H6].
Qed.

Lemma Finish_returning (r : Rep) :
  may_call env r -> pending_only_if_empty r ->
  filter_block r = None \/ filter_policy (options r) <> None ->
  returning (Finish env) r (fun st r' =>
    st = status r' /\ closed r' = true /\
    (reliable (file r) -> status_ok (status r) = true -> st = OK)).
Proof.
  intros Hc Hp Hf. unfold Finish. apply returning_bind.
  eapply returning_weaken;
    [apply returning_post; [apply (Flush_returning env r Hc Hp)|apply Flush_carries]|].
  intros [] r1 [_ H1]. cbv beta.
  tline. tline. apply returning_bind. apply returning_assert.
  { destruct H1 as (Hc1 & _). rewrite Hc1. now apply may_call_assert. }
  tline. tline.
  eapply returning_weaken; [apply Finish_tail_carries|].
  - destruct H1 as (_ & Ho & Hfb & _). cbn. rewrite Ho. tauto.
  - intros st r' [H2 ->]. split; [reflexivity|].
    destruct H2 as (Hc2 & _ & _ & Hr2). split; [exact Hc2|].
    intros Hr Hok. destruct H1 as (_ & _ & _ & Hr1). destruct (Hr1 Hr) as [Hr' Hs1].
    destruct (Hr2 Hr') as [_ Hs2]. apply Hs2. cbn. now rewrite (Hs1 Hok).
Qed.

(** [Finish] on a builder that has a filter encoder but whose options name
    no policy. *)
Lemma Finish_metaindex_block_null h (r : Rep) fb :
  status_ok (status r) = true -> filter_block r = Some fb ->
  filter_policy (options r) = None ->
  Finish_metaindex_block env h r = Abort NullDereference.
Proof.
  intros Hok Hfb Hp. unfold Finish_metaindex_block, bind, ok, gets, get.
  now rewrite Hok, Hfb, Hp.
Qed.

Lemma Finish_null (r : Rep) fb :
  may_call env r -> pending_only_if_empty r ->
  status_ok (status r) = true -> reliable (file r) ->
  filter_block r = Some fb -> filter_policy (options r) = None ->
  Finish env r = Abort NullDereference.
Proof.
  intros Hc Hp Hok Hr Hfb Hpol. unfold Finish. apply bind_aborts.
  eapply returning_weaken;
    [apply returning_post; [apply (Flush_returning env r Hc Hp)|apply Flush_carries]|].
  intros [] r1 [_ H1]. cbv beta.
  apply bind_aborts. tline. apply bind_aborts. apply returning_assert.
  { destruct H1 as (Hc1 & _). rewrite Hc1. now apply may_call_assert. }
  apply bind_aborts. tline. apply bind_aborts.
  eapply returning_weaken; [apply Finish_filter_block_carries|]. intros fh r3 H3. cbv beta.
  destruct H1 as (_ & Ho1 & Hf1 & Hr1). destruct (Hr1 Hr) as [Hr' Hs1].
  destruct H3 as (_ & Ho3 & Hf3 & Hr3). cbn in Ho3, Hf3, Hr3.
  destruct (Hr3 Hr') as [_ Hs3].
  destruct (filter_block r3) as [fb3|] eqn:Efb3.
  - unfold bind at 1. rewrite (Finish_metaindex_block_null fh r3 fb3).
    + reflexivity.
    + rewrite Hs3; [reflexivity|]. now rewrite (Hs1 Hok).
    + exact Efb3.
    + now rewrite Ho3, Ho1.
  - exfalso. assert (filter_block r = None) by tauto. congruence.
Qed.

End FinishReturns.

Section FinishFacts.
Import TableBuilder BuilderLogic TableContents.

(** X13.  [Finish] returns.  On an open builder (or with assertions
    compiled out) whose pending flag respects the invariant, and unless it has
    a filter encoder while its options name no policy, [Finish] does not stop
    at any assertion, whatever the file answers: it returns the builder's
    status and leaves the builder closed.  If the status was OK and the file
    accepts every call, the status returned is OK. *)
Theorem Finish_returns_and_closes :
  forall (env : Env) (r : Rep),
    may_call env r ->
    pending_only_if_empty r ->
    filter_block r = None \/ filter_policy (options r) <> None ->
    exists st r',
      Finish env r = Done (st, r') /\
      st = status r' /\ closed r' = true /\
      (reliable (file r) -> status_ok (status r) = true -> st = OK).
Proof.
  intros env r Hc Hp Hf.
  exact (returning_Done _ _ _ (Finish_returning env r Hc Hp Hf)).
Qed.

(** A file that refuses its first call: [Finish] returns the error. *)
Lemma Finish_returns_and_closes_witness :
  let env := example_env false in
  let r := after env [OpAdd (str "a") (str "1")]
             (NewTableBuilder (example_options 100 kNoCompression (Some 7%N))
                (file_failing_at 0)) in
  may_call env r /\
  pending_only_if_empty r /\
  (filter_block r = None \/ filter_policy (options r) <> None) /\
  Finish env r = Done (IOError "disk full", after env [OpFinish] r) /\
  exists st r',
    Finish env r = Done (st, r') /\ st = status r' /\ closed r' = true.
Proof.
  intros env r.
  assert (Hc : may_call env r) by (right; reflexivity).
  assert (Hp : pending_only_if_empty r) by (intros E; vm_compute in E; discriminate).
  assert (Hf : filter_block r = None \/ filter_policy (options r) <> None)
    by (right; vm_compute; discriminate).
  split; [exact Hc|]. split; [exact Hp|]. split; [exact Hf|].
  split; [vm_compute; reflexivity|].
  destruct (Finish_returns_and_closes env r Hc Hp Hf) as (st & r' & E & Hs & Hcl & _).
  exists st, r'. auto.
Defined.

(** X14.  A builder made with a filter policy keeps its filter encoder when
    [ChangeOptions] stores options that name no policy.  [Finish] on such a
    builder, once the data and filter blocks are written with the status still
    OK, calls [r->options.filter_policy->Name()] through the null pointer. *)
Theorem Finish_dereferences_null_policy :
  forall (env : Env) (r : Rep) (fb : FilterBlockBuilder),
    may_call env r ->
    pending_only_if_empty r ->
    status_ok (status r) = true ->
    reliable (file r) ->
    filter_block r = Some fb ->
    filter_policy (options r) = None ->
    Finish env r = Abort NullDereference.
Proof.
  intros env r fb. apply Finish_null.
Qed.

Lemma Finish_dereferences_null_policy_witness :
  let env := example_env true in
  let r0 := NewTableBuilder (example_options 100 kNoCompression (Some 7%N)) reliable_file in
  let ops := [OpAdd (str "a") (str "1");
              OpChangeOptions (example_options 100 kNoCompression None)] in
  let r := after env ops r0 in
  run env ops r0 = Done (tt, r) /\
  may_call env r /\
  pending_only_if_empty r /\
  status_ok (status r) = true /\
  reliable (file r) /\
  filter_policy (options r) = None /\
  Finish env r = Abort NullDereference.
Proof.
  intros env r0 ops r.
  assert (Hc : may_call env r) by (left; reflexivity).
  assert (Hp : pending_only_if_empty r) by (intros E; vm_compute in E; discriminate).
  assert (Hok : status_ok (status r) = true) by (vm_compute; reflexivity).
  assert (Hr : reliable (file r)) by (intros log c; reflexivity).
  assert (Hpol : filter_policy (options r) = None) by (vm_compute; reflexivity).
  split; [vm_compute; reflexivity|].
  split; [exact Hc|]. split; [exact Hp|]. split; [exact Hok|]. split; [exact Hr|].
  split; [exact Hpol|].
  apply (Finish_dereferences_null_policy env r
           {| policy := 7%N; filter_calls := [StartBlock 0; AddKey (str "a")] |}
           Hc Hp Hok Hr); [vm_compute; reflexivity|exact Hpol].
Defined.

End FinishFacts.

(** ** The end of the file *)

Section FinishLayout.
Import TableBuilder BuilderLogic TableContents.
Variable env : Env.

Lemma post_of_returning {A} (m : M A) r (Q : A -> Rep -> Prop) :
  returning m r Q -> post m r Q.
Proof. unfold returning, post. destruct (m r) as [[a r']|]; tauto. Qed.

(** The calls of a [WriteRawBlock] that leaves the status OK: the payload,
    then its trailer, both accepted. *)
Lemma WriteRawBlock_ok_calls contents type (r : Rep) h r' :
  WriteRawBlock contents type r = Done (h, r') ->
  status_ok (status r') = true ->
  calls (file r') =
    calls (file r) ++ [(Append contents, OK); (Append (block_trailer contents type), OK)].
Proof.
  intros E Hok. rewrite WriteRawBlock_eq in E. cbv zeta in E. unfold file_call in E.
  set (s1 := respond (file r) (calls (file r)) (Append contents)) in E.
  destruct (status_ok s1) eqn:E1.
  - cbn [respond calls] in E.
    set (s2 := respond (file r) _ (Append (block_trailer contents type))) in E.
    destruct (status_ok s2) eqn:E2; injection E as _ <-; cbn in Hok; [|congruence].
    cbn [file calls set_offset set_status set_file]. rewrite <- app_assoc. cbn [app].
    now rewrite (status_ok_OK s1 E1), (status_ok_OK s2 E2).
  - injection E as _ <-. cbn in Hok. congruence.
Qed.

(** The file log only grows. *)
Lemma grows_refl (r : Rep) : exists new, calls (file r) = calls (file r) ++ new.
Proof. exists []. now rewrite app_nil_r. Qed.

Lemma grows_trans (r1 r2 r3 : Rep) :
  (exists new, calls (file r2) = calls (file r1) ++ new) ->
  (exists new, calls (file r3) = calls (file r2) ++ new) ->
  exists new, calls (file r3) = calls (file r1) ++ new.
Proof.
  intros (n1 & H1) (n2 & H2). exists (n1 ++ n2). now rewrite H2, H1, app_assoc.
Qed.

Lemma grows_wrote (r : Rep) f s o :
  wrote r f s o -> exists new, calls f = calls (file r) ++ new.
Proof. intros (_ & new & d & Hc & _). now exists new. Qed.

Lemma Finish_metaindex_block_grows fh (r : Rep) :
  post (Finish_metaindex_block env fh) r (fun _ r' =>
    exists new, calls (file r') = calls (file r) ++ new).
Proof.
  unfold Finish_metaindex_block. msteps; try apply grows_refl;
    (apply post_WriteBlock; [assumption|]); intros h' f' s' o' _ Hw;
    destruct (grows_wrote _ f' s' o' Hw) as (new & Hc); exists new; exact Hc.
Qed.

Lemma Finish_index_block_grows (r : Rep) :
  post (Finish_index_block env) r (fun _ r' =>
    exists new, calls (file r') = calls (file r) ++ new).
Proof.
  unfold Finish_index_block. msteps; try apply grows_refl;
    (apply post_WriteBlock; [assumption|]); intros h' f' s' o' _ Hw;
    destruct (grows_wrote _ f' s' o' Hw) as (new & Hc); exists new; exact Hc.
Qed.

Lemma Finish_footer_grows mh ih (r : Rep) :
  post (Finish_footer env mh ih) r (fun _ r' =>
    exists new, calls (file r') = calls (file r) ++ new).
Proof.
  unfold Finish_footer. msteps; try apply grows_refl; eexists; reflexivity.
Qed.

(** [// Write filter block], in detail. *)
Lemma Finish_filter_block_layout (r : Rep) :
  status_ok (status r) = true ->
  post (Finish_filter_block env) r (fun fh r' =>
    written r' = written r /\ options r' = options r /\
    match filter_block r with
    | None => r' = r
    | Some fb =>
        let contents := FilterBlockBuilder_Finish env (policy fb) (filter_calls fb) in
        filter_block r' <> None /\
        fh = {| handle_offset := offset r; handle_size := size contents |} /\
        (status_ok (status r') = true ->
         offset r' = end_of fh /\
         calls (file r') =
           calls (file r) ++
             [(Append contents, OK);
              (Append (block_trailer contents kNoCompression), OK)])
    end).
Proof.
  intros Hok. unfold Finish_filter_block. mline. mline.
  destruct (filter_block r) as [fb|] eqn:Efb; [|mline; auto].
  rewrite Hok. mline. mline.
  set (r2 := set_filter_block (Some (filter_call FilterFinish fb)) r).
  set (contents := FilterBlockBuilder_Finish env (policy fb) (filter_calls fb)).
  destruct (WriteRawBlock_sized contents kNoCompression r2)
    as (f & s & o & E & Hw & Ho & _).
  unfold post. rewrite E. cbv zeta.
  split; [reflexivity|]. split; [reflexivity|]. split; [discriminate|].
  split; [reflexivity|]. intros Hs. split; [exact (Ho Hs)|].
  exact (WriteRawBlock_ok_calls contents kNoCompression r2 _ _ E Hs).
Qed.

Lemma after_WriteBlock_end block (r : Rep) h f s o :
  handle_offset h = offset r ->
  (status_ok s = true -> o = wrap64 (offset r + (handle_size h + kBlockTrailerSize))) ->
  status_ok (status (after_WriteBlock block r h f s o)) = true ->
  offset (after_WriteBlock block r h f s o) = end_of h.
Proof.
  intros Hh Ho. unfold end_of. rewrite Hh. destruct block; cbn; exact Ho.
Qed.

(** [// Write metaindex block], in detail. *)
Lemma Finish_metaindex_block_layout fh (r : Rep) :
  status_ok (status r) = true ->
  post (Finish_metaindex_block env fh) r (fun mh r' =>
    options r' = options r /\
    handle_offset mh = offset r /\
    (status_ok (status r') = true -> offset r' = end_of mh) /\
    exists pairs,
      written r' = written r ++
        [ {| w_kind := MetaIndexBlock; w_entries := pairs;
             w_handle := mh; w_status := status r' |} ] /\
      match filter_block r with
      | None => pairs = []
      | Some _ =>
          exists p, filter_policy (options r) = Some p /\
            pairs = [(slice_of_string "filter." ++ FilterPolicy_Name env p, EncodeTo fh)]
      end).
Proof.
  intros Hok. unfold Finish_metaindex_block. mlines. rewrite Hok. mlines.
  destruct (filter_block r) as [fb|] eqn:Efb.
  - destruct (filter_policy (options r)) as [p|] eqn:Ep; [|mline].
    mline. apply post_WriteBlock_sized; [exact Hok|]. intros h f s o Hh Hw Ho _.
    split; [reflexivity|]. split; [exact Hh|]. split; [now apply after_WriteBlock_end|].
    eexists. split; [reflexivity|]. exists p. split; reflexivity.
  - mline. apply post_WriteBlock_sized; [exact Hok|]. intros h f s o Hh Hw Ho _.
    split; [reflexivity|]. split; [exact Hh|]. split; [now apply after_WriteBlock_end|].
    eexists. split; reflexivity.
Qed.

(** [// Write index block], in detail. *)
Lemma Finish_index_block_layout (r : Rep) :
  status_ok (status r) = true ->
  post (Finish_index_block env) r (fun ih r' =>
    options r' = options r /\
    handle_offset ih = offset r /\
    (status_ok (status r') = true -> offset r' = end_of ih) /\
    exists pairs,
      written r' = written r ++
        [ {| w_kind := IndexBlock; w_entries := pairs;
             w_handle := ih; w_status := status r' |} ]).
Proof.
  intros Hok. unfold Finish_index_block. mlines. rewrite Hok. msteps;
    (apply post_WriteBlock_sized; [exact Hok|]); intros h f s o Hh Hw Ho _;
    (split; [reflexivity|]); (split; [exact Hh|]); (split; [now apply after_WriteBlock_end|]);
    eexists; reflexivity.
Qed.

(** [// Write footer], in detail. *)
Lemma Finish_footer_layout mh ih (r : Rep) :
  status_ok (status r) = true ->
  post (Finish_footer env mh ih) r (fun _ r' =>
    written r' = written r /\
    calls (file r') = calls (file r) ++ [(Append (Footer_EncodeTo env mh ih), status r')] /\
    (status_ok (status r') = true ->
     offset r' = wrap64 (offset r + size (Footer_EncodeTo env mh ih)))).
Proof.
  intros Hok. unfold Finish_footer. mlines. rewrite Hok. msteps; cbn; auto;
    try discriminate.
  repeat split. intros E. cbn in Hwhen0. congruence.
Qed.

End FinishLayout.

Section FinishLayoutFacts.
Import TableBuilder BuilderLogic TableContents.

(** The steps of a [Finish] that returned OK, with what each wrote. *)
Lemma Finish_OK_inv (env : Env) (r r' : Rep) st :
  Finish env r = Done (st, r') -> status_ok st = true ->
  exists r1 fh r3 mh r4 ih r5,
    Flush env r = Done (tt, r1) /\
    status_ok (status r1) = true /\
    Finish_filter_block env (set_closed true r1) = Done (fh, r3) /\
    status_ok (status r3) = true /\
    Finish_metaindex_block env fh r3 = Done (mh, r4) /\
    status_ok (status r4) = true /\
    Finish_index_block env r4 = Done (ih, r5) /\
    status_ok (status r5) = true /\
    Finish_footer env mh ih r5 = Done (tt, r') /\
    status r' = OK.
Proof.
  intros Hfin Hst.
  destruct (Finish_inv env r r' st Hfin)
    as (r1 & fh & r3 & mh & r4 & ih & r5 & E1 & E3 & E4 & E5 & E6 & ->).
  pose proof (proj1 (post_Done _ _ _ _ _ (Finish_footer_advance env mh ih r5) E6) Hst) as Hok5.
  pose proof (proj1 (post_Done _ _ _ _ _ (Finish_index_block_advance env r4) E5) Hok5) as Hok4.
  pose proof (proj1 (post_Done _ _ _ _ _ (Finish_metaindex_block_advance env fh r3) E4) Hok4)
    as Hok3.
  pose proof (proj1 (post_Done _ _ _ _ _
                       (Finish_filter_block_advance env (set_closed true r1)) E3) Hok3)
    as Hok1.
  exists r1, fh, r3, mh, r4, ih, r5. repeat split; try assumption.
  now apply status_ok_OK.
Qed.

(** X15.  A [Finish] that returns OK ends the file with the metaindex
    block, the index block and the footer, in that order and back to back: the
    last two blocks written are these two, the index block starts where the
    metaindex block ends, the last call on the file is the one that appends
    the footer encoded from the handles of these two blocks, and [FileSize()]
    is the end of the index block plus the length of the footer. *)
Theorem Finish_ends_the_file_with_index_and_footer :
  forall (env : Env) (r : Rep) (st : Status) (r' : Rep),
    Finish env r = Done (st, r') ->
    status_ok st = true ->
    exists ws wm wi log,
      written r' = ws ++ [wm; wi] /\
      w_kind wm = MetaIndexBlock /\ w_kind wi = IndexBlock /\
      handle_offset (w_handle wi) = end_of (w_handle wm) /\
      let footer := Footer_EncodeTo env (w_handle wm) (w_handle wi) in
      calls (file r') = log ++ [(Append footer, OK)] /\
      FileSize r' = wrap64 (end_of (w_handle wi) + size footer).
Proof.
  intros env r st r' Hfin Hst.
  destruct (Finish_OK_inv env r r' st Hfin Hst)
    as (r1 & fh & r3 & mh & r4 & ih & r5 & E1 & Hok1 & E3 & Hok3 & E4 & Hok4 & E5 & Hok5 &
        E6 & Hok6).
  pose proof (post_Done _ _ _ _ _ (Finish_metaindex_block_layout env fh r3 Hok3) E4)
    as (_ & Hmh & Hend4 & pm & Hw4 & _).
  pose proof (post_Done _ _ _ _ _ (Finish_index_block_layout env r4 Hok4) E5)
    as (_ & Hih & Hend5 & pi & Hw5).
  pose proof (post_Done _ _ _ _ _ (Finish_footer_layout env mh ih r5 Hok5) E6)
    as (Hw6 & Hcalls & Hend6).
  rewrite Hok6 in Hcalls, Hend6.
  eexists (written r3), _, _, (calls (file r5)).
  split; [rewrite Hw6, Hw5, Hw4, <- app_assoc; reflexivity|].
  cbn [w_kind w_handle].
  split; [reflexivity|]. split; [reflexivity|].
  split; [rewrite Hih; now apply Hend4|].
  split; [exact Hcalls|].
  unfold FileSize. rewrite (Hend6 eq_refl), (Hend5 Hok5). reflexivity.
Qed.

(** Two pairs in one data block, no filter: the file ends with a metaindex
    block at offset 9, an index block at offset 14 and a footer of 48 bytes. *)
Lemma Finish_ends_the_file_with_index_and_footer_witness :
  let env := example_env false in
  let r := after env [OpAdd (str "a") (str "1"); OpAdd (str "b") (str "2")]
             (NewTableBuilder (example_options 100 kNoCompression None) reliable_file) in
  let r' := after env [OpFinish] r in
  Finish env r = Done (OK, r') /\
  map (fun w => (w_kind w, handle_offset (w_handle w), handle_size (w_handle w))) (written r') =
    [(DataBlock, 0, 4); (MetaIndexBlock, 9, 0); (IndexBlock, 14, 3)] /\
  FileSize r' = 70 /\
  exists ws wm wi log,
    written r' = ws ++ [wm; wi] /\
    w_kind wm = MetaIndexBlock /\ w_kind wi = IndexBlock /\
    handle_offset (w_handle wi) = end_of (w_handle wm) /\
    calls (file r') = log ++ [(Append (Footer_EncodeTo env (w_handle wm) (w_handle wi)), OK)].
Proof.
  intros env r r'.
  assert (Hfin : Finish env r = Done (OK, r')) by (vm_compute; reflexivity).
  split; [exact Hfin|]. split; [vm_compute; reflexivity|]. split; [vm_compute; reflexivity|].
  destruct (Finish_ends_the_file_with_index_and_footer env r OK r' Hfin eq_refl)
    as (ws & wm & wi & log & Hw & Hm & Hi & Hoff & Hcalls & _).
  exists ws, wm, wi, log. auto.
Defined.

(** X16.  What a [Finish] that returns OK puts in the metaindex block.
    [Finish] first flushes; let [r1] be the builder after that.  Without a
    filter encoder the metaindex block is empty and starts at the offset of
    [r1].  With one, the filter block is written at that offset and
    uncompressed: the next two calls on the file append the bytes the encoder
    finished for its own policy, as they are, and their trailer with the tag
    of [kNoCompression], whatever compression the options ask for.  The
    metaindex block follows the filter block directly and holds a single
    entry: the key is ["filter."] followed by the name of the policy in the
    current options, the value the encoded handle of the filter block. *)
Theorem metaindex_block_names_the_filter_block :
  forall (env : Env) (r : Rep) (st : Status) (r' : Rep),
    Finish env r = Done (st, r') ->
    status_ok st = true ->
    exists r1 wm wi,
      Flush env r = Done (tt, r1) /\
      written r' = written r1 ++ [wm; wi] /\
      w_kind wm = MetaIndexBlock /\
      match filter_block r1 with
      | None => w_entries wm = [] /\ handle_offset (w_handle wm) = offset r1
      | Some fb =>
          exists p later,
            filter_policy (options r1) = Some p /\
            let contents := FilterBlockBuilder_Finish env (policy fb) (filter_calls fb) in
            let fh := {| handle_offset := offset r1; handle_size := size contents |} in
            calls (file r') =
              calls (file r1) ++
                [(Append contents, OK);
                 (Append (block_trailer contents kNoCompression), OK)] ++ later /\
            w_entries wm =
              [(slice_of_string "filter." ++ FilterPolicy_Name env p, EncodeTo fh)] /\
            handle_offset (w_handle wm) = end_of fh
      end.
Proof.
  intros env r st r' Hfin Hst.
  destruct (Finish_OK_inv env r r' st Hfin Hst)
    as (r1 & fh & r3 & mh & r4 & ih & r5 & E1 & Hok1 & E3 & Hok3 & E4 & Hok4 & E5 & Hok5 &
        E6 & Hok6).
  pose proof (post_Done _ _ _ _ _
                (Finish_filter_block_layout env (set_closed true r1) Hok1) E3)
    as (Hw3 & Ho3 & Hf3).
  cbn [set_closed written options filter_block offset file] in Hw3, Ho3, Hf3.
  pose proof (post_Done _ _ _ _ _ (Finish_metaindex_block_layout env fh r3 Hok3) E4)
    as (_ & Hmh & _ & pm & Hw4 & Hpm).
  pose proof (post_Done _ _ _ _ _ (Finish_index_block_layout env r4 Hok4) E5)
    as (_ & _ & _ & pi & Hw5).
  pose proof (post_Done _ _ _ _ _ (Finish_footer_layout env mh ih r5 Hok5) E6)
    as (Hw6 & _ & _).
  pose proof (grows_trans r3 r5 r'
                (grows_trans r3 r4 r5
                   (post_Done _ _ _ _ _ (Finish_metaindex_block_grows env fh r3) E4)
                   (post_Done _ _ _ _ _ (Finish_index_block_grows env r4) E5))
                (post_Done _ _ _ _ _ (Finish_footer_grows env mh ih r5) E6))
    as (later & Hlater).
  eexists r1, _, _. split; [exact E1|].
  split; [rewrite Hw6, Hw5, Hw4, Hw3, <- app_assoc; reflexivity|].
  cbn [w_kind w_entries w_handle]. split; [reflexivity|].
  destruct (filter_block r1) as [fb|] eqn:Efb.
  - cbv zeta in Hf3. destruct Hf3 as (Hne & -> & Hend3).
    destruct (Hend3 Hok3) as [Hoff3 Hcalls3].
    destruct (filter_block r3) as [fb3|]; [|congruence].
    destruct Hpm as (p & Hp & ->). exists p, later. rewrite <- Ho3.
    split; [exact Hp|]. cbv zeta.
    split; [rewrite Hlater, Hcalls3, <- app_assoc; reflexivity|].
    split; [reflexivity|].
    rewrite Hmh. exact Hoff3.
  - subst r3. cbn [filter_block set_closed offset] in Hpm, Hmh. rewrite Efb in Hpm.
    auto.
Qed.

(** A builder with a filter encoder whose options ask for snappy: the
    filter block is empty and lies at offset 7, its trailer carries the tag of
    [kNoCompression], and the metaindex block starts at offset 12 and names
    it. *)
Lemma metaindex_block_names_the_filter_block_witness :
  let env := example_env false in
  let r := after env [OpAdd (str "a") (str "1")]
             (NewTableBuilder (example_options 100 kSnappyCompression (Some 7%N))
                reliable_file) in
  let r' := after env [OpFinish] r in
  Finish env r = Done (OK, r') /\
  map (fun w => (w_kind w, handle_offset (w_handle w), w_entries w)) (written r') =
    [ (DataBlock, 0, [(str "a", str "1")]);
      (MetaIndexBlock, 12,
       [(str "filter.example", EncodeTo {| handle_offset := 7; handle_size := 0 |})]);
      (IndexBlock, 33, [(str "a", EncodeTo {| handle_offset := 0; handle_size := 2 |})]) ] /\
  exists r1 wm wi,
    Flush env r = Done (tt, r1) /\
    written r' = written r1 ++ [wm; wi] /\
    w_kind wm = MetaIndexBlock /\
    match filter_block r1 with
    | None => w_entries wm = [] /\ handle_offset (w_handle wm) = offset r1
    | Some fb =>
        exists p later,
          filter_policy (options r1) = Some p /\
          let contents := FilterBlockBuilder_Finish env (policy fb) (filter_calls fb) in
          let fh := {| handle_offset := offset r1; handle_size := size contents |} in
          calls (file r') =
            calls (file r1) ++
              [(Append contents, OK);
               (Append (block_trailer contents kNoCompression), OK)] ++ later /\
          w_entries wm =
            [(slice_of_string "filter." ++ FilterPolicy_Name env p, EncodeTo fh)] /\
          handle_offset (w_handle wm) = end_of fh
    end.
Proof.
  intros env r r'.
  assert (Hfin : Finish env r = Done (OK, r')) by (vm_compute; reflexivity).
  split; [exact Hfin|]. split; [vm_compute; reflexivity|].
  exact (metaindex_block_names_the_filter_block env r OK r' Hfin eq_refl).
Defined.

End FinishLayoutFacts.

(** ** Walking a table forward *)

Section ForwardScan.
Import TwoLevelIterator TableScan.
Variable Compare : Slice -> Slice -> Z.

Local Abbreviation ops := (BlockIter_ops Compare).
Local Abbreviation Iter := (TwoLevelIterator BlockIter BlockIter).
Local Abbreviation Init := (InitDataBlock (index_ops := ops) (data_ops := ops)).
Local Abbreviation SetData := (SetDataIterator (II := BlockIter) (data_ops := ops)).
Local Abbreviation SkipForward :=
  (SkipEmptyDataBlocksForward (index_ops := ops) (data_ops := ops)).

Lemma all_entries_snoc (pre : Table) (b : Block) :
  all_entries (pre ++ [b]) = all_entries pre ++ block_entries b.
Proof. rewrite all_entries_app. cbn. now rewrite app_nil_r. Qed.

Lemma all_entries_split (pre post : Table) (b : Block) :
  all_entries (pre ++ b :: post) = all_entries pre ++ block_entries b ++ all_entries post.
Proof. now rewrite all_entries_app. Qed.

(** Where the iterator stands, it shows the pair of that number. *)
Lemma located_current (T : Table) (n : nat) (it : Iter) :
  located T n it ->
  current Compare it = nth_error (all_entries T) n /\
  (n < List.length (all_entries T))%nat /\
  Valid (data_ops := ops) it = true.
Proof.
  intros (pre & b & post & i & (HT & Hit & Hcur & d & Hd & He & Hc & Hi) & ->).
  rewrite <- He in Hi. destruct (entry_at d i Hc Hi) as [Hv Hn].
  rewrite (current_data Compare it d Hd), Hv. subst T. rewrite all_entries_split.
  split; [|split].
  - rewrite nth_error_app2 by lia.
    replace (List.length (all_entries pre) + i - List.length (all_entries pre))%nat
      with i by lia.
    rewrite nth_error_app1 by (now rewrite <- He). now rewrite <- He, Hn.
  - rewrite !length_app, <- He. lia.
  - unfold Valid, data_Valid. now rewrite Hd.
Qed.

Lemma off_the_table_current (T : Table) (it : Iter) :
  off_the_table T it ->
  current Compare it = None /\ Valid (data_ops := ops) it = false.
Proof.
  intros [_ Hd]. split; [now apply current_none|]. unfold Valid, data_Valid. now rewrite Hd.
Qed.

(** The loop of [SkipEmptyDataBlocksForward], entered with the index
    iterator at block [b] and nothing to show there, ends at the first pair
    after [b], or off the table when no pair follows. *)
Lemma SkipForward_settles (T : Table) :
  NoDup (map handle T) ->
  forall (post pre : Table) (b : Block) (it : Iter) (fuel : nat),
    iterates T it ->
    T = pre ++ b :: post ->
    cur (index_iter_ it) = Some (List.length pre) ->
    nothing_here (data_ops := ops) it = true ->
    (List.length post + 2 <= fuel)%nat ->
    exists it',
      SkipForward fuel it = Some it' /\
      (located T (List.length (all_entries (pre ++ [b]))) it' \/
       (all_entries post = [] /\ off_the_table T it')).
Proof.
  intros Hnd. induction post as [|b' post' IH]; intros pre b it fuel Hit HT Hcur Hnh Hfuel.
  - destruct fuel as [|[|fuel]]; [cbn in Hfuel; lia..|].
    destruct (index_at T pre [] b (index_iter_ it) HT (proj1 Hit) Hcur) as [Hv _].
    cbn [SkipEmptyDataBlocksForward]. rewrite Hnh. cbn [it_Valid it_Next ops].
    rewrite Hv. cbn [negb].
    set (it1 := set_index_iter_ (BlockIter_Next (index_iter_ it)) it).
    assert (Hcur1 : cur (index_iter_ it1) = None).
    { change (cur (BlockIter_Next (index_iter_ it)) = None).
      unfold BlockIter_Next. cbn [cur set_cur].
      rewrite Hcur, (proj1 Hit), HT, index_entries_length, length_app.
      cbn [List.length]. destruct (Nat.ltb_spec (S (List.length pre)) (List.length pre + 1));
        [lia|reflexivity]. }
    assert (Hit1 : iterates T it1) by (apply iterates_set_index; exact Hit).
    destruct (InitDataBlock_end Compare T it1 Hit1 Hcur1) as (Hd2 & Hit2 & Hi2).
    set (it2 := Init it1) in *.
    assert (Hmove : move_data BlockIter_SeekToFirst it2 = it2)
      by (unfold move_data; now rewrite Hd2).
    cbn [it_SeekToFirst ops]. rewrite Hmove.
    assert (Hnh2 : nothing_here (data_ops := ops) it2 = true)
      by (unfold nothing_here; now rewrite Hd2).
    rewrite Hnh2. unfold BlockIter_Valid. rewrite Hi2, Hcur1. cbn [negb].
    exists (SetData None it2).
    split; [reflexivity|]. right. split; [reflexivity|].
    split; [now apply iterates_SetData_None|apply SetData_None].
  - destruct fuel as [|fuel]; [cbn in Hfuel; lia|].
    cbn [List.length] in Hfuel.
    destruct (index_at T pre (b' :: post') b (index_iter_ it) HT (proj1 Hit) Hcur) as [Hv _].
    cbn [SkipEmptyDataBlocksForward]. rewrite Hnh. cbn [it_Valid it_Next ops].
    rewrite Hv. cbn [negb].
    set (it1 := set_index_iter_ (BlockIter_Next (index_iter_ it)) it).
    assert (HT' : T = (pre ++ [b]) ++ b' :: post') by (now rewrite <- app_assoc).
    assert (Hcur1 : cur (index_iter_ it1) = Some (List.length (pre ++ [b]))).
    { change (cur (BlockIter_Next (index_iter_ it)) = Some (List.length (pre ++ [b]))).
      unfold BlockIter_Next. cbn [cur set_cur].
      rewrite Hcur, (proj1 Hit), HT, index_entries_length, !length_app.
      cbn [List.length].
      destruct (Nat.ltb_spec (S (List.length pre))
                  (List.length pre + S (S (List.length post')))); [|lia].
      f_equal. lia. }
    assert (Hit1 : iterates T it1) by (apply iterates_set_index; exact Hit).
    destruct (InitDataBlock_at Compare T (pre ++ [b]) post' b' it1 Hit1 Hnd HT' Hcur1)
      as (d & Hd2 & He2 & Hit2 & Hi2).
    set (it2 := Init it1) in *.
    cbn [it_SeekToFirst ops].
    pose proof (current_after_SeekToFirst Compare it2 d Hd2) as Hcurrent.
    set (it3 := move_data BlockIter_SeekToFirst it2) in *.
    assert (Hd3 : data_iter_ it3 = Some (BlockIter_SeekToFirst d)).
    { unfold it3, move_data. now rewrite Hd2. }
    assert (Hit3 : iterates T it3).
    { unfold it3, move_data. rewrite Hd2. now apply iterates_set_data_cur. }
    assert (Hi3 : index_iter_ it3 = index_iter_ it1).
    { unfold it3, move_data. now rewrite Hd2. }
    rewrite He2 in Hcurrent.
    destruct (block_entries b') as [|e es] eqn:Eb.
    + (* an empty block: go on *)
      apply nothing_here_current in Hcurrent.
      destruct (IH (pre ++ [b]) b' it3 fuel Hit3 HT') as (it' & Hs & Hit');
        [now rewrite Hi3|exact Hcurrent|lia|].
      exists it'. split; [exact Hs|].
      rewrite (all_entries_snoc (pre ++ [b]) b'), Eb, app_nil_r in Hit'.
      destruct Hit' as [Hl|[Hnil Hoff]]; [now left|right].
      split; [|exact Hoff]. cbn [all_entries flat_map]. rewrite Eb. exact Hnil.
    + (* the first pair of the block *)
      destruct fuel as [|fuel]; [lia|].
      cbn [SkipEmptyDataBlocksForward].
      destruct (nothing_here (data_ops := ops) it3) eqn:Hnh3.
      * apply nothing_here_current in Hnh3. cbn in Hcurrent. congruence.
      * exists it3. split; [reflexivity|]. left.
        exists (pre ++ [b]), b', post', O.
        split; [|lia].
        split; [exact HT'|]. split; [exact Hit3|]. split; [now rewrite Hi3|].
        exists (BlockIter_SeekToFirst d). split; [exact Hd3|].
        unfold BlockIter_SeekToFirst. cbn [ents cur set_cur]. rewrite He2, Eb.
        split; [reflexivity|]. split; [reflexivity|]. cbn. lia.
Qed.

(** [SeekToFirst]: at the first pair, or off a table that holds none. *)
Lemma SeekToFirst_located (T : Table) (it : Iter) (fuel : nat) :
  NoDup (map handle T) ->
  iterates T it ->
  (List.length T + 2 <= fuel)%nat ->
  exists it',
    SeekToFirst (index_ops := ops) (data_ops := ops) fuel it = Some it' /\
    (located T 0 it' \/ (all_entries T = [] /\ off_the_table T it')).
Proof.
  intros Hnd Hit Hfuel. unfold SeekToFirst. cbn [it_SeekToFirst ops].
  set (it1 := set_index_iter_ (BlockIter_SeekToFirst (index_iter_ it)) it).
  assert (Hit1 : iterates T it1) by (apply iterates_set_index; exact Hit).
  destruct T as [|b post] eqn:ET.
  - assert (Hcur1 : cur (index_iter_ it1) = None).
    { change (cur (BlockIter_SeekToFirst (index_iter_ it)) = None).
      unfold BlockIter_SeekToFirst. cbn [cur set_cur]. now rewrite (proj1 Hit). }
    destruct (InitDataBlock_end Compare [] it1 Hit1 Hcur1) as (Hd2 & Hit2 & Hi2).
    set (it2 := Init it1) in *.
    assert (Hmove : move_data BlockIter_SeekToFirst it2 = it2)
      by (unfold move_data; now rewrite Hd2).
    rewrite Hmove.
    destruct fuel as [|fuel]; [cbn in Hfuel; lia|].
    cbn [SkipEmptyDataBlocksForward].
    assert (Hnh2 : nothing_here (data_ops := ops) it2 = true)
      by (unfold nothing_here; now rewrite Hd2).
    rewrite Hnh2. cbn [it_Valid ops]. unfold BlockIter_Valid. rewrite Hi2, Hcur1. cbn [negb].
    exists (SetData None it2). split; [reflexivity|]. right. split; [reflexivity|].
    split; [now apply iterates_SetData_None|apply SetData_None].
  - rewrite <- ET in *.
    assert (HT : T = [] ++ b :: post) by exact ET.
    assert (Hcur1 : cur (index_iter_ it1) = Some (List.length (@nil Block))).
    { change (cur (BlockIter_SeekToFirst (index_iter_ it)) = Some O).
      unfold BlockIter_SeekToFirst. cbn [cur set_cur]. now rewrite (proj1 Hit), ET. }
    destruct (InitDataBlock_at Compare T [] post b it1 Hit1 Hnd HT Hcur1)
      as (d & Hd2 & He2 & Hit2 & Hi2).
    set (it2 := Init it1) in *.
    pose proof (current_after_SeekToFirst Compare it2 d Hd2) as Hcurrent.
    set (it3 := move_data BlockIter_SeekToFirst it2) in *.
    assert (Hd3 : data_iter_ it3 = Some (BlockIter_SeekToFirst d)).
    { unfold it3, move_data. now rewrite Hd2. }
    assert (Hit3 : iterates T it3).
    { unfold it3, move_data. rewrite Hd2. now apply iterates_set_data_cur. }
    assert (Hi3 : index_iter_ it3 = index_iter_ it1).
    { unfold it3, move_data. now rewrite Hd2. }
    rewrite He2 in Hcurrent.
    destruct (block_entries b) as [|e es] eqn:Eb.
    + apply nothing_here_current in Hcurrent.
      destruct (SkipForward_settles T Hnd post [] b it3 fuel Hit3 HT) as (it' & Hs & Hit');
        [now rewrite Hi3|exact Hcurrent|rewrite ET in Hfuel; cbn in Hfuel; lia|].
      exists it'. split; [exact Hs|].
      rewrite (all_entries_snoc [] b), Eb in Hit'. cbn in Hit'.
      destruct Hit' as [Hl|[Hnil Hoff]]; [now left|right].
      split; [|exact Hoff]. rewrite ET. cbn [all_entries flat_map]. rewrite Eb. exact Hnil.
    + destruct fuel as [|fuel]; [lia|].
      cbn [SkipEmptyDataBlocksForward].
      destruct (nothing_here (data_ops := ops) it3) eqn:Hnh3.
      * apply nothing_here_current in Hnh3. cbn in Hcurrent. congruence.
      * exists it3. split; [reflexivity|]. left.
        exists [], b, post, O. split; [|reflexivity].
        split; [exact HT|]. split; [exact Hit3|]. split; [now rewrite Hi3|].
        exists (BlockIter_SeekToFirst d). split; [exact Hd3|].
        unfold BlockIter_SeekToFirst. cbn [ents cur set_cur]. rewrite He2, Eb.
        split; [reflexivity|]. split; [reflexivity|]. cbn. lia.
Qed.

(** [Next] from pair [n]: at pair [n + 1], or off the table after the last. *)
Lemma Next_located (T : Table) (n : nat) (it : Iter) (nd : bool) (fuel : nat) :
  NoDup (map handle T) ->
  located T n it ->
  (List.length T + 2 <= fuel)%nat ->
  exists it',
    Next (index_ops := ops) (data_ops := ops) nd fuel it = Done (Some it') /\
    (located T (S n) it' \/
     (S n = List.length (all_entries T) /\ off_the_table T it')).
Proof.
  intros Hnd Hloc Hfuel.
  destruct (located_current T n it Hloc) as (_ & _ & Hvalid).
  destruct Hloc as (pre & b & post & i & (HT & Hit & Hcur & d & Hd & He & Hc & Hi) & ->).
  unfold Next. rewrite Hvalid, orb_true_r, Hd. cbn [it_Next ops].
  set (it1 := set_data_iter_ (Some (BlockIter_Next d)) it).
  assert (Hit1 : iterates T it1) by (now apply iterates_set_data_cur).
  assert (Hlen : List.length T = (List.length pre + S (List.length post))%nat).
  { rewrite HT, length_app. reflexivity. }
  destruct (Nat.ltb (S i) (List.length (ents d))) eqn:Elt.
  - (* the block has a next pair *)
    assert (Hd1 : data_iter_ it1 = Some (set_cur (Some (S i)) d)).
    { unfold it1, BlockIter_Next. cbn [data_iter_ set_data_iter_]. now rewrite Hc, Elt. }
    apply Nat.ltb_lt in Elt.
    assert (Hloc1 : located T (S (List.length (all_entries pre) + i)) it1).
    { exists pre, b, post, (S i). split; [|lia].
      split; [exact HT|]. split; [exact Hit1|]. split; [exact Hcur|].
      exists (set_cur (Some (S i)) d). split; [exact Hd1|].
      cbn [ents cur set_cur]. split; [exact He|]. split; [reflexivity|]. now rewrite <- He. }
    destruct (located_current T _ it1 Hloc1) as (Hcurrent & _ & _).
    destruct fuel as [|fuel]; [lia|].
    cbn [SkipEmptyDataBlocksForward].
    destruct (nothing_here (data_ops := ops) it1) eqn:Hnh.
    + apply nothing_here_current in Hnh. rewrite Hnh in Hcurrent. symmetry in Hcurrent.
      apply nth_error_None in Hcurrent.
      destruct (located_current T _ it1 Hloc1) as (_ & Hlt & _). lia.
    + exists it1. split; [reflexivity|]. now left.
  - (* it was the last pair of the block *)
    apply Nat.ltb_ge in Elt.
    assert (Hd1 : data_iter_ it1 = Some (set_cur None d)).
    { unfold it1, BlockIter_Next. cbn [data_iter_ set_data_iter_]. rewrite Hc.
      destruct (Nat.ltb_spec (S i) (List.length (ents d))); [lia|reflexivity]. }
    assert (Hnh : nothing_here (data_ops := ops) it1 = true).
    { unfold nothing_here. rewrite Hd1. reflexivity. }
    destruct (SkipForward_settles T Hnd post pre b it1 fuel Hit1 HT Hcur Hnh)
      as (it' & Hs & Hit'); [lia|].
    exists it'. split; [now rewrite Hs|].
    rewrite all_entries_snoc, length_app in Hit'. rewrite He in Elt.
    replace (S (List.length (all_entries pre) + i))
      with (List.length (all_entries pre) + List.length (block_entries b))%nat by lia.
    destruct Hit' as [Hl|[Hnil Hoff]]; [now left|right].
    split; [|exact Hoff]. rewrite HT, all_entries_split, Hnil, app_nil_r, length_app.
    reflexivity.
Qed.

(** The pairs met from pair [k] on. *)
Lemma scan_forward_located (T : Table) (nd : bool) (fuel : nat) :
  NoDup (map handle T) ->
  (List.length T + 2 <= fuel)%nat ->
  forall (n k : nat) (it : Iter),
    located T k it ->
    scan_forward Compare nd fuel n it = firstn n (skipn k (all_entries T)).
Proof.
  intros Hnd Hfuel. induction n as [|n IH]; intros k it Hloc; [reflexivity|].
  cbn [scan_forward].
  destruct (located_current T k it Hloc) as (Hcurrent & Hlt & _).
  destruct (nth_error (all_entries T) k) as [e|] eqn:En;
    [|apply nth_error_None in En; lia].
  rewrite Hcurrent.
  assert (Hskip : skipn k (all_entries T) = e :: skipn (S k) (all_entries T)).
  { clear - En. revert k En. induction (all_entries T) as [|x l IHl]; intros k En.
    - destruct k; discriminate.
    - destruct k as [|k]; [now injection En as ->|]. cbn [skipn]. now apply IHl. }
  rewrite Hskip. cbn [firstn]. f_equal.
  destruct (Next_located T k it nd fuel Hnd Hloc Hfuel) as (it' & -> & [Hl|[Hend Hoff]]).
  - now apply IH.
  - rewrite Hend, skipn_all, firstn_nil.
    destruct n; [reflexivity|]. cbn [scan_forward].
    now rewrite (proj1 (off_the_table_current T it' Hoff)).
Qed.

End ForwardScan.

Section ForwardScanFacts.
Import TwoLevelIterator TableScan.

Lemma sparse_table_handles : NoDup (map handle sparse_table).
Proof. repeat constructor; cbn; intuition discriminate. Qed.

(** X17.  [Next] moves to the following pair.  Over a table whose blocks
    have distinct handles, an iterator that stands at pair number [n] (counting
    the pairs of all blocks in file order) returns from [Next], with fuel for
    the loop, standing at pair [n + 1]: the next pair of the same block, or the
    first pair of the next block that is not empty.  After the last pair of the
    table it is left without a data iterator, hence not valid. *)
Theorem Next_moves_to_the_following_pair :
  forall (Compare : Slice -> Slice -> Z) (T : Table)
         (it : TwoLevelIterator BlockIter BlockIter) (n : nat) (ndebug : bool) (fuel : nat),
    NoDup (map handle T) ->
    located T n it ->
    (List.length T + 2 <= fuel)%nat ->
    exists it',
      Next (index_ops := BlockIter_ops Compare) (data_ops := BlockIter_ops Compare)
        ndebug fuel it = Done (Some it') /\
      iterates T it' /\
      current Compare it' = nth_error (all_entries T) (S n) /\
      (located T (S n) it' \/
       (S n = List.length (all_entries T) /\
        Valid (data_ops := BlockIter_ops Compare) it' = false)).
Proof.
  intros Compare T it n nd fuel Hnd Hloc Hfuel.
  destruct (Next_located Compare T n it nd fuel Hnd Hloc Hfuel) as (it' & HN & [Hl|[Hend Hoff]]).
  - exists it'. split; [exact HN|].
    destruct (located_current Compare T (S n) it' Hl) as (Hc & _ & _).
    split; [|split; [exact Hc|now left]].
    destruct Hl as (pre & b & post & i & (_ & Hit & _) & _). exact Hit.
  - exists it'. split; [exact HN|].
    destruct (off_the_table_current Compare T it' Hoff) as [Hc Hv].
    split; [exact (proj1 Hoff)|]. split; [|right; now split].
    rewrite Hc. symmetry. apply nth_error_None. lia.
Qed.

(** X18.  A forward scan yields every pair, in order.  Over a table whose
    blocks have distinct handles, from any state of an iterator over it,
    [SeekToFirst] returns, and reading the current pair and calling [Next]
    until the iterator is no longer valid meets exactly the pairs of the
    table's blocks in file order, empty blocks being skipped. *)
Theorem forward_scan_yields_every_pair_in_order :
  forall (Compare : Slice -> Slice -> Z) (T : Table)
         (it : TwoLevelIterator BlockIter BlockIter) (ndebug : bool) (fuel n : nat),
    NoDup (map handle T) ->
    iterates T it ->
    (List.length T + 2 <= fuel)%nat ->
    (List.length (all_entries T) <= n)%nat ->
    exists it0,
      SeekToFirst (index_ops := BlockIter_ops Compare) (data_ops := BlockIter_ops Compare)
        fuel it = Some it0 /\
      current Compare it0 = hd_error (all_entries T) /\
      scan_forward Compare ndebug fuel n it0 = all_entries T.
Proof.
  intros Compare T it nd fuel n Hnd Hit Hfuel Hn.
  destruct (SeekToFirst_located Compare T it fuel Hnd Hit Hfuel) as (it0 & HS & [Hl|[Hnil Hoff]]).
  - exists it0. split; [exact HS|].
    destruct (located_current Compare T 0 it0 Hl) as (Hc & _ & _).
    split; [rewrite Hc; now destruct (all_entries T)|].
    rewrite (scan_forward_located Compare T nd fuel Hnd Hfuel n 0 it0 Hl).
    cbn [skipn]. now apply firstn_all2.
  - exists it0. split; [exact HS|].
    destruct (off_the_table_current Compare T it0 Hoff) as [Hc _].
    rewrite Hnil. split; [exact Hc|].
    destruct n; [reflexivity|]. cbn [scan_forward]. now rewrite Hc.
Qed.

(** The scan of a table with an empty block in the middle. *)
Lemma forward_scan_yields_every_pair_in_order_witness :
  exists it0,
    SeekToFirst (index_ops := BlockIter_ops bytewise_Compare)
      (data_ops := BlockIter_ops bytewise_Compare) 5 (NewIterator sparse_table) = Some it0 /\
    scan_forward bytewise_Compare false 5 4 it0 =
      [(str "a", str "1"); (str "b", str "2"); (str "c", str "3")].
Proof.
  destruct (forward_scan_yields_every_pair_in_order bytewise_Compare sparse_table
              (NewIterator sparse_table) false 5 4 sparse_table_handles
              (NewIterator_iterates sparse_table) (le_n 5))
    as (it0 & HS & _ & Hscan).
  - cbn. lia.
  - exists it0. split; [exact HS|exact Hscan].
Defined.

(** From the last pair of the first block, over the empty block. *)
Lemma Next_moves_to_the_following_pair_witness :
  let ops := BlockIter_ops bytewise_Compare in
  let it :=
    {| block_function_ := BlockReader sparse_table;
       status_ := OK;
       index_iter_ := {| ents := index_entries sparse_table; cur := Some 0%nat;
                         iter_status := OK |};
       data_iter_ := Some {| ents := [(str "a", str "1"); (str "b", str "2")];
                             cur := Some 1%nat; iter_status := OK |};
       data_block_handle_ := EncodeTo {| handle_offset := 0; handle_size := 4 |} |} in
  NoDup (map handle sparse_table) /\
  located sparse_table 1 it /\
  exists it',
    Next (index_ops := ops) (data_ops := ops) false 5 it = Done (Some it') /\
    current bytewise_Compare it' = Some (str "c", str "3").
Proof.
  intros ops it.
  assert (Hl : located sparse_table 1 it).
  { exists [], (nth 0 sparse_table (Build_Block [] [] [])), (tl sparse_table), 1%nat.
    split; [|reflexivity].
    split; [reflexivity|]. split.
    - split; [reflexivity|]. split; [reflexivity|].
      eexists. split; [vm_compute; reflexivity|]. split; reflexivity.
    - split; [reflexivity|]. eexists. split; [reflexivity|].
      split; [reflexivity|]. split; [reflexivity|]. cbn. lia. }
  split; [exact sparse_table_handles|]. split; [exact Hl|].
  destruct (Next_moves_to_the_following_pair bytewise_Compare sparse_table it 1 false 5
              sparse_table_handles Hl (le_n 5)) as (it' & HN & _ & Hc & _).
  exists it'. split; [exact HN|exact Hc].
Defined.

End ForwardScanFacts.

(** ** Walking a table backward *)

Section BackwardScan.
Import TwoLevelIterator TableScan.
Variable Compare : Slice -> Slice -> Z.

Local Abbreviation ops := (BlockIter_ops Compare).
Local Abbreviation Iter := (TwoLevelIterator BlockIter BlockIter).
Local Abbreviation Init := (InitDataBlock (index_ops := ops) (data_ops := ops)).
Local Abbreviation SetData := (SetDataIterator (II := BlockIter) (data_ops := ops)).
Local Abbreviation SkipBackward :=
  (SkipEmptyDataBlocksBackward (index_ops := ops) (data_ops := ops)).

Lemma nothing_here_data (it : Iter) (d : BlockIter) :
  data_iter_ it = Some d ->
  nothing_here (data_ops := ops) it = negb (BlockIter_Valid d).
Proof. intros Hd. unfold nothing_here. now rewrite Hd. Qed.

(** The loop of [SkipEmptyDataBlocksBackward], entered with the index
    iterator at block [b] and nothing to show there, ends at the last pair
    before [b], or off the table when no pair precedes. *)
Lemma SkipBackward_settles (T : Table) :
  NoDup (map handle T) ->
  forall (pre post : Table) (b : Block) (it : Iter) (fuel : nat),
    iterates T it ->
    T = pre ++ b :: post ->
    cur (index_iter_ it) = Some (List.length pre) ->
    nothing_here (data_ops := ops) it = true ->
    (List.length pre + 2 <= fuel)%nat ->
    exists it',
      SkipBackward fuel it = Some it' /\
      ((exists n, S n = List.length (all_entries pre) /\ located T n it') \/
       (all_entries pre = [] /\ off_the_table T it')).
Proof.
  intros Hnd. induction pre as [|b' pre' IH] using rev_ind;
    intros post b it fuel Hit HT Hcur Hnh Hfuel.
  - destruct fuel as [|[|fuel]]; [cbn in Hfuel; lia..|].
    destruct (index_at T [] post b (index_iter_ it) HT (proj1 Hit) Hcur) as [Hv _].
    cbn [SkipEmptyDataBlocksBackward]. rewrite Hnh. cbn [it_Valid it_Prev ops].
    rewrite Hv. cbn [negb].
    set (it1 := set_index_iter_ (BlockIter_Prev (index_iter_ it)) it).
    assert (Hcur1 : cur (index_iter_ it1) = None).
    { change (cur (BlockIter_Prev (index_iter_ it)) = None).
      unfold BlockIter_Prev. cbn [cur set_cur]. now rewrite Hcur. }
    assert (Hit1 : iterates T it1) by (apply iterates_set_index; exact Hit).
    destruct (InitDataBlock_end Compare T it1 Hit1 Hcur1) as (Hd2 & Hit2 & Hi2).
    set (it2 := Init it1) in *.
    assert (Hmove : move_data BlockIter_SeekToLast it2 = it2)
      by (unfold move_data; now rewrite Hd2).
    cbn [it_SeekToLast ops]. rewrite Hmove.
    assert (Hnh2 : nothing_here (data_ops := ops) it2 = true)
      by (unfold nothing_here; now rewrite Hd2).
    rewrite Hnh2. unfold BlockIter_Valid. rewrite Hi2, Hcur1. cbn [negb].
    exists (SetData None it2).
    split; [reflexivity|]. right. split; [reflexivity|].
    split; [now apply iterates_SetData_None|apply SetData_None].
  - destruct fuel as [|fuel]; [cbn in Hfuel; lia|].
    rewrite length_app in Hfuel, Hcur. cbn [List.length] in Hfuel, Hcur.
    assert (HT0 : T = (pre' ++ [b']) ++ b :: post) by exact HT.
    destruct (index_at T (pre' ++ [b']) post b (index_iter_ it) HT0 (proj1 Hit)) as [Hv _];
      [now rewrite length_app|].
    cbn [SkipEmptyDataBlocksBackward]. rewrite Hnh. cbn [it_Valid it_Prev ops].
    rewrite Hv. cbn [negb].
    set (it1 := set_index_iter_ (BlockIter_Prev (index_iter_ it)) it).
    assert (HT' : T = pre' ++ b' :: (b :: post)) by (now rewrite HT, <- app_assoc).
    assert (Hcur1 : cur (index_iter_ it1) = Some (List.length pre')).
    { change (cur (BlockIter_Prev (index_iter_ it)) = Some (List.length pre')).
      unfold BlockIter_Prev. cbn [cur set_cur]. rewrite Hcur.
      replace (List.length pre' + 1)%nat with (S (List.length pre')) by lia. reflexivity. }
    assert (Hit1 : iterates T it1) by (apply iterates_set_index; exact Hit).
    destruct (InitDataBlock_at Compare T pre' (b :: post) b' it1 Hit1 Hnd HT' Hcur1)
      as (d & Hd2 & He2 & Hit2 & Hi2).
    set (it2 := Init it1) in *.
    cbn [it_SeekToLast ops].
    set (it3 := move_data BlockIter_SeekToLast it2) in *.
    assert (Hd3 : data_iter_ it3 = Some (BlockIter_SeekToLast d)).
    { unfold it3, move_data. now rewrite Hd2. }
    assert (Hit3 : iterates T it3).
    { unfold it3, move_data. rewrite Hd2. now apply iterates_set_data_cur. }
    assert (Hi3 : index_iter_ it3 = index_iter_ it1).
    { unfold it3, move_data. now rewrite Hd2. }
    pose proof (nothing_here_data it3 _ Hd3) as Hnh3.
    rewrite all_entries_snoc.
    destruct (block_entries b') as [|e es] eqn:Eb.
    + (* an empty block: go on *)
      assert (Hnh3' : nothing_here (data_ops := ops) it3 = true).
      { rewrite Hnh3. unfold BlockIter_SeekToLast, BlockIter_Valid.
        rewrite He2. reflexivity. }
      destruct (IH (b :: post) b' it3 fuel Hit3 HT') as (it' & Hs & Hit');
        [now rewrite Hi3|exact Hnh3'|lia|].
      exists it'. split; [exact Hs|]. now rewrite app_nil_r.
    + (* the last pair of the block *)
      assert (Hc3 : cur (BlockIter_SeekToLast d) = Some (List.length es)).
      { unfold BlockIter_SeekToLast. cbn [cur set_cur]. rewrite He2. reflexivity. }
      assert (Hnh3' : nothing_here (data_ops := ops) it3 = false).
      { rewrite Hnh3. unfold BlockIter_Valid. rewrite Hc3.
        change (ents (BlockIter_SeekToLast d)) with (ents d). rewrite He2.
        cbn [List.length]. destruct (Nat.ltb_spec (List.length es) (S (List.length es)));
          [reflexivity|lia]. }
      destruct fuel as [|fuel]; [lia|].
      cbn [SkipEmptyDataBlocksBackward]. rewrite Hnh3'.
      exists it3. split; [reflexivity|]. left.
      exists (List.length (all_entries pre') + List.length es)%nat.
      split; [rewrite length_app; cbn [List.length]; lia|].
      exists pre', b', (b :: post), (List.length es).
      split; [|reflexivity].
      split; [exact HT'|]. split; [exact Hit3|]. split; [now rewrite Hi3|].
      exists (BlockIter_SeekToLast d). split; [exact Hd3|].
      change (ents (BlockIter_SeekToLast d)) with (ents d). rewrite He2, Eb.
      split; [reflexivity|]. split; [exact Hc3|]. cbn. lia.
Qed.

(** [SeekToLast]: at the last pair, or off a table that holds none. *)
Lemma SeekToLast_located (T : Table) (it : Iter) (fuel : nat) :
  NoDup (map handle T) ->
  iterates T it ->
  (List.length T + 2 <= fuel)%nat ->
  exists it',
    SeekToLast (index_ops := ops) (data_ops := ops) fuel it = Some it' /\
    ((exists n, S n = List.length (all_entries T) /\ located T n it') \/
     (all_entries T = [] /\ off_the_table T it')).
Proof.
  intros Hnd Hit Hfuel. unfold SeekToLast. cbn [it_SeekToLast ops].
  set (it1 := set_index_iter_ (BlockIter_SeekToLast (index_iter_ it)) it).
  assert (Hit1 : iterates T it1) by (apply iterates_set_index; exact Hit).
  destruct T as [|b0 T0] eqn:ET.
  - assert (Hcur1 : cur (index_iter_ it1) = None).
    { change (cur (BlockIter_SeekToLast (index_iter_ it)) = None).
      unfold BlockIter_SeekToLast. cbn [cur set_cur]. now rewrite (proj1 Hit). }
    destruct (InitDataBlock_end Compare [] it1 Hit1 Hcur1) as (Hd2 & Hit2 & Hi2).
    set (it2 := Init it1) in *.
    assert (Hmove : move_data BlockIter_SeekToLast it2 = it2)
      by (unfold move_data; now rewrite Hd2).
    rewrite Hmove.
    destruct fuel as [|fuel]; [cbn in Hfuel; lia|].
    cbn [SkipEmptyDataBlocksBackward].
    assert (Hnh2 : nothing_here (data_ops := ops) it2 = true)
      by (unfold nothing_here; now rewrite Hd2).
    rewrite Hnh2. cbn [it_Valid ops]. unfold BlockIter_Valid. rewrite Hi2, Hcur1. cbn [negb].
    exists (SetData None it2). split; [reflexivity|]. right. split; [reflexivity|].
    split; [now apply iterates_SetData_None|apply SetData_None].
  - rewrite <- ET in *.
    destruct (exists_last (l := T)) as (pre & b & HT); [rewrite ET; discriminate|].
    assert (HT' : T = pre ++ b :: []) by exact HT.
    assert (Hcur1 : cur (index_iter_ it1) = Some (List.length pre)).
    { change (cur (BlockIter_SeekToLast (index_iter_ it)) = Some (List.length pre)).
      unfold BlockIter_SeekToLast. cbn [cur set_cur]. rewrite (proj1 Hit).
      destruct (index_entries T) as [|x l] eqn:Ei.
      - apply (f_equal (@List.length _)) in Ei. rewrite index_entries_length, ET in Ei.
        discriminate.
      - rewrite <- Ei, index_entries_length, HT, length_app. cbn [List.length].
        f_equal. lia. }
    destruct (InitDataBlock_at Compare T pre [] b it1 Hit1 Hnd HT' Hcur1)
      as (d & Hd2 & He2 & Hit2 & Hi2).
    set (it2 := Init it1) in *.
    set (it3 := move_data BlockIter_SeekToLast it2) in *.
    assert (Hd3 : data_iter_ it3 = Some (BlockIter_SeekToLast d)).
    { unfold it3, move_data. now rewrite Hd2. }
    assert (Hit3 : iterates T it3).
    { unfold it3, move_data. rewrite Hd2. now apply iterates_set_data_cur. }
    assert (Hi3 : index_iter_ it3 = index_iter_ it1).
    { unfold it3, move_data. now rewrite Hd2. }
    pose proof (nothing_here_data it3 _ Hd3) as Hnh3.
    assert (Hlen : List.length T = S (List.length pre)).
    { rewrite HT, length_app. cbn [List.length]. lia. }
    assert (Hall : all_entries T = all_entries pre ++ block_entries b).
    { rewrite HT. apply all_entries_snoc. }
    destruct (block_entries b) as [|e es] eqn:Eb.
    + assert (Hnh3' : nothing_here (data_ops := ops) it3 = true).
      { rewrite Hnh3. unfold BlockIter_SeekToLast, BlockIter_Valid.
        rewrite He2. reflexivity. }
      destruct (SkipBackward_settles T Hnd pre [] b it3 fuel Hit3 HT') as (it' & Hs & Hit');
        [now rewrite Hi3|exact Hnh3'|lia|].
      exists it'. split; [exact Hs|]. now rewrite Hall, app_nil_r.
    + assert (Hc3 : cur (BlockIter_SeekToLast d) = Some (List.length es)).
      { unfold BlockIter_SeekToLast. cbn [cur set_cur]. rewrite He2. reflexivity. }
      assert (Hnh3' : nothing_here (data_ops := ops) it3 = false).
      { rewrite Hnh3. unfold BlockIter_Valid. rewrite Hc3.
        change (ents (BlockIter_SeekToLast d)) with (ents d). rewrite He2.
        cbn [List.length]. destruct (Nat.ltb_spec (List.length es) (S (List.length es)));
          [reflexivity|lia]. }
      destruct fuel as [|fuel]; [lia|].
      cbn [SkipEmptyDataBlocksBackward]. rewrite Hnh3'.
      exists it3. split; [reflexivity|]. left.
      exists (List.length (all_entries pre) + List.length es)%nat.
      split; [rewrite Hall, length_app; cbn [List.length]; lia|].
      exists pre, b, [], (List.length es).
      split; [|reflexivity].
      split; [exact HT'|]. split; [exact Hit3|]. split; [now rewrite Hi3|].
      exists (BlockIter_SeekToLast d). split; [exact Hd3|].
      change (ents (BlockIter_SeekToLast d)) with (ents d). rewrite He2, Eb.
      split; [reflexivity|]. split; [exact Hc3|]. cbn. lia.
Qed.

(** [Prev] from pair [n]: at pair [n - 1], or off the table before the
    first. *)
Lemma Prev_located (T : Table) (n : nat) (it : Iter) (nd : bool) (fuel : nat) :
  NoDup (map handle T) ->
  located T n it ->
  (List.length T + 2 <= fuel)%nat ->
  exists it',
    Prev (index_ops := ops) (data_ops := ops) nd fuel it = Done (Some it') /\
    ((exists m, S m = n /\ located T m it') \/ (n = O /\ off_the_table T it')).
Proof.
  intros Hnd Hloc Hfuel.
  destruct (located_current Compare T n it Hloc) as (_ & _ & Hvalid).
  destruct Hloc as (pre & b & post & i & (HT & Hit & Hcur & d & Hd & He & Hc & Hi) & ->).
  unfold Prev. rewrite Hvalid, orb_true_r, Hd. cbn [it_Prev ops].
  set (it1 := set_data_iter_ (Some (BlockIter_Prev d)) it).
  assert (Hit1 : iterates T it1) by (now apply iterates_set_data_cur).
  assert (Hlen : List.length T = (List.length pre + S (List.length post))%nat).
  { rewrite HT, length_app. reflexivity. }
  destruct i as [|i].
  - (* it was the first pair of the block *)
    assert (Hd1 : data_iter_ it1 = Some (set_cur None d)).
    { unfold it1, BlockIter_Prev. cbn [data_iter_ set_data_iter_]. now rewrite Hc. }
    assert (Hnh : nothing_here (data_ops := ops) it1 = true).
    { unfold nothing_here. rewrite Hd1. reflexivity. }
    destruct (SkipBackward_settles T Hnd pre post b it1 fuel Hit1 HT Hcur Hnh)
      as (it' & Hs & Hit'); [lia|].
    exists it'. split; [now rewrite Hs|].
    rewrite Nat.add_0_r.
    destruct Hit' as [(m & Hm & Hl)|[Hnil Hoff]].
    + left. exists m. now split.
    + right. rewrite Hnil. now split.
  - (* the block has a pair before *)
    assert (Hd1 : data_iter_ it1 = Some (set_cur (Some i) d)).
    { unfold it1, BlockIter_Prev. cbn [data_iter_ set_data_iter_]. now rewrite Hc. }
    assert (Hloc1 : located T (List.length (all_entries pre) + i) it1).
    { exists pre, b, post, i. split; [|reflexivity].
      split; [exact HT|]. split; [exact Hit1|]. split; [exact Hcur|].
      exists (set_cur (Some i) d). split; [exact Hd1|].
      cbn [ents cur set_cur]. split; [exact He|]. split; [reflexivity|]. lia. }
    destruct (located_current Compare T _ it1 Hloc1) as (Hcurrent & Hlt & _).
    destruct fuel as [|fuel]; [lia|].
    cbn [SkipEmptyDataBlocksBackward].
    destruct (nothing_here (data_ops := ops) it1) eqn:Hnh.
    + apply nothing_here_current in Hnh. rewrite Hnh in Hcurrent. symmetry in Hcurrent.
      apply nth_error_None in Hcurrent. lia.
    + exists it1. split; [reflexivity|]. left.
      exists (List.length (all_entries pre) + i)%nat. split; [lia|exact Hloc1].
Qed.

Lemma firstn_S_snoc {A : Type} (l : list A) (k : nat) (e : A) :
  nth_error l k = Some e -> firstn (S k) l = firstn k l ++ [e].
Proof.
  revert k. induction l as [|x l IH]; intros k En.
  - destruct k; discriminate.
  - destruct k as [|k]; [now injection En as ->|].
    cbn [firstn app]. f_equal. now apply IH.
Qed.

(** The pairs met backward from pair [k]. *)
Lemma scan_backward_located (T : Table) (nd : bool) (fuel : nat) :
  NoDup (map handle T) ->
  (List.length T + 2 <= fuel)%nat ->
  forall (n k : nat) (it : Iter),
    located T k it ->
    scan_backward Compare nd fuel n it = firstn n (rev (firstn (S k) (all_entries T))).
Proof.
  intros Hnd Hfuel. induction n as [|n IH]; intros k it Hloc; [reflexivity|].
  cbn [scan_backward].
  destruct (located_current Compare T k it Hloc) as (Hcurrent & Hlt & _).
  destruct (nth_error (all_entries T) k) as [e|] eqn:En;
    [|apply nth_error_None in En; lia].
  rewrite Hcurrent, (firstn_S_snoc _ _ _ En), rev_app_distr. cbn [rev app firstn]. f_equal.
  destruct (Prev_located T k it nd fuel Hnd Hloc Hfuel)
    as (it' & -> & [(m & <- & Hl)|[-> Hoff]]).
  - now apply IH.
  - cbn [firstn rev]. rewrite firstn_nil.
    destruct n; [reflexivity|]. cbn [scan_backward].
    now rewrite (proj1 (off_the_table_current Compare T it' Hoff)).
Qed.

End BackwardScan.

Section BackwardScanFacts.
Import TwoLevelIterator TableScan.

(** X19.  [Prev] moves to the preceding pair.  Over a table whose blocks
    have distinct handles, an iterator that stands at pair number [n] returns
    from [Prev], with fuel for the loop, standing at pair [n - 1]: the pair
    before it in the same block, or the last pair of the closest earlier block
    that is not empty.  Before the first pair of the table it is left without
    a data iterator, hence not valid. *)
Theorem Prev_moves_to_the_preceding_pair :
  forall (Compare : Slice -> Slice -> Z) (T : Table)
         (it : TwoLevelIterator BlockIter BlockIter) (n : nat) (ndebug : bool) (fuel : nat),
    NoDup (map handle T) ->
    located T n it ->
    (List.length T + 2 <= fuel)%nat ->
    exists it',
      Prev (index_ops := BlockIter_ops Compare) (data_ops := BlockIter_ops Compare)
        ndebug fuel it = Done (Some it') /\
      iterates T it' /\
      match n with
      | S m => located T m it' /\ current Compare it' = nth_error (all_entries T) m
      | O => Valid (data_ops := BlockIter_ops Compare) it' = false /\
             current Compare it' = None
      end.
Proof.
  intros Compare T it n nd fuel Hnd Hloc Hfuel.
  destruct (Prev_located Compare T n it nd fuel Hnd Hloc Hfuel)
    as (it' & HP & [(m & <- & Hl)|[-> Hoff]]).
  - exists it'. split; [exact HP|].
    destruct (located_current Compare T m it' Hl) as (Hc & _ & _).
    split; [|split; [exact Hl|exact Hc]].
    destruct Hl as (pre & b & post & i & (_ & Hit & _) & _). exact Hit.
  - exists it'. split; [exact HP|].
    destruct (off_the_table_current Compare T it' Hoff) as [Hc Hv].
    split; [exact (proj1 Hoff)|]. now split.
Qed.

(** From the only pair of the last block, back over the empty block. *)
Lemma Prev_moves_to_the_preceding_pair_witness :
  let ops := BlockIter_ops bytewise_Compare in
  let it :=
    {| block_function_ := BlockReader sparse_table;
       status_ := OK;
       index_iter_ := {| ents := index_entries sparse_table; cur := Some 2%nat;
                         iter_status := OK |};
       data_iter_ := Some {| ents := [(str "c", str "3")];
                             cur := Some 0%nat; iter_status := OK |};
       data_block_handle_ := EncodeTo {| handle_offset := 14; handle_size := 2 |} |} in
  NoDup (map handle sparse_table) /\
  located sparse_table 2 it /\
  exists it',
    Prev (index_ops := ops) (data_ops := ops) false 5 it = Done (Some it') /\
    current bytewise_Compare it' = Some (str "b", str "2").
Proof.
  intros ops it.
  assert (Hl : located sparse_table 2 it).
  { exists (firstn 2 sparse_table), (nth 2 sparse_table (Build_Block [] [] [])), [], 0%nat.
    split; [|reflexivity].
    split; [reflexivity|]. split.
    - split; [reflexivity|]. split; [reflexivity|].
      eexists. split; [vm_compute; reflexivity|]. split; reflexivity.
    - split; [reflexivity|]. eexists. split; [reflexivity|].
      split; [reflexivity|]. split; [reflexivity|]. cbn. lia. }
  split; [exact sparse_table_handles|]. split; [exact Hl|].
  destruct (Prev_moves_to_the_preceding_pair bytewise_Compare sparse_table it 2 false 5
              sparse_table_handles Hl (le_n 5)) as (it' & HP & _ & _ & Hc).
  exists it'. split; [exact HP|exact Hc].
Defined.

(** X20.  A backward scan yields every pair, in reverse order.  Over a
    table whose blocks have distinct handles, from any state of an iterator
    over it, [SeekToLast] returns at the last pair of the table, and reading
    the current pair and calling [Prev] until the iterator is no longer valid
    meets exactly the pairs of the table from the last to the first. *)
Theorem backward_scan_yields_every_pair_in_reverse :
  forall (Compare : Slice -> Slice -> Z) (T : Table)
         (it : TwoLevelIterator BlockIter BlockIter) (ndebug : bool) (fuel n : nat),
    NoDup (map handle T) ->
    iterates T it ->
    (List.length T + 2 <= fuel)%nat ->
    (List.length (all_entries T) <= n)%nat ->
    exists it0,
      SeekToLast (index_ops := BlockIter_ops Compare) (data_ops := BlockIter_ops Compare)
        fuel it = Some it0 /\
      current Compare it0 = hd_error (rev (all_entries T)) /\
      scan_backward Compare ndebug fuel n it0 = rev (all_entries T).
Proof.
  intros Compare T it nd fuel n Hnd Hit Hfuel Hn.
  destruct (SeekToLast_located Compare T it fuel Hnd Hit Hfuel)
    as (it0 & HS & [(k & Hk & Hl)|[Hnil Hoff]]).
  - exists it0. split; [exact HS|].
    assert (Hscan : forall m, (List.length (all_entries T) <= m)%nat ->
                      scan_backward Compare nd fuel m it0 = rev (all_entries T)).
    { intros m Hm.
      rewrite (scan_backward_located Compare T nd fuel Hnd Hfuel m k it0 Hl).
      rewrite (firstn_all2 (n := S k)) by lia.
      apply firstn_all2. rewrite length_rev. exact Hm. }
    split; [|now apply Hscan].
    destruct (located_current Compare T k it0 Hl) as (Hc & _ & _).
    rewrite Hc. clear - Hk.
    destruct (exists_last (l := all_entries T)) as (l & e & El);
      [intros E; rewrite E in Hk; discriminate|].
    rewrite El in *. rewrite length_app in Hk. cbn in Hk.
    rewrite rev_app_distr, nth_error_app2 by lia.
    replace (k - List.length l)%nat with O by lia. reflexivity.
  - exists it0. split; [exact HS|].
    destruct (off_the_table_current Compare T it0 Hoff) as [Hc _].
    rewrite Hnil. split; [exact Hc|].
    destruct n; [reflexivity|]. cbn [scan_backward]. now rewrite Hc.
Qed.

Lemma backward_scan_yields_every_pair_in_reverse_witness :
  exists it0,
    SeekToLast (index_ops := BlockIter_ops bytewise_Compare)
      (data_ops := BlockIter_ops bytewise_Compare) 5 (NewIterator sparse_table) = Some it0 /\
    scan_backward bytewise_Compare false 5 3 it0 =
      [(str "c", str "3"); (str "b", str "2"); (str "a", str "1")].
Proof.
  destruct (backward_scan_yields_every_pair_in_reverse bytewise_Compare sparse_table
              (NewIterator sparse_table) false 5 3 sparse_table_handles
              (NewIterator_iterates sparse_table) (le_n 5))
    as (it0 & HS & _ & Hscan).
  - cbn. lia.
  - exists it0. split; [exact HS|exact Hscan].
Defined.

End BackwardScanFacts.

(** ** Any two-level iterator *)

Section AnyIterator.
Import TwoLevelIterator IteratorLogic.
Context {II DI : Type} {index_ops : Iterator II} {data_ops : Iterator DI}.

Local Abbreviation Iter := (TwoLevelIterator II DI).

Lemma error_kept_refl (t : Iter) : error_kept t t.
Proof. now left. Qed.

Lemma error_kept_trans (t1 t2 t3 : Iter) :
  error_kept t1 t2 -> error_kept t2 t3 -> error_kept t1 t3.
Proof.
  unfold error_kept. intros [H1|[H1 H1']] [H2|[H2 H2']].
  - left. congruence.
  - right. split; congruence.
  - right. split; congruence.
  - congruence.
Qed.

Lemma error_kept_same (t t' : Iter) : status_ t' = status_ t -> error_kept t t'.
Proof. now left. Qed.

Lemma SaveError_kept (s : Status) (t : Iter) : error_kept t (SaveError s t).
Proof.
  unfold SaveError, error_kept.
  destruct (status_ok (status_ t)) eqn:Et, (status_ok s) eqn:Es; cbn; auto.
Qed.

Lemma SetDataIterator_kept (d : option DI) (t : Iter) :
  error_kept t (SetDataIterator d t).
Proof.
  unfold SetDataIterator. destruct (data_iter_ t) as [d0|].
  - apply (error_kept_trans t (SaveError (it_status d0) t)); [apply SaveError_kept|].
    now left.
  - now left.
Qed.

Lemma InitDataBlock_kept (t : Iter) : error_kept t (InitDataBlock t).
Proof.
  unfold InitDataBlock. destruct (negb (it_Valid (index_iter_ t))).
  - apply SetDataIterator_kept.
  - destruct (data_iter_ t) as [d|] eqn:Ed.
    + destruct (slice_eqb _ _); [apply error_kept_refl|].
      eapply error_kept_trans; [|apply SetDataIterator_kept]. now left.
    + eapply error_kept_trans; [|apply SetDataIterator_kept]. now left.
Qed.

Lemma move_data_kept (move : DI -> DI) (t : Iter) : error_kept t (move_data move t).
Proof. unfold move_data. destruct (data_iter_ t); now left. Qed.

(** One round of either skipping loop. *)
Lemma round_kept (step : II -> II) (move : DI -> DI) (t : Iter) :
  error_kept t (move_data move (InitDataBlock (set_index_iter_ (step (index_iter_ t)) t))).
Proof.
  eapply error_kept_trans; [|apply move_data_kept].
  eapply error_kept_trans; [|apply InitDataBlock_kept]. now left.
Qed.

Lemma SkipForward_kept (fuel : nat) :
  forall t t' : Iter, SkipEmptyDataBlocksForward fuel t = Some t' -> error_kept t t'.
Proof.
  induction fuel as [|fuel IH]; intros t t'; cbn [SkipEmptyDataBlocksForward];
    [discriminate|].
  destruct (nothing_here t); [|intros [= <-]; apply error_kept_refl].
  destruct (negb (it_Valid (index_iter_ t))).
  - intros [= <-]. apply SetDataIterator_kept.
  - intros H. eapply error_kept_trans; [apply (round_kept it_Next it_SeekToFirst)|].
    now apply IH.
Qed.

Lemma SkipBackward_kept (fuel : nat) :
  forall t t' : Iter, SkipEmptyDataBlocksBackward fuel t = Some t' -> error_kept t t'.
Proof.
  induction fuel as [|fuel IH]; intros t t'; cbn [SkipEmptyDataBlocksBackward];
    [discriminate|].
  destruct (nothing_here t); [|intros [= <-]; apply error_kept_refl].
  destruct (negb (it_Valid (index_iter_ t))).
  - intros [= <-]. apply SetDataIterator_kept.
  - intros H. eapply error_kept_trans; [apply (round_kept it_Prev it_SeekToLast)|].
    now apply IH.
Qed.

Lemma slice_eqb_refl (a : Slice) : slice_eqb a a = true.
Proof. unfold slice_eqb. now destruct (list_eq_dec _ a a). Qed.

End AnyIterator.

Section AnyIteratorFacts.
Import TwoLevelIterator IteratorLogic.
Context {II DI : Type} {index_ops : Iterator II} {data_ops : Iterator DI}.

(** X21.  The status an iterator has saved is never lost.  Through each of
    [Seek], [SeekToFirst], [SeekToLast], [Next] and [Prev], whatever the index
    and data iterators are and however many blocks the loops pass, the saved
    status either stays what it was or goes from OK to an error: an error
    saved from a data iterator that was dropped is neither cleared nor
    replaced by a later one. *)
Theorem saved_error_is_never_lost :
  forall (t : TwoLevelIterator II DI) (fuel : nat) (target : Slice) (ndebug : bool),
    let kept (r : option (TwoLevelIterator II DI)) :=
      match r with Some t' => error_kept t t' | None => True end in
    let returned (r : outcome (option (TwoLevelIterator II DI))) :=
      match r with Done r' => kept r' | Abort _ => True end in
    kept (Seek fuel target t) /\
    kept (SeekToFirst fuel t) /\
    kept (SeekToLast fuel t) /\
    returned (Next ndebug fuel t) /\
    returned (Prev ndebug fuel t).
Proof.
  intros t fuel target nd kept returned. unfold kept, returned.
  split; [|split; [|split; [|split]]].
  - unfold Seek.
    destruct (SkipEmptyDataBlocksForward fuel _) as [t'|] eqn:E; [|exact I].
    eapply error_kept_trans; [apply (round_kept (it_Seek target) (it_Seek target))|].
    exact (SkipForward_kept fuel _ _ E).
  - unfold SeekToFirst.
    destruct (SkipEmptyDataBlocksForward fuel _) as [t'|] eqn:E; [|exact I].
    eapply error_kept_trans; [apply (round_kept it_SeekToFirst it_SeekToFirst)|].
    exact (SkipForward_kept fuel _ _ E).
  - unfold SeekToLast.
    destruct (SkipEmptyDataBlocksBackward fuel _) as [t'|] eqn:E; [|exact I].
    eapply error_kept_trans; [apply (round_kept it_SeekToLast it_SeekToLast)|].
    exact (SkipBackward_kept fuel _ _ E).
  - unfold Next. destruct (nd || Valid t); [|exact I].
    destruct (data_iter_ t) as [d|]; [|exact I].
    destruct (SkipEmptyDataBlocksForward fuel _) as [t'|] eqn:E; [|exact I].
    eapply error_kept_trans; [|exact (SkipForward_kept fuel _ _ E)]. now left.
  - unfold Prev. destruct (nd || Valid t); [|exact I].
    destruct (data_iter_ t) as [d|]; [|exact I].
    destruct (SkipEmptyDataBlocksBackward fuel _) as [t'|] eqn:E; [|exact I].
    eapply error_kept_trans; [|exact (SkipBackward_kept fuel _ _ E)]. now left.
Qed.

(** X22.  [InitDataBlock] called again right after [InitDataBlock].  Let
    the block function answer the second call as any function [again].  If
    the index iterator is not valid, or if the first call left a data iterator,
    the second call changes nothing, whatever [again] is: the block function
    is not asked.  If the index iterator is valid and the first call left no
    data iterator, because the block function returned null, the second call
    asks the block function again for the same handle and installs what it
    answers now. *)
Theorem InitDataBlock_asks_again_only_after_null :
  forall (t : TwoLevelIterator II DI) (again : Slice -> option DI),
    let t1 := set_block_function_ again (InitDataBlock t) in
    (it_Valid (index_iter_ t1) = false -> InitDataBlock t1 = t1) /\
    (forall d, data_iter_ t1 = Some d -> InitDataBlock t1 = t1) /\
    (it_Valid (index_iter_ t1) = true -> data_iter_ t1 = None ->
     data_block_handle_ t1 = it_value (index_iter_ t1) /\
     InitDataBlock t1 = set_data_iter_ (again (it_value (index_iter_ t1))) t1).
Proof.
  intros [bf st idx data h] again.
  unfold InitDataBlock, SetDataIterator, SaveError, set_block_function_.
  cbn [index_iter_ data_iter_ data_block_handle_ block_function_ status_
       set_data_block_handle_ set_data_iter_ set_status_].
  destruct (it_Valid idx) eqn:Ev; cbn [negb].
  - destruct data as [d|].
    + destruct (slice_eqb (it_value idx) h) eqn:Eh.
      * cbn [index_iter_ data_iter_ data_block_handle_ block_function_ status_
             set_data_block_handle_ set_data_iter_ set_status_].
        rewrite Ev, Eh. cbn [negb].
        split; [discriminate|]. split; [reflexivity|]. discriminate.
      * destruct (status_ok st && negb (status_ok (it_status d)));
          cbn [index_iter_ data_iter_ data_block_handle_ block_function_ status_
               set_data_block_handle_ set_data_iter_ set_status_];
          rewrite Ev; cbn [negb]; rewrite slice_eqb_refl;
          (split; [discriminate|]);
          (split; [intros d' ->; reflexivity|]);
          intros _ ->; split; reflexivity.
    + cbn [index_iter_ data_iter_ data_block_handle_ block_function_ status_
           set_data_block_handle_ set_data_iter_ set_status_].
      rewrite Ev. cbn [negb]. rewrite slice_eqb_refl.
      split; [discriminate|].
      split; [intros d' ->; reflexivity|].
      intros _ ->. split; reflexivity.
  - destruct data as [d|].
    + destruct (status_ok st && negb (status_ok (it_status d)));
        cbn [index_iter_ data_iter_ data_block_handle_ block_function_ status_
             set_data_block_handle_ set_data_iter_ set_status_];
        rewrite Ev; cbn [negb];
        (split; [reflexivity|]); (split; [discriminate|]); discriminate.
    + cbn [index_iter_ data_iter_ data_block_handle_ block_function_ status_
           set_data_block_handle_ set_data_iter_ set_status_].
      rewrite Ev. cbn [negb].
      split; [reflexivity|]. split; [discriminate|]. discriminate.
Qed.

(** An iterator without a data iterator cannot step: it is not valid, and
    [Next] and [Prev] stop at [assert(Valid())] or at the null pointer. *)
Lemma iterator_without_data_cannot_step (t : TwoLevelIterator II DI) (fuel : nat) :
  data_iter_ t = None ->
  Valid t = false /\ key t = None /\ value t = None /\
  Next false fuel t = Abort AssertionFailure /\
  Prev false fuel t = Abort AssertionFailure /\
  Next true fuel t = Abort NullDereference /\
  Prev true fuel t = Abort NullDereference.
Proof.
  intros Hd. unfold Next, Prev, Valid, data_Valid, key, value.
  rewrite Hd. cbn. repeat split.
Qed.

End AnyIteratorFacts.

Section AskedAgain.
Import TwoLevelIterator IteratorLogic.

(** A block function that returned null for the first block of a table and
    reads the table when asked again. *)
Lemma InitDataBlock_asks_again_only_after_null_witness :
  let ops := BlockIter_ops bytewise_Compare in
  let index_iter := {| ents := index_entries example_table; cur := Some 0%nat;
                       iter_status := OK |} in
  let t := NewTwoLevelIterator index_iter (fun _ => None) in
  let t1 := set_block_function_ (BlockReader example_table)
              (InitDataBlock (index_ops := ops) (data_ops := ops) t) in
  it_Valid (index_iter_ t1) = true /\
  data_iter_ t1 = None /\
  data_iter_ (InitDataBlock (index_ops := ops) (data_ops := ops) t1) =
    Some (NewBlockIter [(str "a", str "1"); (str "b", str "2")]).
Proof.
  intros ops index_iter t t1.
  assert (Hv : it_Valid (index_iter_ t1) = true) by reflexivity.
  assert (Hd : data_iter_ t1 = None) by reflexivity.
  split; [exact Hv|]. split; [exact Hd|].
  destruct (InitDataBlock_asks_again_only_after_null (index_ops := ops) (data_ops := ops)
              t (BlockReader example_table)) as (_ & _ & Hagain).
  destruct (Hagain Hv Hd) as [_ E].
  fold t1 in E. rewrite E. vm_compute. reflexivity.
Defined.

End AskedAgain.

(** ** Scanning a range *)

Section RangeScan.
Import TwoLevelIterator TableScan.
Variable Compare : Slice -> Slice -> Z.
Hypothesis order : total_order Compare.

Local Abbreviation ops := (BlockIter_ops Compare).
Local Abbreviation Iter := (TwoLevelIterator BlockIter BlockIter).
Local Abbreviation Init := (InitDataBlock (index_ops := ops) (data_ops := ops)).
Local Abbreviation SetData := (SetDataIterator (II := BlockIter) (data_ops := ops)).

Lemma find_index_skip {A : Type} (p : A -> bool) (l1 l2 : list A) :
  Forall (fun y => p y = false) l1 ->
  find_index p (l1 ++ l2) = option_map (Nat.add (List.length l1)) (find_index p l2).
Proof.
  induction 1 as [|a l1 Ha _ IH]; cbn [find_index app List.length].
  - now destruct (find_index p l2).
  - rewrite Ha, IH. now destruct (find_index p l2).
Qed.

Lemma find_index_app_Some {A : Type} (p : A -> bool) (l1 l2 : list A) (j : nat) :
  find_index p l1 = Some j -> find_index p (l1 ++ l2) = Some j.
Proof.
  revert j. induction l1 as [|a l1 IH]; intros j; cbn [find_index app]; [discriminate|].
  destruct (p a); [auto|].
  destruct (find_index p l1) as [i|]; [|discriminate].
  intros [= <-]. now rewrite (IH i eq_refl).
Qed.

Lemma find_index_all_false {A : Type} (p : A -> bool) (l : list A) :
  Forall (fun y => p y = false) l -> find_index p l = None.
Proof.
  induction 1 as [|a l Ha _ IH]; cbn [find_index]; [reflexivity|]. now rewrite Ha, IH.
Qed.

Lemma find_index_all_true {A : Type} (p : A -> bool) (l : list A) :
  Forall (fun y => p y = true) l -> l <> [] -> find_index p l = Some O.
Proof.
  destruct 1 as [|a l Ha _]; [congruence|]. intros _. cbn [find_index]. now rewrite Ha.
Qed.

(** [Seek(k)] over a well-formed table: at the first pair at or after [k],
    counted through the table, or off the table when there is none. *)
Lemma Seek_located (T : Table) (it : Iter) (k : Slice) (fuel : nat) :
  well_formed Compare T ->
  iterates T it ->
  (List.length T + 2 <= fuel)%nat ->
  exists it',
    Seek (index_ops := ops) (data_ops := ops) fuel k it = Some it' /\
    match find_index (at_or_after Compare k) (all_entries T) with
    | Some n => located T n it'
    | None => off_the_table T it'
    end.
Proof.
  intros [Hnd Hkeys _ Hsep] Hit Hfuel.
  unfold Seek. cbn [it_Seek ops].
  set (it1 := set_index_iter_ (BlockIter_Seek Compare k (index_iter_ it)) it).
  assert (Hit1 : iterates T it1) by (apply iterates_set_index; exact Hit).
  assert (Hcur1 : cur (index_iter_ it1) =
                  find_index (fun b => at_or_after Compare k (separator b, handle b)) T).
  { change (cur (BlockIter_Seek Compare k (index_iter_ it)) =
            find_index (fun b => at_or_after Compare k (separator b, handle b)) T).
    unfold BlockIter_Seek. cbn [cur set_cur]. rewrite (proj1 Hit).
    unfold index_entries. apply find_index_map. }
  destruct (find_index _ T) as [i|] eqn:Ei.
  - (* the index iterator stands at a block *)
    destruct (find_index_Some _ _ _ Ei) as (pre & b & post & HT & Hlen & Hb & Hpre).
    rewrite <- Hlen in Hcur1.
    destruct (InitDataBlock_at Compare T pre post b it1 Hit1 Hnd HT Hcur1)
      as (d & Hd2 & He2 & Hit2 & Hi2).
    set (it2 := Init it1) in *.
    set (it3 := move_data (BlockIter_Seek Compare k) it2) in *.
    assert (Hd3 : data_iter_ it3 = Some (BlockIter_Seek Compare k d)).
    { unfold it3, move_data. now rewrite Hd2. }
    assert (Hit3 : iterates T it3).
    { unfold it3, move_data. rewrite Hd2. now apply iterates_set_data_cur. }
    assert (Hi3 : index_iter_ it3 = index_iter_ it1).
    { unfold it3, move_data. now rewrite Hd2. }
    rewrite HT in Hsep. destruct (separates_app Compare pre (b :: post) Hsep) as [Hown Hrest].
    cbn [separates] in Hrest. destruct Hrest as (_ & Hafter & _).
    pose proof (entries_before Compare order k pre Hpre Hown) as Hbefore.
    assert (Hall : all_entries T = all_entries pre ++ block_entries b ++ all_entries post).
    { rewrite HT. apply all_entries_split. }
    rewrite Hall, (find_index_skip _ _ _ Hbefore).
    destruct (find_index (at_or_after Compare k) (block_entries b)) as [j|] eqn:Ef.
    + (* the block holds a pair at or after k *)
      rewrite (find_index_app_Some _ _ _ _ Ef). cbn [option_map].
      assert (Hloc : located T (List.length (all_entries pre) + j) it3).
      { exists pre, b, post, j. split; [|reflexivity].
        split; [exact HT|]. split; [exact Hit3|]. split; [now rewrite Hi3|].
        exists (BlockIter_Seek Compare k d). split; [exact Hd3|].
        unfold BlockIter_Seek. cbn [ents cur set_cur]. rewrite He2, Ef.
        split; [reflexivity|]. split; [reflexivity|].
        exact (find_index_bound _ _ _ Ef). }
      destruct (located_current Compare T _ it3 Hloc) as (Hcurrent & Hlt & _).
      destruct fuel as [|fuel]; [lia|]. cbn [SkipEmptyDataBlocksForward].
      destruct (nothing_here (data_ops := ops) it3) eqn:Hnh.
      * apply nothing_here_current in Hnh. rewrite Hnh in Hcurrent. symmetry in Hcurrent.
        apply nth_error_None in Hcurrent. lia.
      * exists it3. split; [reflexivity|exact Hloc].
    + (* it does not: the answer is the first pair after the block *)
      assert (Hnh : nothing_here (data_ops := ops) it3 = true).
      { unfold nothing_here. rewrite Hd3. cbn [it_Valid ops].
        unfold BlockIter_Seek, BlockIter_Valid. cbn [cur set_cur]. now rewrite He2, Ef. }
      destruct (SkipForward_settles Compare T Hnd post pre b it3 fuel Hit3 HT)
        as (it' & Hs & Hit'); [now rewrite Hi3|exact Hnh| |].
      { rewrite HT, length_app in Hfuel. cbn [List.length] in Hfuel. lia. }
      exists it'. split; [exact Hs|].
      rewrite (find_index_skip _ _ _ (find_index_None _ _ Ef)).
      assert (Htrue : Forall (fun e => at_or_after Compare k e = true) (all_entries post)).
      { eapply Forall_impl; [|exact Hafter]. intros e He.
        apply at_or_after_true. apply at_or_after_true in Hb. cbn [fst] in Hb.
        exact (after_separator Compare order _ _ _ Hb He). }
      destruct Hit' as [Hl|[Hnil Hoff]].
      * destruct (located_current Compare T _ it' Hl) as (_ & Hlt & _).
        rewrite (find_index_all_true _ _ Htrue).
        -- cbn [option_map]. rewrite all_entries_snoc, length_app in Hl.
           now rewrite !Nat.add_0_r.
        -- intros Hnil. rewrite Hall, Hnil, app_nil_r, all_entries_snoc in Hlt. lia.
      * rewrite Hnil. cbn. exact Hoff.
  - (* every separator is before k *)
    destruct (InitDataBlock_end Compare T it1 Hit1 Hcur1) as (Hd2 & Hit2 & Hi2).
    set (it2 := Init it1) in *.
    assert (Hmove : move_data (BlockIter_Seek Compare k) it2 = it2)
      by (unfold move_data; now rewrite Hd2).
    rewrite Hmove.
    destruct fuel as [|fuel]; [lia|]. cbn [SkipEmptyDataBlocksForward].
    assert (Hnh2 : nothing_here (data_ops := ops) it2 = true)
      by (unfold nothing_here; now rewrite Hd2).
    rewrite Hnh2. cbn [it_Valid ops]. unfold BlockIter_Valid. rewrite Hi2, Hcur1.
    cbn [negb].
    exists (SetData None it2). split; [reflexivity|].
    rewrite find_index_all_false.
    + split; [now apply iterates_SetData_None|apply SetData_None].
    + apply (entries_before Compare order).
      * now apply find_index_None.
      * rewrite <- (app_nil_r T) in Hsep. now apply separates_app in Hsep.
Qed.

(** In a list of pairs with increasing keys, the pairs at or after [k] are
    those from the first such pair on. *)
Lemma filter_from (k : Slice) (l : list Entry) :
  increasing Compare (map fst l) ->
  filter (at_or_after Compare k) l =
  match find_index (at_or_after Compare k) l with
  | Some n => skipn n l
  | None => []
  end.
Proof.
  induction l as [|a l IH]; cbn [map increasing filter find_index]; [reflexivity|].
  intros [Ha Hinc]. destruct (at_or_after Compare k a) eqn:Ea.
  - cbn [skipn]. f_equal. clear IH.
    apply at_or_after_true in Ea.
    rewrite Forall_map in Ha.
    induction Ha as [|e l He _ IHl]; [reflexivity|].
    cbn [filter].
    assert (Et : at_or_after Compare k e = true).
    { apply at_or_after_true. exact (after_separator Compare order _ _ _ Ea He). }
    rewrite Et. f_equal. apply IHl. cbn [map increasing] in Hinc. tauto.
  - rewrite (IH Hinc). now destruct (find_index (at_or_after Compare k) l).
Qed.

End RangeScan.

Section RangeScanFacts.
Import TwoLevelIterator TableScan.

(** X23.  A range scan yields the pairs at or after the key.  Over a
    well-formed table, under a comparator that is a total order and from any
    state of an iterator over the table, [Seek(k)] returns, and reading the
    current pair and calling [Next] until the iterator is no longer valid
    meets exactly the stored pairs whose key is at or after [k], in order. *)
Theorem range_scan_yields_the_pairs_at_or_after_the_key :
  forall (Compare : Slice -> Slice -> Z) (T : Table)
         (it : TwoLevelIterator BlockIter BlockIter) (k : Slice)
         (ndebug : bool) (fuel n : nat),
    total_order Compare ->
    well_formed Compare T ->
    iterates T it ->
    (List.length T + 2 <= fuel)%nat ->
    (List.length (all_entries T) <= n)%nat ->
    exists it0,
      Seek (index_ops := BlockIter_ops Compare) (data_ops := BlockIter_ops Compare)
        fuel k it = Some it0 /\
      scan_forward Compare ndebug fuel n it0 =
        filter (at_or_after Compare k) (all_entries T).
Proof.
  intros Compare T it k nd fuel n order Hwf Hit Hfuel Hn.
  destruct (Seek_located Compare order T it k fuel Hwf Hit Hfuel) as (it0 & HS & Hpos).
  exists it0. split; [exact HS|].
  rewrite (filter_from Compare order k _ (wf_keys _ _ Hwf)).
  destruct (find_index (at_or_after Compare k) (all_entries T)) as [m|].
  - rewrite (scan_forward_located Compare T nd fuel (wf_handles _ _ Hwf) Hfuel n m it0 Hpos).
    apply firstn_all2. rewrite length_skipn. lia.
  - destruct (off_the_table_current Compare T it0 Hpos) as [Hc _].
    destruct n; [reflexivity|]. cbn [scan_forward]. now rewrite Hc.
Qed.

(** From "ab", a key inside the first block, to the end of the table. *)
Lemma range_scan_yields_the_pairs_at_or_after_the_key_witness :
  exists it0,
    Seek (index_ops := BlockIter_ops bytewise_Compare)
      (data_ops := BlockIter_ops bytewise_Compare) 4 (str "ab") (NewIterator example_table)
      = Some it0 /\
    scan_forward bytewise_Compare false 4 3 it0 = [(str "b", str "2"); (str "c", str "3")].
Proof.
  destruct (range_scan_yields_the_pairs_at_or_after_the_key bytewise_Compare example_table
              (NewIterator example_table) (str "ab") false 4 3 bytewise_total_order
              example_table_well_formed (NewIterator_iterates example_table) (le_n 4))
    as (it0 & HS & Hscan).
  - cbn. lia.
  - exists it0. split; [exact HS|exact Hscan].
Defined.

End RangeScanFacts.

Section OffTheTable.
Import TwoLevelIterator TableScan.

(** X24.  Off the table, only a seek helps.  Over a table whose blocks have
    distinct handles, [Next] from the last pair and [Prev] from the first
    return and leave the iterator not valid and without a data iterator, which
    is also the state of an iterator that was never positioned.  In that
    state [Next] and [Prev] alike stop at [assert(Valid())] in a build with
    assertions, and dereference the null data iterator when assertions are
    compiled out: stepping back from past the end is not possible. *)
Theorem off_the_table_only_a_seek_helps :
  forall (Compare : Slice -> Slice -> Z) (T : Table)
         (it : TwoLevelIterator BlockIter BlockIter) (n : nat)
         (ndebug : bool) (fuel fuel' : nat),
    NoDup (map handle T) ->
    located T n it ->
    (List.length T + 2 <= fuel)%nat ->
    let ops := BlockIter_ops Compare in
    let stuck (t : TwoLevelIterator BlockIter BlockIter) :=
      Valid (data_ops := ops) t = false /\
      Next (index_ops := ops) (data_ops := ops) false fuel' t = Abort AssertionFailure /\
      Prev (index_ops := ops) (data_ops := ops) false fuel' t = Abort AssertionFailure /\
      Next (index_ops := ops) (data_ops := ops) true fuel' t = Abort NullDereference /\
      Prev (index_ops := ops) (data_ops := ops) true fuel' t = Abort NullDereference in
    (S n = List.length (all_entries T) ->
     exists it', Next (index_ops := ops) (data_ops := ops) ndebug fuel it = Done (Some it') /\
                 stuck it') /\
    (n = O ->
     exists it', Prev (index_ops := ops) (data_ops := ops) ndebug fuel it = Done (Some it') /\
                 stuck it') /\
    stuck (NewIterator T).
Proof.
  intros Compare T it n nd fuel fuel' Hnd Hloc Hfuel ops stuck.
  assert (Hstuck : forall t, data_iter_ t = None -> stuck t).
  { intros t Hd.
    destruct (iterator_without_data_cannot_step (index_ops := ops) (data_ops := ops)
                t fuel' Hd) as (Hv & _ & _ & H1 & H2 & H3 & H4).
    repeat split; assumption. }
  split; [|split].
  - intros Hlast.
    destruct (Next_located Compare T n it nd fuel Hnd Hloc Hfuel)
      as (it' & HN & [Hl|[_ Hoff]]).
    + destruct (located_current Compare T (S n) it' Hl) as (_ & Hlt & _). lia.
    + exists it'. split; [exact HN|]. apply Hstuck. exact (proj2 Hoff).
  - intros Hfirst.
    destruct (Prev_located Compare T n it nd fuel Hnd Hloc Hfuel)
      as (it' & HP & [(m & Hm & _)|[_ Hoff]]).
    + lia.
    + exists it'. split; [exact HP|]. apply Hstuck. exact (proj2 Hoff).
  - apply Hstuck. reflexivity.
Qed.

(** The only pair of the last block of a table. *)
Lemma off_the_table_only_a_seek_helps_witness :
  let ops := BlockIter_ops bytewise_Compare in
  let it :=
    {| block_function_ := BlockReader sparse_table;
       status_ := OK;
       index_iter_ := {| ents := index_entries sparse_table; cur := Some 2%nat;
                         iter_status := OK |};
       data_iter_ := Some {| ents := [(str "c", str "3")];
                             cur := Some 0%nat; iter_status := OK |};
       data_block_handle_ := EncodeTo {| handle_offset := 14; handle_size := 2 |} |} in
  NoDup (map handle sparse_table) /\
  located sparse_table 2 it /\
  exists it',
    Next (index_ops := ops) (data_ops := ops) false 5 it = Done (Some it') /\
    Valid (data_ops := ops) it' = false /\
    Next (index_ops := ops) (data_ops := ops) false 5 it' = Abort AssertionFailure /\
    Prev (index_ops := ops) (data_ops := ops) false 5 it' = Abort AssertionFailure.
Proof.
  intros ops it.
  assert (Hl : located sparse_table 2 it).
  { exists (firstn 2 sparse_table), (nth 2 sparse_table (Build_Block [] [] [])), [], 0%nat.
    split; [|reflexivity].
    split; [reflexivity|]. split.
    - split; [reflexivity|]. split; [reflexivity|].
      eexists. split; [vm_compute; reflexivity|]. split; reflexivity.
    - split; [reflexivity|]. eexists. split; [reflexivity|].
      split; [reflexivity|]. split; [reflexivity|]. cbn. lia. }
  split; [exact sparse_table_handles|]. split; [exact Hl|].
  destruct (off_the_table_only_a_seek_helps bytewise_Compare sparse_table it 2 false 5 5
              sparse_table_handles Hl (le_n 5)) as (Hlast & _ & _).
  destruct (Hlast eq_refl) as (it' & HN & Hv & Hn & Hp & _).
  exists it'. repeat split; assumption.
Defined.

End OffTheTable.

(** ** Flushing the file *)

Section FileFlushes.
Import TableBuilder BuilderLogic TableContents.
Variable env : Env.
Variable n0 : nat.

Lemma flushed_frame (r r' : Rep) :
  List.length (flush_calls (calls (file r'))) = List.length (flush_calls (calls (file r))) ->
  data_blocks_ok (written r') = data_blocks_ok (written r) ->
  flushed_per_block n0 r -> flushed_per_block n0 r'.
Proof. unfold flushed_per_block. intros -> ->. auto. Qed.

Lemma flushed_still {A} (m : M A) :
  (forall r, post m r (fun _ r' => file r' = file r /\ written r' = written r)) ->
  preserves (flushed_per_block n0) m.
Proof.
  intros H r HP. eapply post_weaken; [apply H|].
  intros a r' (Hf & Hw). apply (flushed_frame r); [now rewrite Hf|now rewrite Hw|exact HP].
Qed.

Lemma wrote_flushes (r : Rep) f s o :
  wrote r f s o ->
  List.length (flush_calls (calls f)) = List.length (flush_calls (calls (file r))).
Proof.
  intros (_ & new & d & -> & Hnew & _). now rewrite flush_calls_app, Hnew, app_nil_r.
Qed.

Lemma data_blocks_ok_snoc ws w :
  data_blocks_ok (ws ++ [w]) =
  data_blocks_ok ws ++
    (if match w_kind w with DataBlock => status_ok (w_status w) | _ => false end
     then [w] else []).
Proof. unfold data_blocks_ok. rewrite filter_app. reflexivity. Qed.

Lemma flushed_after_Flush (r : Rep) h f s o :
  wrote r f s o -> flushed_per_block n0 r -> flushed_per_block n0 (after_Flush r h f s o).
Proof.
  intros Hw HP. unfold flushed_per_block in *.
  rewrite after_Flush_file, after_Flush_written, data_blocks_ok_snoc, length_app.
  cbn [w_kind w_status]. pose proof (wrote_flushes r f s o Hw) as Hfl.
  destruct (status_ok s); cbn [List.length].
  - unfold file_call. cbn [snd calls]. rewrite flush_calls_app, length_app. cbn. lia.
  - lia.
Qed.

Lemma Flush_flushed : preserves (flushed_per_block n0) (Flush env).
Proof.
  intros r HP.
  destruct (status_ok (status r)) eqn:Hok.
  - destruct (BlockBuilder_empty (data_block r)) eqn:He.
    + unfold Flush. mlines. rewrite Hok. cbn [negb]. mlines. rewrite He.
      mlines. exact HP.
    + eapply post_weaken; [apply Flush_shape; assumption|].
      intros _ r' (_ & h & f & s & o & _ & Hw & ->).
      now apply flushed_after_Flush.
  - unfold Flush. mlines. rewrite Hok. cbn [negb]. mlines. exact HP.
Qed.

Lemma Add_flushed key value : preserves (flushed_per_block n0) (Add env key value).
Proof.
  intros r HP. unfold Add. mlines. mstep; [mlines; exact HP|].
  msteps; try apply Flush_flushed; exact HP.
Qed.

Lemma flushed_after_WriteBlock block (r : Rep) h f s o :
  kind_of block <> DataBlock ->
  wrote r f s o -> flushed_per_block n0 r ->
  flushed_per_block n0 (after_WriteBlock block r h f s o).
Proof.
  intros Hk Hw HP. apply (flushed_frame r); [| |exact HP].
  - destruct block; cbn; exact (wrote_flushes r f s o Hw).
  - destruct block; [cbn in Hk; congruence|..]; unfold after_WriteBlock; rsimpl;
      rewrite data_blocks_ok_snoc; cbn [w_kind kind_of]; apply app_nil_r.
Qed.

Lemma Finish_filter_block_flushed : preserves (flushed_per_block n0) (Finish_filter_block env).
Proof.
  intros r HP. unfold Finish_filter_block. msteps; try exact HP.
  apply post_WriteRawBlock. intros h' f' s' o' Hw.
  apply (flushed_frame r); [|reflexivity|exact HP].
  cbn. exact (wrote_flushes _ f' s' o' Hw).
Qed.

Lemma Finish_metaindex_block_flushed h :
  preserves (flushed_per_block n0) (Finish_metaindex_block env h).
Proof.
  intros r HP. unfold Finish_metaindex_block.
  msteps; try exact HP;
    (apply post_WriteBlock; [assumption|]); intros h' f' s' o' _ Hw;
    (apply flushed_after_WriteBlock; [discriminate|exact Hw|exact HP]).
Qed.

Lemma Finish_index_block_flushed : preserves (flushed_per_block n0) (Finish_index_block env).
Proof.
  intros r HP. unfold Finish_index_block.
  msteps; try exact HP;
    (apply post_WriteBlock; [assumption|]); intros h' f' s' o' _ Hw;
    (apply flushed_after_WriteBlock; [discriminate|exact Hw|exact HP]).
Qed.

Lemma Finish_footer_flushed h1 h2 : preserves (flushed_per_block n0) (Finish_footer env h1 h2).
Proof.
  intros r HP. unfold Finish_footer. msteps; try exact HP;
    (apply (flushed_frame r); [|reflexivity|exact HP]);
    unfold file_call; cbn; rewrite flush_calls_app, length_app; cbn; lia.
Qed.

Lemma Finish_flushed : preserves (flushed_per_block n0) (Finish env).
Proof.
  unfold Finish.
  apply preserves_bind; [exact Flush_flushed|intros _].
  apply preserves_bind; [apply flushed_still; intros r; now mlines|intros c].
  apply preserves_bind; [apply flushed_still; intros r; now mlines|intros _].
  apply preserves_bind; [apply flushed_still; intros r; now mlines|intros _].
  apply preserves_bind; [exact Finish_filter_block_flushed|intros fh].
  apply preserves_bind; [apply Finish_metaindex_block_flushed|intros mh].
  apply preserves_bind; [exact Finish_index_block_flushed|intros ih].
  apply preserves_bind; [apply Finish_footer_flushed|intros _].
  apply flushed_still; intros r; now mlines.
Qed.

Lemma step_flushed op : preserves (flushed_per_block n0) (step env op).
Proof.
  destruct op as [key value| |o| |]; cbn [step].
  - apply Add_flushed.
  - exact Flush_flushed.
  - apply flushed_still. intros r. apply post_bind.
    unfold post at 1. rewrite ChangeOptions_eq.
    destruct (N.eqb _ _); split; reflexivity.
  - apply preserves_bind; [exact Finish_flushed|].
    intros _ r HP. exact HP.
  - apply flushed_still. intros r. unfold Abandon. now mlines.
Qed.

Lemma run_flushed ops : preserves (flushed_per_block n0) (run env ops).
Proof.
  induction ops as [|op ops IH]; cbn [run].
  - intros r HP. exact HP.
  - apply preserves_bind; [apply step_flushed|intros _; exact IH].
Qed.

End FileFlushes.

Section FileFlushFacts.
Import TableBuilder BuilderLogic TableContents.

(** X25.  The builder flushes the file once for each data block it wrote
    successfully, and at no other time.  Whatever methods are called, the
    number of [Flush] calls the file has received since construction is the
    number of data blocks whose write left the status OK: a failed block write
    is not followed by a flush, and [Finish] flushes neither after the filter,
    metaindex and index blocks nor after the footer. *)
Theorem file_is_flushed_once_per_data_block :
  forall (env : Env) (opt : Options) (f : WritableFile) (ops : list Op) (r' : Rep),
    run env ops (NewTableBuilder opt f) = Done (tt, r') ->
    List.length (flush_calls (calls (file r'))) =
    (List.length (flush_calls (calls f)) + List.length (data_blocks_ok (written r')))%nat.
Proof.
  intros env opt f ops r' Hrun.
  apply (post_Done _ _ _ _ _
           (run_flushed env (List.length (flush_calls (calls f))) ops
              (NewTableBuilder opt f)
              ltac:(unfold flushed_per_block, NewTableBuilder, Rep_new;
                    destruct (filter_policy opt); cbn; lia))
           Hrun).
Qed.

(** Two data blocks and a [Finish]: eleven appends, two flushes. *)
Lemma file_is_flushed_once_per_data_block_witness :
  let env := example_env false in
  let r0 := NewTableBuilder (example_options 2 kNoCompression (Some 7%N)) reliable_file in
  let ops := [OpAdd (str "a") (str "1"); OpAdd (str "b") (str "2"); OpFinish] in
  let r' := after env ops r0 in
  run env ops r0 = Done (tt, r') /\
  map (fun c => is_flush_call c) (calls (file r')) =
    [false; false; true; false; false; true; false; false; false; false; false; false;
     false] /\
  List.length (flush_calls (calls (file r'))) =
    (0 + List.length (data_blocks_ok (written r')))%nat.
Proof.
  intros env r0 ops r'.
  assert (Hrun : run env ops r0 = Done (tt, r')) by (vm_compute; reflexivity).
  split; [exact Hrun|]. split; [vm_compute; reflexivity|].
  exact (file_is_flushed_once_per_data_block env _ _ ops r' Hrun).
Defined.

End FileFlushFacts.
